(** * EigenWatch backend: the resilient data-access layer of [DataService]

    A shallow embedding of the class [DataService] in its version with
    request management (request de-duplication, the priority queue and its
    scheduler tick, the circuit breaker, the cache-aside wrapper
    [cachedQuery], the monitoring call [getQueueStatus]) and of
    [RedisCacheService.get/set] ([src/common/redis-cache.service.ts]).

    Conventions of the embedding:
    - the fields of the class become the fields of the record [DataService];
      a method becomes a function that takes the record and returns the
      updated record (with its result where it has one);
    - [Date.now()] is an explicit argument [now] (milliseconds, [Z]);
    - a promise is a handle ([nat]) into the field [promises]; the [resolve]
      and [reject] closures of a queue item are that handle;
    - the closure [execute] of a queue item is represented by the item
      itself; calling it is recorded in the field [executed];
    - what the event loop does between two turns (a call of
      [queueSubgraphRequest], a tick of the timer, the end of a race, a call
      of [getQueueStatus], the sweep of the memo) is an [event];
    - logging is left out (the logger has no effect on the state). *)

From Stdlib Require Import ZArith Lia Ascii String.
From stdpp Require Import base gmap sets list strings sorting.

Local Open Scope string_scope.
Local Open Scope list_scope.
Local Open Scope Z_scope.

(** ** JavaScript values *)

(** The payloads that travel through the cache and the promises. Objects and
    arrays are opaque references (always truthy); [JErr] is an [Error] with
    its message. *)
Inductive jsval : Type :=
  | JUndefined
  | JNull
  | JBool (b : bool)
  | JNum (n : Z)
  | JStr (s : string)
  | JObj (ref : nat)
  | JErr (msg : string).

#[global] Instance jsval_eq_dec : EqDecision jsval.
Proof. solve_decision. Defined.

(** ToBoolean, as used by [if (data)] and [data || null]. *)
Definition truthy (v : jsval) : bool :=
  match v with
  | JUndefined | JNull => false
  | JBool b => b
  | JNum n => negb (n =? 0)
  | JStr s => negb (String.eqb s "")
  | JObj _ | JErr _ => true
  end.

(** [a || b] *)
Definition js_or (a b : jsval) : jsval := if truthy a then a else b.

(** [v !== null] *)
Definition not_null (v : jsval) : bool := bool_decide (v ≠ JNull).

(** ** Promises *)

Inductive pstate : Type :=
  | Pending
  | Resolved (v : jsval)
  | Rejected (e : jsval).

#[global] Instance pstate_eq_dec : EqDecision pstate.
Proof. solve_decision. Defined.

Definition settled (p : pstate) : bool :=
  match p with Pending => false | _ => true end.

(** ** Configuration constants of [DataService] *)

Definition MAX_CONCURRENT_REQUESTS : Z := 3.
Definition QUEUE_PROCESSING_INTERVAL : Z := 100.
Definition REQUEST_TIMEOUT : Z := 250000.
Definition EXPIRY_DURATION : Z := 60 * 60 * 1000.
Definition FAILURE_THRESHOLD : Z := 5.
Definition RECOVERY_TIMEOUT : Z := 60000.

(** The upstream (subgraph) timeout that the comment on [REQUEST_TIMEOUT]
    refers to, 30 seconds; it is also the default that the risk module
    registers for the HTTP client ([HttpModule.register({ timeout: 30000 })]). *)
Definition SUBGRAPH_TIMEOUT : Z := 30000.

(** The [timeout] option that [executeSubgraphQuery] gives to
    [httpService.post]: the transport gives up after that long. *)
Definition transport_timeout : Z := REQUEST_TIMEOUT.

(** ** The cache store behind [RedisCacheService] *)

(** Modelled from the spec: the store injected as [CACHE_MANAGER] is an
    external collaborator ("CacheStore (external): get(key), set(key, value,
    ttlSeconds), clear()"; "CacheEntry: {key, value, ttl}; lifecycle owned by
    the store"); the application module registers Redis for it
    ([redisStore]). An entry carries the instant at which it expires and is
    readable strictly before it; [reachable] false makes every call of the
    store raise. [REDIS_TTL] is the configured default, 300 unless set, that
    [RedisCacheService.set] falls back to. *)
Record cacheStore : Type := CacheStore {
  entries : gmap string (jsval * Z);
  reachable : bool;
  REDIS_TTL : Z
}.

(** ** Queue items and the service state *)

Record queueItem : Type := QueueItem {
  id : string;
  query : string;       (* captured by [execute] *)
  variables : string;   (* captured by [execute], as its JSON text *)
  promise : nat;        (* [resolve] / [reject] *)
  priority : Z;
  timestamp : Z
}.

#[global] Instance queueItem_eq_dec : EqDecision queueItem.
Proof. solve_decision. Defined.

Record DataService : Type := mkDataService {
  requestQueue : list queueItem;
  pendingRequests : gmap string nat;
  activeRequests : gset string;
  processedRequests : gmap string (jsval * Z);
  isProcessingQueue : bool;
  failureCount : Z;
  lastFailureTime : Z;
  cacheService : cacheStore;
  (* the runtime around the object *)
  promises : list pstate;
  inflight : list (queueItem * Z);  (* races started and not yet settled, with their start *)
  executed : list queueItem         (* calls of [request.execute()], oldest first *)
}.

Definition set_requestQueue (q : list queueItem) (s : DataService) : DataService :=
  mkDataService q (pendingRequests s) (activeRequests s) (processedRequests s)
    (isProcessingQueue s) (failureCount s) (lastFailureTime s) (cacheService s)
    (promises s) (inflight s) (executed s).
Definition set_pendingRequests (m : gmap string nat) (s : DataService) : DataService :=
  mkDataService (requestQueue s) m (activeRequests s) (processedRequests s)
    (isProcessingQueue s) (failureCount s) (lastFailureTime s) (cacheService s)
    (promises s) (inflight s) (executed s).
Definition set_activeRequests (a : gset string) (s : DataService) : DataService :=
  mkDataService (requestQueue s) (pendingRequests s) a (processedRequests s)
    (isProcessingQueue s) (failureCount s) (lastFailureTime s) (cacheService s)
    (promises s) (inflight s) (executed s).
Definition set_processedRequests (m : gmap string (jsval * Z)) (s : DataService) : DataService :=
  mkDataService (requestQueue s) (pendingRequests s) (activeRequests s) m
    (isProcessingQueue s) (failureCount s) (lastFailureTime s) (cacheService s)
    (promises s) (inflight s) (executed s).
Definition set_isProcessingQueue (b : bool) (s : DataService) : DataService :=
  mkDataService (requestQueue s) (pendingRequests s) (activeRequests s) (processedRequests s)
    b (failureCount s) (lastFailureTime s) (cacheService s)
    (promises s) (inflight s) (executed s).
Definition set_failureCount (n : Z) (s : DataService) : DataService :=
  mkDataService (requestQueue s) (pendingRequests s) (activeRequests s) (processedRequests s)
    (isProcessingQueue s) n (lastFailureTime s) (cacheService s)
    (promises s) (inflight s) (executed s).
Definition set_lastFailureTime (t : Z) (s : DataService) : DataService :=
  mkDataService (requestQueue s) (pendingRequests s) (activeRequests s) (processedRequests s)
    (isProcessingQueue s) (failureCount s) t (cacheService s)
    (promises s) (inflight s) (executed s).
Definition set_cacheService (c : cacheStore) (s : DataService) : DataService :=
  mkDataService (requestQueue s) (pendingRequests s) (activeRequests s) (processedRequests s)
    (isProcessingQueue s) (failureCount s) (lastFailureTime s) c
    (promises s) (inflight s) (executed s).
Definition set_promises (p : list pstate) (s : DataService) : DataService :=
  mkDataService (requestQueue s) (pendingRequests s) (activeRequests s) (processedRequests s)
    (isProcessingQueue s) (failureCount s) (lastFailureTime s) (cacheService s)
    p (inflight s) (executed s).
Definition set_inflight (l : list (queueItem * Z)) (s : DataService) : DataService :=
  mkDataService (requestQueue s) (pendingRequests s) (activeRequests s) (processedRequests s)
    (isProcessingQueue s) (failureCount s) (lastFailureTime s) (cacheService s)
    (promises s) l (executed s).
Definition set_executed (l : list queueItem) (s : DataService) : DataService :=
  mkDataService (requestQueue s) (pendingRequests s) (activeRequests s) (processedRequests s)
    (isProcessingQueue s) (failureCount s) (lastFailureTime s) (cacheService s)
    (promises s) (inflight s) l.

(** The object right after its constructor, around a given cache store. *)
Definition initial (c : cacheStore) : DataService :=
  mkDataService [] ∅ ∅ ∅ false 0 0 c [] [] [].

(** ** Exceptions: a state-and-error monad *)

Inductive res (A : Type) : Type :=
  | Ret (a : A)
  | Throw (e : jsval).
Arguments Ret {A} a.
Arguments Throw {A} e.

Definition M (S A : Type) : Type := S → res A * S.

Section Monad.
Context {S : Type}.

Definition ret {A} (a : A) : M S A := λ s, (Ret a, s).
Definition throw {A} (e : jsval) : M S A := λ s, (Throw e, s).
Definition bind {A B} (m : M S A) (k : A → M S B) : M S B :=
  λ s, match m s with
       | (Ret a, s') => k a s'
       | (Throw e, s') => (Throw e, s')
       end.
(** [try { m } catch (e) { h e }] *)
Definition try_catch {A} (m : M S A) (h : jsval → M S A) : M S A :=
  λ s, match m s with
       | (Ret a, s') => (Ret a, s')
       | (Throw e, s') => h e s'
       end.
Definition modify (f : S → S) : M S unit := λ s, (Ret tt, f s).
Definition gets {A} (f : S → A) : M S A := λ s, (Ret (f s), s).
(** A call that cannot raise. *)
Definition total {A} (f : S → A * S) : M S A :=
  λ s, match f s with (a, s') => (Ret a, s') end.
End Monad.

Notation "'let!' x ':=' m 'in' k" := (bind m (λ x, k))
  (at level 10, x name, m at level 100, k at level 200).
Notation "m '>>' k" := (bind m (λ _, k))
  (at level 100, k at level 200, right associativity).

(** ** Request identifiers *)

(** The characters that [\s] matches among the ASCII ones. *)
Definition is_space (c : ascii) : bool :=
  let n := nat_of_ascii c in
  ((9 <=? n)%nat && (n <=? 13)%nat) || (n =? 32)%nat.

(** [s.replace(/\s+/g, ' ')]: every maximal run of white space becomes one
    blank. [in_run] tells that the previous character was white space. *)
Fixpoint collapse_spaces (in_run : bool) (s : string) : string :=
  match s with
  | EmptyString => EmptyString
  | String c s' =>
      if is_space c
      then (if in_run then collapse_spaces true s'
            else String " " (collapse_spaces true s'))
      else String c (collapse_spaces false s')
  end.

Fixpoint trim_start (s : string) : string :=
  match s with
  | EmptyString => EmptyString
  | String c s' => if is_space c then trim_start s' else s
  end.

Fixpoint trim_end (s : string) : string :=
  match s with
  | EmptyString => EmptyString
  | String c s' =>
      match trim_end s' with
      | EmptyString => if is_space c then EmptyString else String c EmptyString
      | r => String c r
      end
  end.

(** [s.trim()] *)
Definition trim (s : string) : string := trim_end (trim_start s).

(** [getRequestId(query, variables)]; [variables] is given by its
    [JSON.stringify] text. *)
Definition getRequestId (query variables : string) : string :=
  trim (collapse_spaces false query) +:+ "_" +:+ variables.

(** ** Circuit breaker *)

(** The bookkeeping operations that a handler of [processRequestSafely]
    guards with [try]/[catch]. A [faults] says which of them raise during
    one run of the handlers; an operation that raises does not take
    effect. *)
Inductive op : Type := BreakerUpdate | MemoInsert | ActiveRemove.

Definition faults : Type := op → bool.
Definition no_faults : faults := λ _, false.

Definition internal_error : jsval := JErr "internal".

Definition guard (fl : faults) (o : op) : M DataService unit :=
  if fl o then throw internal_error else ret tt.

Definition isCircuitOpen (now : Z) (s : DataService) : bool * DataService :=
  if failureCount s <? FAILURE_THRESHOLD then (false, s)
  else
    let timeSinceLastFailure := now - lastFailureTime s in
    if RECOVERY_TIMEOUT <? timeSinceLastFailure
    then (false, set_failureCount 0 s)
    else (true, s).

Definition recordFailure (fl : faults) (now : Z) : M DataService unit :=
  try_catch
    (guard fl BreakerUpdate >>
     modify (λ s, set_failureCount (failureCount s + 1) s) >>
     modify (set_lastFailureTime now))
    (λ _, ret tt).

Definition recordSuccess (fl : faults) : M DataService unit :=
  try_catch
    (let! n := gets failureCount in
     if 0 <? n
     then guard fl BreakerUpdate >> modify (set_failureCount 0)
     else ret tt)
    (λ _, ret tt).

(** ** The queue *)

(** The comparator given to [requestQueue.sort]. *)
Definition compare_items (a b : queueItem) : Z :=
  if bool_decide (priority a ≠ priority b)
  then priority b - priority a
  else timestamp a - timestamp b.

(** [Array.prototype.sort] is stable: an element goes in front of the first
    one of the sorted rest that it does not come after. *)
Fixpoint sort_insert (cmp : queueItem → queueItem → Z) (x : queueItem)
    (l : list queueItem) : list queueItem :=
  match l with
  | [] => [x]
  | y :: l' => if cmp x y <=? 0 then x :: l else y :: sort_insert cmp x l'
  end.

Definition js_sort (cmp : queueItem → queueItem → Z) (l : list queueItem)
    : list queueItem :=
  foldr (sort_insert cmp) [] l.

(** The body of [processRequestSafely] up to the start of the race:
    [request.execute()] is called and the race is in flight. ([execute] is a
    call of an [async] method, which never raises synchronously; the outer
    [catch] of [processRequestSafely] is therefore not entered.) *)
Definition processRequestSafely (now : Z) (request : queueItem)
    (s : DataService) : DataService :=
  set_inflight (inflight s ++ [(request, now)])
    (set_executed (executed s ++ [request]) s).

(** One iteration of the [for] loop of [processQueue]. *)
Definition dispatch (now : Z) (s : DataService) (request : queueItem)
    : DataService :=
  let s1 := set_activeRequests ({[id request]} ∪ activeRequests s) s in
  if bool_decide (is_Some (processedRequests s1 !! id request))
  then set_activeRequests (activeRequests s1 ∖ {[id request]}) s1
  else processRequestSafely now request s1.

Definition availableSlots (s : DataService) : Z :=
  MAX_CONCURRENT_REQUESTS - Z.of_nat (size (activeRequests s)).

(** [requestQueue.sort(...)] followed by [requestQueue.splice(0, n)]. *)
Definition requestsToProcess (s : DataService) : list queueItem :=
  take (Z.to_nat (availableSlots s)) (js_sort compare_items (requestQueue s)).
Definition remainingQueue (s : DataService) : list queueItem :=
  drop (Z.to_nat (availableSlots s)) (js_sort compare_items (requestQueue s)).

Definition processQueue (now : Z) (s : DataService) : DataService :=
  if isProcessingQueue s || bool_decide (requestQueue s = []) then s
  else
    match isCircuitOpen now s with
    | (true, s1) => s1
    | (false, s1) =>
        if availableSlots s1 <=? 0 then s1
        else
          let s2 := set_isProcessingQueue true s1 in
          let s3 := set_requestQueue (remainingQueue s2) s2 in
          let s4 := foldl (dispatch now) s3 (requestsToProcess s2) in
          set_isProcessingQueue false s4
    end.

(** ** Settlement of a race *)

Definition resolve (p : nat) (v : jsval) : M DataService unit :=
  modify (λ s, match promises s !! p with
               | Some Pending => set_promises (<[p := Resolved v]> (promises s)) s
               | _ => s
               end).

Definition reject (p : nat) (e : jsval) : M DataService unit :=
  modify (λ s, match promises s !! p with
               | Some Pending => set_promises (<[p := Rejected e]> (promises s)) s
               | _ => s
               end).

(** [this.processedRequests.set(id, { result, timestamp: Date.now() })] *)
Definition memo_set (fl : faults) (k : string) (result : jsval) (now : Z)
    : M DataService unit :=
  guard fl MemoInsert >>
  modify (λ s, set_processedRequests (<[k := (result, now)]> (processedRequests s)) s).

(** [this.activeRequests.delete(id)] *)
Definition active_delete (fl : faults) (k : string) : M DataService unit :=
  guard fl ActiveRemove >>
  modify (λ s, set_activeRequests (activeRequests s ∖ {[k]}) s).

(** The [.then] handler of the race. *)
Definition onFulfilled (fl : faults) (request : queueItem) (result : jsval)
    (now : Z) : M DataService unit :=
  try_catch
    (recordSuccess fl >>
     memo_set fl (id request) result now >>
     resolve (promise request) result)
    (λ _, try_catch (resolve (promise request) result) (λ _, ret tt)).

(** The [.catch] handler of the race. *)
Definition onRejected (fl : faults) (request : queueItem) (error : jsval)
    (now : Z) : M DataService unit :=
  try_catch
    (recordFailure fl now >>
     memo_set fl (id request) error now >>
     reject (promise request) error)
    (λ _, try_catch (reject (promise request) error) (λ _, ret tt)).

(** The [.finally] handler of the race. *)
Definition onFinally (fl : faults) (request : queueItem) : M DataService unit :=
  try_catch
    (active_delete fl (id request))
    (λ _, try_catch (active_delete fl (id request)) (λ _, ret tt)).

(** How a race ends: [execute()] fulfils, [execute()] rejects, or the timer
    of [REQUEST_TIMEOUT] milliseconds fires first. *)
Inductive raceOutcome : Type :=
  | ExecResolved (v : jsval)
  | ExecRejected (e : jsval)
  | TimedOut.

(** The timer set by [setTimeout(..., REQUEST_TIMEOUT)] at [start] can fire
    at [now]. *)
Definition timer_due (start now : Z) : bool := start + REQUEST_TIMEOUT <=? now.

(** [requestPromise.finally(() => this.pendingRequests.delete(requestId))]:
    runs once the promise of the request is settled. *)
Definition pendingCleanup (request : queueItem) (s : DataService) : DataService :=
  match promises s !! promise request with
  | Some st => if settled st
               then set_pendingRequests (delete (id request) (pendingRequests s)) s
               else s
  | None => s
  end.

(** The race of the [i]-th request in flight ends with [o] at [now]: the
    handlers chained on it run, then the clean-up chained on the promise of
    the request. Nothing happens when there is no such race, or when [o] is
    a timeout whose timer is not due. *)
Definition settle (i : nat) (o : raceOutcome) (fl : faults) (now : Z)
    (s : DataService) : DataService :=
  match inflight s !! i with
  | None => s
  | Some (request, start) =>
      let s1 := set_inflight (delete i (inflight s)) s in
      let handlers (h : M DataService unit) := snd ((h >> onFinally fl request) s1) in
      match o with
      | ExecResolved v => pendingCleanup request (handlers (onFulfilled fl request v now))
      | ExecRejected e => pendingCleanup request (handlers (onRejected fl request e now))
      | TimedOut =>
          if timer_due start now
          then pendingCleanup request
                 (handlers (onRejected fl request (JErr "Request timeout") now))
          else s
      end
  end.

(** ** Enqueueing with de-duplication *)

(** [queueSubgraphRequest(query, variables, priority)]. The function is
    [async]: the promise it hands out when the request is already pending
    is one that follows the stored promise, and is identified with it. *)
Definition queueSubgraphRequest (query variables : string) (priority now : Z)
    (s : DataService) : nat * DataService :=
  let requestId := getRequestId query variables in
  match pendingRequests s !! requestId with
  | Some p => (p, s)
  | None =>
      let p := length (promises s) in
      let queueItem := QueueItem requestId query variables p priority now in
      let s1 := set_promises (promises s ++ [Pending]) s in
      let s2 := set_requestQueue (requestQueue s1 ++ [queueItem]) s1 in
      (p, set_pendingRequests (<[requestId := p]> (pendingRequests s2)) s2)
  end.

(** ** Monitoring and the sweep of the memo *)

Record queueStatus : Type := QueueStatus {
  queueSize : nat;
  activeCount : nat;
  statusFailureCount : Z;
  circuitOpen : bool;
  pendingDeduplication : nat
}.

(** [getQueueStatus()]: the properties of the object literal are evaluated
    in order, [failureCount] before [circuitOpen]. *)
Definition getQueueStatus (now : Z) (s : DataService) : queueStatus * DataService :=
  let qs := length (requestQueue s) in
  let ac := size (activeRequests s) in
  let fc := failureCount s in
  match isCircuitOpen now s with
  | (co, s') => (QueueStatus qs ac fc co (size (pendingRequests s')), s')
  end.

(** The clean-up loop started by the constructor. *)
Definition sweep (now : Z) (s : DataService) : DataService :=
  set_processedRequests
    (filter (λ kv, ¬ (EXPIRY_DURATION < now - snd (snd kv))) (processedRequests s)) s.

(** ** [RedisCacheService] *)

(** [this.cache.get(key)] of the store: [undefined] for a key that is absent
    or expired. *)
Definition store_get (now : Z) (c : cacheStore) (key : string) : res jsval :=
  if reachable c then
    match entries c !! key with
    | Some (v, expiresAt) => if now <? expiresAt then Ret v else Ret JUndefined
    | None => Ret JUndefined
    end
  else Throw (JErr "store unreachable").

(** [this.cache.set(key, data, ttl)] of the store, [ttl] in seconds. *)
Definition store_set (now : Z) (c : cacheStore) (key : string) (data : jsval)
    (ttl : Z) : res cacheStore :=
  if reachable c
  then Ret (CacheStore (<[key := (data, now + ttl * 1000)]> (entries c))
              (reachable c) (REDIS_TTL c))
  else Throw (JErr "store unreachable").

(** The [ApiException]s of [RedisCacheService]. *)
Definition cache_get_error : jsval := JErr "Failed to retrieve cache".
Definition cache_set_error : jsval := JErr "Failed to set cache".

(** [RedisCacheService.get(key)] *)
Definition RedisCacheService_get (now : Z) (key : string) : M DataService jsval :=
  try_catch
    (λ s, match store_get now (cacheService s) key with
          | Ret data => (Ret (js_or data JNull), s)
          | Throw e => (Throw e, s)
          end)
    (λ _, throw cache_get_error).

(** [RedisCacheService.set(key, data, ttlSeconds)] *)
Definition RedisCacheService_set (now : Z) (key : string) (data : jsval)
    (ttlSeconds : Z) : M DataService unit :=
  try_catch
    (λ s, let ttl := if ttlSeconds =? 0 then REDIS_TTL (cacheService s) else ttlSeconds in
          match store_set now (cacheService s) key data ttl with
          | Ret c => (Ret tt, set_cacheService c s)
          | Throw e => (Throw e, s)
          end)
    (λ _, throw cache_set_error).

(** ** The cache-aside wrapper *)

(** [cachedQuery] runs on the service together with a counter of the calls
    of [queryFn] that it makes. *)
Definition lift {A} (m : M DataService A) : M (DataService * nat) A :=
  λ '(s, n), match m s with (r, s') => (r, (s', n)) end.

(** [await queryFn()] *)
Definition invoke {A} (queryFn : M DataService A) : M (DataService * nat) A :=
  λ '(s, n), match queryFn s with (r, s') => (r, (s', S n)) end.

(** [cachedQuery(cacheKey, queryFn, ttl, priority)]. [queryFn] is whatever
    the caller passes; its run may change the service in any way (the queue
    is worked on while the caller awaits it). [t1] is the time of the first
    read of the cache, [t2] the time after [queryFn] has returned.
    [priority] is not used by the body. *)
Definition cachedQuery (cacheKey : string) (queryFn : M DataService jsval)
    (ttl : Z) (t1 t2 : Z) : M (DataService * nat) jsval :=
  try_catch
    (let! cached := lift (RedisCacheService_get t1 cacheKey) in
     if not_null cached then ret cached
     else
       let! result := invoke queryFn in
       (if bool_decide (result ≠ JNull) && bool_decide (result ≠ JUndefined)
        then lift (RedisCacheService_set t2 cacheKey result ttl)
        else ret tt) >>
       ret result)
    (λ error,
       let! open := lift (total (isCircuitOpen t2)) in
       let! stale :=
         (if open
          then try_catch
                 (let! staleData := lift (RedisCacheService_get t2 cacheKey) in
                  if not_null staleData then ret (Some staleData) else ret None)
                 (λ _, ret None)
          else ret None) in
       match stale with
       | Some staleData => ret staleData
       | None => throw error
       end).

(** ** Executions *)

Inductive event : Type :=
  | Call (query variables : string) (priority now : Z)
  | Tick (now : Z)
  | Settle (i : nat) (o : raceOutcome) (fl : faults) (now : Z)
  | Status (now : Z)
  | Sweep (now : Z).

Definition step (s : DataService) (e : event) : DataService :=
  match e with
  | Call q v p now => snd (queueSubgraphRequest q v p now s)
  | Tick now => processQueue now s
  | Settle i o fl now => settle i o fl now s
  | Status now => snd (getQueueStatus now s)
  | Sweep now => sweep now s
  end.

Definition run (s : DataService) (evs : list event) : DataService :=
  foldl step s evs.

(** The states that the service can be in: those reached from the state
    after construction by any sequence of events. *)
Definition reachable_state (s : DataService) : Prop :=
  ∃ c evs, s = run (initial c) evs.

(** ** Vocabulary of the properties *)

(** [recordFailure()] called at each of the times [ts], in order, with
    nothing else in between. *)
Definition recordFailures (ts : list Z) (s : DataService) : DataService :=
  foldl (λ s t, snd (recordFailure no_faults t s)) s ts.


(** A store that is up and empty, with the default [REDIS_TTL] of 300. *)
Definition empty_store : cacheStore := CacheStore ∅ true 300.

(** A breaker left open by five failures, the last one at time 5. *)
Definition tripped : DataService :=
  recordFailures [1; 2; 3; 4; 5] (initial empty_store).

(** One request dispatched at time 0 and still in flight. *)
Definition one_in_flight : DataService :=
  run (initial empty_store) [Call "{ operators { id } }" "{}" 1 0; Tick 0].

(** [a] does not come after [b] for the comparator of the queue. *)
Definition item_le (a b : queueItem) : Prop := compare_items a b ≤ 0.

(** The request is not in the memo [processedRequests]. *)
Definition not_memoized (s : DataService) (r : queueItem) : bool :=
  bool_decide (processedRequests s !! id r = None).

(** The tick at [now] gets as far as the loop: the queue is not empty, no
    other run of [processQueue] is marked, the breaker is not open and a
    slot is free. *)
Definition tick_proceeds (now : Z) (s : DataService) : Prop :=
  isProcessingQueue s = false ∧ requestQueue s ≠ []
  ∧ fst (isCircuitOpen now s) = false
  ∧ 0 < availableSlots (snd (isCircuitOpen now s)).

(** Requests A (priority 1, enqueued at 0) and B (priority 2, enqueued at 1)
    wait while two other requests are in flight. *)
Definition two_waiting : DataService :=
  run (initial empty_store)
    [Call "X" "{}" 1 0; Call "Y" "{}" 1 0; Tick 0;
     Call "A" "{}" 1 0; Call "B" "{}" 2 1].

(** How many of the requests of [l] settle the promise [p]. *)
Definition occ (p : nat) (l : list queueItem) : nat :=
  length (filter (λ r, promise r = p) l).

(** The promise [p] has been resolved or rejected. *)
Definition settled_at (p : nat) (s : DataService) : bool :=
  match promises s !! p with
  | Some st => settled st
  | None => false
  end.

(** The requests that wait in the queue or are in flight. *)
Definition live (s : DataService) : list queueItem :=
  requestQueue s ++ (fst <$> inflight s).

(** What holds of the service between two events. *)
Record wf (s : DataService) : Prop := {
  wf_active : (size (activeRequests s) ≤ Z.to_nat MAX_CONCURRENT_REQUESTS)%nat;
  wf_flag : isProcessingQueue s = false;
  wf_failures : 0 ≤ failureCount s;
  wf_unique : ∀ p, (occ p (live s) ≤ 1)%nat;
  wf_items : ∀ r, r ∈ live s →
    promises s !! promise r = Some Pending
    ∧ pendingRequests s !! id r = Some (promise r);
  wf_executed : ∀ r, r ∈ executed s → (promise r < length (promises s))%nat;
  wf_execs : ∀ p,
    occ p (executed s)
    = (occ p (fst <$> inflight s) + (if settled_at p s then 1 else 0))%nat
}.

(** The promise store after [resolve] or [reject] of [p] with the state [st]. *)
Definition settle_promise (p : nat) (st : pstate) (ps : list pstate) : list pstate :=
  match ps !! p with
  | Some Pending => <[p := st]> ps
  | _ => ps
  end.

(** The promise state that the outcome of a race leads to. *)
Definition outcome_state (o : raceOutcome) : pstate :=
  match o with
  | ExecResolved v => Resolved v
  | ExecRejected e => Rejected e
  | TimedOut => Rejected (JErr "Request timeout")
  end.

(** The outcome can happen at [now] for a race started at [start]. *)
Definition outcome_due (o : raceOutcome) (start now : Z) : bool :=
  match o with
  | TimedOut => timer_due start now
  | _ => true
  end.

(** A call of [queueSubgraphRequest]: query, variables, priority, time. *)
Definition call : Type := string * string * Z * Z.

Definition call_event (c : call) : event :=
  match c with (q, v, pr, now) => Call q v pr now end.

Definition call_key (c : call) : string :=
  match c with (q, v, _, _) => getRequestId q v end.

(** The calls made one after the other with no other event in between;
    the promises handed to the callers, in order, and the state after. *)
Fixpoint enqueue_all (calls : list call) (s : DataService) : list nat * DataService :=
  match calls with
  | [] => ([], s)
  | (q, v, pr, now) :: rest =>
      match queueSubgraphRequest q v pr now s with
      | (p, s1) =>
          match enqueue_all rest s1 with
          | (ps, s2) => (p :: ps, s2)
          end
      end
  end.

(** No request that could settle the pending promise [p] is left. *)
Definition abandoned (p : nat) (s : DataService) : Prop :=
  promises s !! p = Some Pending ∧ ∀ r, r ∈ live s → promise r ≠ p.

(** A request fails, its caller asks again, and a tick takes the new
    request off the queue. *)
Definition retry_after_failure : DataService :=
  run (initial empty_store)
    [Call "{ avs { id } }" "{}" 1 0; Tick 100;
     Settle 0 (ExecRejected (JErr "Failed to fetch data from subgraph")) no_faults 900;
     Call "{ avs { id } }" "{}" 1 1000; Tick 1100].

(** A request times out; later two callers ask for the same thing at once,
    and a tick takes their request off the queue. *)
Definition after_timeout : DataService :=
  run (initial empty_store)
    [Call "{ operators { id } }" "{}" 1 0; Tick 100;
     Settle 0 TimedOut no_faults 250100].
Definition two_callers : list call :=
  [("{ operators { id } }", "{}", 1, 251000);
   ("{  operators { id }  }", "{}", 1, 251001)].

(** The state of [retry_after_failure] before its last tick. *)
Definition retry_queued : DataService :=
  run (initial empty_store)
    [Call "{ avs { id } }" "{}" 1 0; Tick 100;
     Settle 0 (ExecRejected (JErr "Failed to fetch data from subgraph")) no_faults 900;
     Call "{ avs { id } }" "{}" 1 1000].

(** The state once the two callers of [two_callers] have been served and
    the next tick has run. *)
Definition after_timeout_retried : DataService :=
  processQueue 251100 (snd (enqueue_all two_callers after_timeout)).

(** The part of [cachedQuery] inside [try] that follows a miss. *)
Definition queryAndStore (cacheKey : string) (queryFn : M DataService jsval)
    (ttl : Z) (t2 : Z) : M (DataService * nat) jsval :=
  let! result := invoke queryFn in
  (if bool_decide (result ≠ JNull) && bool_decide (result ≠ JUndefined)
   then lift (RedisCacheService_set t2 cacheKey result ttl)
   else ret tt) >>
  ret result.

(** The [catch] block of [cachedQuery]. *)
Definition staleFallback (cacheKey : string) (t2 : Z) (error : jsval)
    : M (DataService * nat) jsval :=
  let! open := lift (total (isCircuitOpen t2)) in
  let! stale :=
    (if open
     then try_catch
            (let! staleData := lift (RedisCacheService_get t2 cacheKey) in
             if not_null staleData then ret (Some staleData) else ret None)
            (λ _, ret None)
     else ret None) in
  match stale with
  | Some staleData => ret staleData
  | None => throw error
  end.

(** An open breaker over a store in which the entry of the key "k" has
    expired at time 500. *)
Definition expired_entry : cacheStore :=
  CacheStore {[ "k" := (JObj 7, 500) ]} true 300.
Definition degraded : DataService := set_cacheService expired_entry tripped.

(** A [queryFn] that fails as [executeSubgraphQuery] does. *)
Definition upstream_error : jsval := JErr "Failed to fetch data from subgraph".
Definition failing_query : M DataService jsval := throw upstream_error.

(** A store in which the key "count" holds the number 0 until time 1000000,
    and a [queryFn] that answers 0. *)
Definition zero_entry : cacheStore :=
  CacheStore {[ "count" := (JNum 0, 1000000) ]} true 300.
Definition zero_cached : DataService := initial zero_entry.
Definition zero_query : M DataService jsval := ret (JNum 0).

(** A store in which the key "ops" holds an object until time 1000000. *)
Definition object_entry : cacheStore :=
  CacheStore {[ "ops" := (JObj 1, 1000000) ]} true 300.

(** The keys of the requests in flight. *)
Definition flying_ids (s : DataService) : list string :=
  id <$> (fst <$> inflight s).

(** [activeRequests.delete] does not raise in this event. *)
Definition delete_succeeds (e : event) : Prop :=
  match e with
  | Settle _ _ fl _ => fl ActiveRemove = false
  | _ => True
  end.


(** The active set is the set of the keys of the requests in flight. *)
Definition exact (s : DataService) : Prop :=
  activeRequests s = list_to_set (flying_ids s).

(** Every entry of [pendingRequests] is a promise that is not settled, and
    no two keys share a promise. *)
Definition pending_unsettled (s : DataService) : Prop :=
  ∀ k p, pendingRequests s !! k = Some p →
    promises s !! p = Some Pending
    ∧ ∀ k', pendingRequests s !! k' = Some p → k' = k.

(** The value that the handlers of a race store in the memo. *)
Definition outcome_value (o : raceOutcome) : jsval :=
  match o with
  | ExecResolved v => v
  | ExecRejected e => e
  | TimedOut => JErr "Request timeout"
  end.

(** The race ended in a fulfilment. *)
Definition fulfilled (o : raceOutcome) : bool :=
  match o with ExecResolved _ => true | _ => false end.

(** The time to live that [RedisCacheService.set] gives to the store. *)
Definition effective_ttl (c : cacheStore) (ttlSeconds : Z) : Z :=
  if ttlSeconds =? 0 then REDIS_TTL c else ttlSeconds.

(** A store that does not answer. *)
Definition down_store : cacheStore := CacheStore ∅ false 300.

(** A [queryFn] that answers an object. *)
Definition object_query : M DataService jsval := ret (JObj 5).

(** A [queryFn] that answers an object and leaves the store unreachable. *)
Definition query_then_outage : M DataService jsval :=
  λ s, (Ret (JObj 5), set_cacheService down_store s).

(** [query.replace(/\s+/g, ' ').trim()], the text part of a request id. *)
Definition normalize (query : string) : string :=
  trim (collapse_spaces false query).

(** The text has no white space but single blanks, none of them first
    (unless [in_run] allows none at all) and none after another. *)
Fixpoint tidy (in_run : bool) (s : string) : bool :=
  match s with
  | EmptyString => true
  | String c s' =>
      if is_space c
      then Ascii.eqb c " " && negb in_run && tidy true s'
      else tidy false s'
  end.

(** ** [executeSubgraphQuery] *)

(** What the error of a failed [httpService.post] carries: [error.message]
    (absent for a thrown value without one), [error.code] and
    [error.response?.status]. *)
Record transportError : Type := TransportError {
  err_message : option string;
  err_code : option string;
  err_status : option Z
}.

(** How [httpService.post] ends: with a response whose body has the fields
    [errors] (given with its [JSON.stringify] text) and [data], or with an
    error. *)
Inductive postOutcome : Type :=
  | Responded (errors : jsval) (errorsJson : string) (data : jsval)
  | Failed (e : transportError).

Record HttpException : Type := mkHttpException {
  he_message : string;
  he_status : Z
}.

Definition REQUEST_TIMEOUT_STATUS : Z := 408.
Definition INTERNAL_SERVER_ERROR : Z := 500.

(** [`${x}`] of a message that may be absent. *)
Definition interpolate (m : option string) : string :=
  match m with Some s => s | None => "undefined" end.

(** [error.message || 'Unknown error'] *)
Definition message_or_unknown (m : option string) : string :=
  match m with
  | Some s => if String.eqb s "" then "Unknown error" else s
  | None => "Unknown error"
  end.

(** The [catch] block of [executeSubgraphQuery]. *)
Definition mapTransportError (e : transportError) : HttpException :=
  if bool_decide (err_code e = Some "ETIMEDOUT")
  then mkHttpException "Subgraph request timed out - API may be overloaded"
         REQUEST_TIMEOUT_STATUS
  else
    match err_status e with
    | Some st =>
        if (400 <=? st) && (st <? 500)
        then mkHttpException ("Subgraph API error: " +:+ interpolate (err_message e)) st
        else mkHttpException
               ("Failed to fetch data from subgraph: " +:+ message_or_unknown (err_message e))
               INTERNAL_SERVER_ERROR
    | None =>
        mkHttpException
          ("Failed to fetch data from subgraph: " +:+ message_or_unknown (err_message e))
          INTERNAL_SERVER_ERROR
    end.

(** [executeSubgraphQuery(query, variables)], as a function of how the
    request ends: the data of the response, or the exception raised. *)
Definition executeSubgraphQuery (o : postOutcome) : jsval + HttpException :=
  match o with
  | Responded errors errorsJson data =>
      if truthy errors
      then inr (mapTransportError
                  (TransportError (Some ("GraphQL errors: " +:+ errorsJson)) None None))
      else inl data
  | Failed e => inr (mapTransportError e)
  end.

(** ** [MathUtilsService.calculateConfidenceScore] *)

(** [calculateConfidenceScore(dataPoints, timeSpan, hasSlashingData,
    hasRecentActivity)] for whole numbers of data points and of days. *)
Definition calculateConfidenceScore (dataPoints timeSpan : Z)
    (hasSlashingData hasRecentActivity : bool) : Z :=
  let confidence := 50 in
  let confidence :=
    if 100 <=? dataPoints then confidence + 20
    else if 50 <=? dataPoints then confidence + 15
    else if 20 <=? dataPoints then confidence + 10
    else if 10 <=? dataPoints then confidence + 5
    else confidence in
  let confidence :=
    if 90 <=? timeSpan then confidence + 15
    else if 30 <=? timeSpan then confidence + 10
    else if 7 <=? timeSpan then confidence + 5
    else confidence in
  let confidence := if hasSlashingData then confidence + 10 else confidence in
  let confidence := if hasRecentActivity then confidence + 5 else confidence in
  Z.min confidence 95.

(** ** [getCacheKey] *)

(** [params[key]] of a parameter object given by its own properties in
    the order of their creation, each with the [JSON.stringify] text of its
    value, or with none when the value is one that [JSON.stringify] leaves
    out ([undefined]). The names are pairwise distinct and none is an array
    index. *)
Fixpoint get_param (key : string) (params : list (string * option string))
    : option (option string) :=
  match params with
  | [] => None
  | (k, v) :: rest => if String.eqb k key then Some v else get_param key rest
  end.

(** [Array.prototype.sort()] on strings, without comparator: by code units,
    stable. *)
Fixpoint insert_key (k : string) (l : list string) : list string :=
  match l with
  | [] => [k]
  | y :: l' => if String.leb k y then k :: l else y :: insert_key k l'
  end.

Definition sort_keys (l : list string) : list string := foldr insert_key [] l.

(** [JSON.stringify] of the object that [reduce] builds by assigning
    [result[key] = params[key]] for the keys in the order [keys].
    [json_string] is [JSON.stringify] on strings (quotes and escapes). *)
Definition stringify_sorted (json_string : string → string) (keys : list string)
    (params : list (string * option string)) : string :=
  "{" +:+
  String.concat ","
    (omap (λ k, match get_param k params with
                | Some (Some v) => Some (json_string k +:+ ":" +:+ v)
                | _ => None
                end) keys)
  +:+ "}".

(** [getCacheKey(method, params)] *)
Definition getCacheKey (json_string : string → string) (method : string)
    (params : list (string * option string)) : string :=
  "eigenlayer:" +:+ method +:+ ":" +:+
  stringify_sorted json_string (sort_keys (fst <$> params)) params.

(** The order of strings that [sort()] uses. *)
Definition key_le (a b : string) : Prop := String.leb a b = true.

(** ** [CorrelationService.getCorrelationMatrix] *)

(** The entries of the matrix are numbers that the loops only copy: they
    are kept abstract, with the constants 0 and 1. [correlation i j] is the
    value that awaiting
    [calculateAVSCorrelation(avsAddresses[i], avsAddresses[j])] yields in
    the iteration [(i, j)] of the loop over the pairs. *)
Section CorrelationMatrix.
Context {V : Type}.
Variable zero one : V.
Variable correlation : nat → nat → V.

(** [matrix[i][j] = x] *)
Definition set_cell (i j : nat) (x : V) (matrix : list (list V)) : list (list V) :=
  alter (λ row, <[j := x]> row) i matrix.

(** [matrix[i][j]] *)
Definition cell (i j : nat) (matrix : list (list V)) : option V :=
  matrix !! i ≫= λ row, row !! j.

(** [Array(size).fill(null).map(() => Array(size).fill(0))] *)
Definition zero_matrix (size : nat) : list (list V) :=
  replicate size (replicate size zero).

(** The loop over the diagonal. *)
Definition fill_diagonal (size : nat) (matrix : list (list V)) : list (list V) :=
  foldl (λ m i, set_cell i i one m) matrix (seq 0 size).

(** The inner loop over [j] from [i + 1] for the row [i]. *)
Definition fill_row (size i : nat) (matrix : list (list V)) : list (list V) :=
  foldl (λ m j, set_cell j i (correlation i j) (set_cell i j (correlation i j) m))
    matrix (seq (i + 1) (size - (i + 1))).

(** The loop over the pairs. *)
Definition fill_pairs (size : nat) (matrix : list (list V)) : list (list V) :=
  foldl (λ m i, fill_row size i m) matrix (seq 0 size).

(** [getCorrelationMatrix(avsAddresses)], [size] being
    [avsAddresses.length]. *)
Definition getCorrelationMatrix (size : nat) : list (list V) :=
  fill_pairs size (fill_diagonal size (zero_matrix size)).

(** The matrix has [size] rows of [size] entries. *)
Definition square (size : nat) (matrix : list (list V)) : Prop :=
  length matrix = size ∧ Forall (λ row, length row = size) matrix.
End CorrelationMatrix.

(** ** [CorrelationService]: the two correlations that count *)

(** [timeWindow], 48 hours in seconds. *)
Definition timeWindow : Z := 48 * 60 * 60.

(** [Math.abs(timestampA - timestampB) <= timeWindow] on the results of
    [parseInt(blockTimestamp)]: [None] stands for [NaN], with which the
    comparison is false. *)
Definition within_window (timestampA timestampB : option Z) : bool :=
  match timestampA, timestampB with
  | Some a, Some b => bool_decide (Z.abs (a - b) ≤ timeWindow)
  | _, _ => false
  end.

(** The inner loop over [eventsB] for one event of [eventsA]: the first
    event within the window increments the counter and breaks. *)
Fixpoint scan_eventsB (timestampA : option Z) (eventsB : list (option Z))
    (simultaneous : Z) : Z :=
  match eventsB with
  | [] => simultaneous
  | timestampB :: rest =>
      if within_window timestampA timestampB then simultaneous + 1
      else scan_eventsB timestampA rest simultaneous
  end.

(** The value of [simultaneousEvents] after the loop over [eventsA] of
    [calculateEventBasedCorrelation]. *)
Definition simultaneousEvents (eventsA eventsB : list (option Z)) : Z :=
  foldl (λ simultaneous timestampA, scan_eventsB timestampA eventsB simultaneous)
    0 eventsA.

(** The result of [calculateOperatorOverlapCorrelation]: the constant 0.1,
    or the quotient of two set sizes. *)
Inductive overlap : Type :=
  | LowCorrelation
  | Quotient (intersection_size union_size : nat).

(** [calculateOperatorOverlapCorrelation], from the operator ids of the two
    adoption lists. *)
Definition calculateOperatorOverlapCorrelation (adoptionA adoptionB : list string)
    : overlap :=
  let operatorsA : gset string := list_to_set adoptionA in
  let operatorsB : gset string := list_to_set adoptionB in
  if bool_decide (size operatorsA = 0%nat ∨ size operatorsB = 0%nat)
  then LowCorrelation
  else
    let intersection : gset string :=
      list_to_set (filter (λ op, op ∈ operatorsB) (elements operatorsA)) in
    let union : gset string :=
      list_to_set (elements operatorsA ++ elements operatorsB) in
    Quotient (size intersection) (size union).

(** [b] comes strictly before [a] in the order of the queue: it has the
    higher priority, or the same priority and was enqueued earlier. *)
Definition before (b a : queueItem) : Prop :=
  priority a < priority b ∨ (priority a = priority b ∧ timestamp b < timestamp a).

(** A request for B has been fulfilled, so that the key of B is in the memo;
    then, while two other requests are in flight, A (priority 1, enqueued
    at 0) and a new request for B (priority 2, enqueued at 1) wait for the
    one free slot. *)
Definition B_memoized : DataService :=
  run (initial empty_store)
    [Call "B" "{}" 2 0; Tick 0; Settle 0 (ExecResolved (JObj 0)) no_faults 0;
     Call "X" "{}" 1 0; Call "Y" "{}" 1 0; Tick 0;
     Call "A" "{}" 1 0; Call "B" "{}" 2 1].

(** An event that records no success, at a time that is neither before
    [since] nor more than [RECOVERY_TIMEOUT] after it. *)
Definition no_success_within (since : Z) (e : event) : Prop :=
  match e with
  | Call _ _ _ _ => True
  | Tick t => t - since ≤ RECOVERY_TIMEOUT
  | Settle _ o _ t => fulfilled o = false ∧ since ≤ t
  | Status t => t - since ≤ RECOVERY_TIMEOUT
  | Sweep _ => True
  end.

(** * Properties *)

(** ** The circuit breaker *)

Lemma recordFailure_spec now s :
  snd (recordFailure no_faults now s)
  = set_lastFailureTime now (set_failureCount (failureCount s + 1) s).
Proof. reflexivity. Qed.

Lemma recordFailures_count ts s :
  failureCount (recordFailures ts s) = failureCount s + Z.of_nat (length ts).
Proof.
  revert s. induction ts as [|t ts IH]; intros s.
  - simpl. lia.
  - change (recordFailures (t :: ts) s)
      with (recordFailures ts (snd (recordFailure no_faults t s))).
    rewrite IH, recordFailure_spec. simpl. lia.
Qed.


Lemma isCircuitOpen_true now s :
  fst (isCircuitOpen now s) = true ↔
  FAILURE_THRESHOLD ≤ failureCount s ∧ now - lastFailureTime s ≤ RECOVERY_TIMEOUT.
Proof.
  unfold isCircuitOpen.
  destruct (Z.ltb_spec (failureCount s) FAILURE_THRESHOLD);
    destruct (Z.ltb_spec RECOVERY_TIMEOUT (now - lastFailureTime s));
    simpl; split; intros; try discriminate; try lia; auto.
Qed.

Lemma isCircuitOpen_true_pure now s :
  fst (isCircuitOpen now s) = true → snd (isCircuitOpen now s) = s.
Proof.
  unfold isCircuitOpen.
  destruct (failureCount s <? FAILURE_THRESHOLD); [discriminate|].
  destruct (RECOVERY_TIMEOUT <? now - lastFailureTime s); [discriminate|].
  reflexivity.
Qed.

Lemma isCircuitOpen_reset now s :
  FAILURE_THRESHOLD ≤ failureCount s →
  RECOVERY_TIMEOUT < now - lastFailureTime s →
  isCircuitOpen now s = (false, set_failureCount 0 s).
Proof.
  intros Hn Ht. unfold isCircuitOpen.
  destruct (Z.ltb_spec (failureCount s) FAILURE_THRESHOLD); [lia|].
  destruct (Z.ltb_spec RECOVERY_TIMEOUT (now - lastFailureTime s)); [|lia].
  reflexivity.
Qed.

(** A tick that finds the breaker open does nothing at all. *)
Lemma processQueue_open now s :
  fst (isCircuitOpen now s) = true → processQueue now s = s.
Proof.
  intros Hopen. unfold processQueue.
  destruct (isProcessingQueue s || bool_decide (requestQueue s = [])); [done|].
  pose proof (isCircuitOpen_true_pure now s Hopen) as Hpure.
  destruct (isCircuitOpen now s) as [b s1]. simpl in *. now subst.
Qed.

Lemma recordSuccess_count s :
  0 ≤ failureCount s → failureCount (snd (recordSuccess no_faults s)) = 0.
Proof.
  intros Hn. unfold recordSuccess, try_catch, bind, gets. simpl.
  destruct (Z.ltb_spec 0 (failureCount s)); simpl; [reflexivity | lia].
Qed.



(** ** Monitoring *)

(** C10: when [failureCount] has reached [FAILURE_THRESHOLD] and more than
    [RECOVERY_TIMEOUT] has passed since the last failure, [getQueueStatus]
    changes the service: it reports [circuitOpen = false] and leaves
    [failureCount] at 0, while the report still carries the count read
    before the reset. *)
Theorem getQueueStatus_closes_breaker (now : Z) (s : DataService) :
  FAILURE_THRESHOLD ≤ failureCount s →
  RECOVERY_TIMEOUT < now - lastFailureTime s →
  circuitOpen (fst (getQueueStatus now s)) = false
  ∧ statusFailureCount (fst (getQueueStatus now s)) = failureCount s
  ∧ failureCount (snd (getQueueStatus now s)) = 0
  ∧ snd (getQueueStatus now s) = set_failureCount 0 s
  ∧ snd (getQueueStatus now s) ≠ s.
Proof.
  intros Hn Ht. unfold getQueueStatus.
  rewrite (isCircuitOpen_reset now s Hn Ht). simpl.
  repeat split; try reflexivity.
  intros Heq. apply (f_equal failureCount) in Heq. simpl in Heq.
  unfold FAILURE_THRESHOLD in Hn. lia.
Qed.

Lemma getQueueStatus_closes_breaker_witness :
  FAILURE_THRESHOLD ≤ failureCount tripped
  ∧ RECOVERY_TIMEOUT < 70000 - lastFailureTime tripped
  ∧ circuitOpen (fst (getQueueStatus 70000 tripped)) = false
  ∧ failureCount (snd (getQueueStatus 70000 tripped)) = 0.
Proof.
  assert (H1 : FAILURE_THRESHOLD ≤ failureCount tripped).
  { unfold FAILURE_THRESHOLD. simpl. lia. }
  assert (H2 : RECOVERY_TIMEOUT < 70000 - lastFailureTime tripped).
  { unfold RECOVERY_TIMEOUT. simpl. lia. }
  split; [exact H1|]. split; [exact H2|].
  destruct (getQueueStatus_closes_breaker 70000 tripped H1 H2) as (Ha & _ & Hb & _).
  split; [exact Ha | exact Hb].
Defined.

(** Outside that case the call reads only. *)
Lemma getQueueStatus_pure (now : Z) (s : DataService) :
  failureCount s < FAILURE_THRESHOLD ∨ now - lastFailureTime s ≤ RECOVERY_TIMEOUT →
  snd (getQueueStatus now s) = s.
Proof.
  intros H. unfold getQueueStatus, isCircuitOpen.
  destruct (Z.ltb_spec (failureCount s) FAILURE_THRESHOLD); [reflexivity|].
  destruct (Z.ltb_spec RECOVERY_TIMEOUT (now - lastFailureTime s)); [lia|].
  reflexivity.
Qed.

(** ** The timeout of a race *)

(** C6: the timer that a dispatched request races against is set to
    [REQUEST_TIMEOUT] = 250000 ms. That is 250 seconds, not 25; it is not
    below the 30 seconds of the upstream, and not below the timeout of the
    transport either, which is the same constant: a request dispatched at
    time 0 cannot be timed out at 25 s nor at 30 s (the state is unchanged),
    only from 250 s on. *)
Theorem request_timeout_is_250_seconds :
  REQUEST_TIMEOUT = 250 * 1000
  ∧ REQUEST_TIMEOUT ≠ 25 * 1000
  ∧ ¬ (REQUEST_TIMEOUT < SUBGRAPH_TIMEOUT)
  ∧ ¬ (REQUEST_TIMEOUT < transport_timeout)
  ∧ (fst <$> inflight one_in_flight)
    = [QueueItem "{ operators { id } }_{}" "{ operators { id } }" "{}" 0 1 0]
  ∧ settle 0 TimedOut no_faults 25000 one_in_flight = one_in_flight
  ∧ settle 0 TimedOut no_faults 30000 one_in_flight = one_in_flight
  ∧ promises (settle 0 TimedOut no_faults 250000 one_in_flight)
    = [Rejected (JErr "Request timeout")].
Proof.
  split; [reflexivity|]. split; [vm_compute; congruence|].
  split; [vm_compute; congruence|]. split; [vm_compute; congruence|].
  split; [vm_compute; reflexivity|].
  split; [vm_compute; reflexivity|]. split; vm_compute; reflexivity.
Qed.

(** ** Sorting of the queue *)

Section Sorting.
Variable cmp : queueItem → queueItem → Z.
Let le (a b : queueItem) : Prop := cmp a b ≤ 0.
Hypothesis le_total : ∀ a b, le a b ∨ le b a.
Hypothesis le_trans : ∀ a b c, le a b → le b c → le a c.

Lemma sort_insert_perm x l : sort_insert cmp x l ≡ₚ x :: l.
Proof.
  induction l as [|y l IH]; simpl; [done|].
  destruct (cmp x y <=? 0); [done|].
  rewrite IH. apply Permutation_swap.
Qed.

Lemma js_sort_perm l : js_sort cmp l ≡ₚ l.
Proof.
  induction l as [|x l IH]; simpl; [done|].
  rewrite sort_insert_perm. now rewrite IH.
Qed.

Lemma sort_insert_sorted x l :
  StronglySorted le l → StronglySorted le (sort_insert cmp x l).
Proof.
  induction 1 as [|y l Hs IH Hall]; simpl.
  - repeat constructor.
  - destruct (Z.leb_spec (cmp x y) 0) as [Hxy|Hxy].
    + constructor; [now constructor|].
      constructor; [exact Hxy|].
      eapply Forall_impl; [exact Hall|]. intros z Hz. now apply (le_trans x y z).
    + assert (Hyx : le y x) by (destruct (le_total x y); [unfold le in *; lia | done]).
      constructor; [exact IH|].
      rewrite sort_insert_perm. now constructor.
Qed.

Lemma js_sort_sorted l : StronglySorted le (js_sort cmp l).
Proof.
  induction l as [|x l IH]; simpl; [constructor | now apply sort_insert_sorted].
Qed.
End Sorting.

Lemma item_le_spec a b :
  item_le a b ↔
  priority b < priority a ∨ (priority a = priority b ∧ timestamp a ≤ timestamp b).
Proof.
  unfold item_le, compare_items. case_bool_decide; lia.
Qed.

Lemma item_le_total a b : item_le a b ∨ item_le b a.
Proof. rewrite !item_le_spec. lia. Qed.

Lemma item_le_trans a b c : item_le a b → item_le b c → item_le a c.
Proof. rewrite !item_le_spec. lia. Qed.

(** ** The loop of [processQueue] *)

Lemma dispatch_frame now s r :
  requestQueue (dispatch now s r) = requestQueue s
  ∧ pendingRequests (dispatch now s r) = pendingRequests s
  ∧ processedRequests (dispatch now s r) = processedRequests s
  ∧ isProcessingQueue (dispatch now s r) = isProcessingQueue s
  ∧ failureCount (dispatch now s r) = failureCount s
  ∧ lastFailureTime (dispatch now s r) = lastFailureTime s
  ∧ cacheService (dispatch now s r) = cacheService s
  ∧ promises (dispatch now s r) = promises s.
Proof. unfold dispatch. simpl. case_bool_decide; simpl; auto 10. Qed.

Lemma dispatch_executed now s r :
  executed (dispatch now s r)
  = executed s ++ (if not_memoized s r then [r] else []).
Proof.
  unfold dispatch, not_memoized. simpl.
  destruct (processedRequests s !! id r) as [m|] eqn:Hm.
  - rewrite bool_decide_true by eauto. rewrite bool_decide_false by done.
    simpl. now rewrite app_nil_r.
  - rewrite bool_decide_false by (intros [? ?]; done).
    now rewrite bool_decide_true by done.
Qed.

Lemma dispatch_inflight now s r :
  inflight (dispatch now s r)
  = inflight s ++ (if not_memoized s r then [(r, now)] else []).
Proof.
  unfold dispatch, not_memoized. simpl.
  destruct (processedRequests s !! id r) as [m|] eqn:Hm.
  - rewrite bool_decide_true by eauto. rewrite bool_decide_false by done.
    simpl. now rewrite app_nil_r.
  - rewrite bool_decide_false by (intros [? ?]; done).
    now rewrite bool_decide_true by done.
Qed.

Lemma dispatch_loop_frame now l : ∀ s,
  requestQueue (foldl (dispatch now) s l) = requestQueue s
  ∧ pendingRequests (foldl (dispatch now) s l) = pendingRequests s
  ∧ processedRequests (foldl (dispatch now) s l) = processedRequests s
  ∧ isProcessingQueue (foldl (dispatch now) s l) = isProcessingQueue s
  ∧ failureCount (foldl (dispatch now) s l) = failureCount s
  ∧ lastFailureTime (foldl (dispatch now) s l) = lastFailureTime s
  ∧ cacheService (foldl (dispatch now) s l) = cacheService s
  ∧ promises (foldl (dispatch now) s l) = promises s.
Proof.
  induction l as [|r l IH]; intros s; simpl; [auto 10|].
  destruct (IH (dispatch now s r)) as (-> & -> & -> & -> & -> & -> & -> & ->).
  apply dispatch_frame.
Qed.

Lemma not_memoized_ext s s' r :
  processedRequests s = processedRequests s' → not_memoized s r = not_memoized s' r.
Proof. unfold not_memoized. now intros ->. Qed.

Lemma dispatch_loop_executed now l : ∀ s,
  executed (foldl (dispatch now) s l) = executed s ++ filter (not_memoized s) l.
Proof.
  induction l as [|r l IH]; intros s; simpl; [now rewrite app_nil_r|].
  rewrite IH, dispatch_executed, <- app_assoc. f_equal.
  rewrite (list_filter_iff (not_memoized (dispatch now s r)) (not_memoized s))
    by (intros x; now rewrite (not_memoized_ext (dispatch now s r) s) by apply dispatch_frame).
  rewrite filter_cons. now destruct (not_memoized s r).
Qed.

Lemma dispatch_loop_inflight now l : ∀ s,
  inflight (foldl (dispatch now) s l)
  = inflight s ++ ((λ r, (r, now)) <$> filter (not_memoized s) l).
Proof.
  induction l as [|r l IH]; intros s; simpl; [now rewrite app_nil_r|].
  rewrite IH, dispatch_inflight, <- app_assoc. f_equal.
  rewrite (list_filter_iff (not_memoized (dispatch now s r)) (not_memoized s))
    by (intros x; now rewrite (not_memoized_ext (dispatch now s r) s) by apply dispatch_frame).
  rewrite filter_cons. now destruct (not_memoized s r).
Qed.

(** What a tick that gets to the loop does. *)
Lemma processQueue_proceeds now s :
  tick_proceeds now s →
  let s1 := snd (isCircuitOpen now s) in
  processQueue now s
  = set_isProcessingQueue false
      (foldl (dispatch now)
         (set_requestQueue (remainingQueue s1) (set_isProcessingQueue true s1))
         (requestsToProcess s1)).
Proof.
  intros (Hflag & Hq & Hopen & Hslots) s1. unfold processQueue.
  rewrite Hflag. rewrite bool_decide_false by done. simpl.
  subst s1. destruct (isCircuitOpen now s) as [b s1]. simpl in *. subst b.
  destruct (Z.leb_spec (availableSlots s1) 0); [lia|]. reflexivity.
Qed.

Lemma isCircuitOpen_state now s :
  snd (isCircuitOpen now s) = s ∨ snd (isCircuitOpen now s) = set_failureCount 0 s.
Proof.
  unfold isCircuitOpen.
  destruct (failureCount s <? FAILURE_THRESHOLD); [now left|].
  destruct (RECOVERY_TIMEOUT <? now - lastFailureTime s); [now right | now left].
Qed.

Lemma before_not_le a b : before b a → ¬ item_le a b.
Proof. unfold before. rewrite item_le_spec. lia. Qed.

(** In a sorted queue, what comes strictly before an entry of a prefix is
    in the prefix too, at an earlier place. *)
Lemma sorted_prefix_before (l : list queueItem) (a b : queueItem) (k : nat) :
  StronglySorted item_le l → b ∈ l → before b a → a ∈ take k l →
  ∃ l1 l2 l3, take k l = l1 ++ b :: l2 ++ a :: l3.
Proof.
  intros Hs Hb Hba Ha.
  apply list_elem_of_split in Ha as (m1 & m3 & Htake).
  assert (Hl : l = m1 ++ a :: (m3 ++ drop k l)).
  { rewrite <- (take_drop k l) at 1. rewrite Htake, <- app_assoc. reflexivity. }
  rewrite Hl in Hb, Hs. apply elem_of_app in Hb as [Hb | Hb].
  - apply list_elem_of_split in Hb as (n1 & n2 & ->).
    exists n1, n2, m3. rewrite Htake, <- app_assoc. reflexivity.
  - exfalso. apply StronglySorted_app_1_r in Hs.
    apply StronglySorted_inv in Hs as [_ Hall].
    apply elem_of_cons in Hb as [-> | Hb].
    + unfold before in Hba. lia.
    + apply (before_not_le a b Hba). eapply Forall_forall in Hall; eauto.
Qed.

(** C7, as the code has it: a tick that gets to the loop sorts the queue by
    priority, higher first, then by time of enqueueing, older first; it
    takes the requests to dispatch from the front of that order and calls
    [execute], in that order, on those whose key is not in the memo (those
    found in the memo are dropped); the rest of the order stays as the
    queue. So an entry that is not in the memo is never overtaken: if the
    tick executes [a], it has executed before it every entry of the queue
    that is not in the memo and comes strictly before [a]; and such an
    entry is executed by the tick or still queued after it. When the queue
    holds just A and B, B of higher priority (or of the same and older),
    neither in the memo, B is dispatched first: alone if one slot is free,
    A staying in the queue, else followed by A. With A (priority 1,
    enqueued at 0) and B (priority 2, enqueued at 1) waiting for the one
    free slot, B is dispatched and A stays; A follows when the next slot is
    free. *)
Theorem dispatch_by_priority_then_age (now : Z) (s : DataService) :
  tick_proceeds now s →
  let s1 := snd (isCircuitOpen now s) in
  StronglySorted item_le (requestsToProcess s1 ++ remainingQueue s1)
  ∧ requestsToProcess s1 ++ remainingQueue s1 ≡ₚ requestQueue s
  ∧ (∀ a b, item_le a b ↔
       priority b < priority a ∨ (priority a = priority b ∧ timestamp a ≤ timestamp b))
  ∧ executed (processQueue now s)
    = executed s ++ filter (not_memoized s) (requestsToProcess s1)
  ∧ requestQueue (processQueue now s) = remainingQueue s1
  ∧ id <$> executed (processQueue 2 two_waiting) = ["X_{}"; "Y_{}"; "B_{}"]
  ∧ id <$> requestQueue (processQueue 2 two_waiting) = ["A_{}"]
  ∧ id <$> executed (run two_waiting
        [Tick 2; Settle 0 (ExecResolved (JObj 0)) no_faults 3; Tick 4])
    = ["X_{}"; "Y_{}"; "B_{}"; "A_{}"]
  ∧ (∀ a b, a ∈ filter (not_memoized s) (requestsToProcess s1) →
       b ∈ requestQueue s → not_memoized s b = true → before b a →
       ∃ l1 l2 l3,
         filter (not_memoized s) (requestsToProcess s1) = l1 ++ b :: l2 ++ a :: l3)
  ∧ (∀ a, a ∈ requestQueue s → not_memoized s a = true →
       a ∈ filter (not_memoized s) (requestsToProcess s1)
       ∨ a ∈ requestQueue (processQueue now s))
  ∧ (∀ a b, requestQueue s ≡ₚ [a; b] → before b a →
       not_memoized s a = true → not_memoized s b = true →
       executed (processQueue now s)
       = executed s ++ (if bool_decide (availableSlots s = 1) then [b] else [b; a])
       ∧ requestQueue (processQueue now s)
         = (if bool_decide (availableSlots s = 1) then [a] else [])).
Proof.
  intros Hgo s1.
  assert (Hnext : id <$> executed (run two_waiting
        [Tick 2; Settle 0 (ExecResolved (JObj 0)) no_faults 3; Tick 4])
    = ["X_{}"; "Y_{}"; "B_{}"; "A_{}"]) by (vm_compute; reflexivity).
  revert Hnext. generalize (run two_waiting
        [Tick 2; Settle 0 (ExecResolved (JObj 0)) no_faults 3; Tick 4]).
  intros nxt Hnext.
  assert (Hex : id <$> executed (processQueue 2 two_waiting) = ["X_{}"; "Y_{}"; "B_{}"]
                ∧ id <$> requestQueue (processQueue 2 two_waiting) = ["A_{}"]).
  { split; vm_compute; reflexivity. }
  revert Hex. generalize (processQueue 2 two_waiting). intros ex Hex.
  assert (Hsorted : StronglySorted item_le (js_sort compare_items (requestQueue s1))).
  { apply js_sort_sorted; [apply item_le_total | apply item_le_trans]. }
  assert (Hq : requestQueue s1 = requestQueue s).
  { subst s1. now destruct (isCircuitOpen_state now s) as [-> | ->]. }
  assert (Hm : processedRequests s1 = processedRequests s).
  { subst s1. now destruct (isCircuitOpen_state now s) as [-> | ->]. }
  assert (He : executed s1 = executed s).
  { subst s1. now destruct (isCircuitOpen_state now s) as [-> | ->]. }
  assert (Hslots : availableSlots s1 = availableSlots s).
  { subst s1. now destruct (isCircuitOpen_state now s) as [-> | ->]. }
  assert (Hfree : 0 < availableSlots s).
  { rewrite <- Hslots. apply Hgo. }
  assert (Hperm : js_sort compare_items (requestQueue s1) ≡ₚ requestQueue s).
  { rewrite <- Hq. apply js_sort_perm. }
  assert (Hexec : executed (processQueue now s)
    = executed s ++ filter (not_memoized s) (requestsToProcess s1)).
  { rewrite (processQueue_proceeds now s Hgo). fold s1.
    cbn [executed requestQueue set_isProcessingQueue].
    rewrite dispatch_loop_executed.
    cbn [executed requestQueue set_isProcessingQueue set_requestQueue]. rewrite He.
    f_equal. apply list_filter_iff. intros x. now rewrite (not_memoized_ext _ s). }
  assert (Hrem : requestQueue (processQueue now s) = remainingQueue s1).
  { rewrite (processQueue_proceeds now s Hgo). fold s1.
    cbn [executed requestQueue set_isProcessingQueue].
    match goal with
    | |- requestQueue (foldl (dispatch now) ?st ?l) = _ =>
        destruct (dispatch_loop_frame now l st) as (-> & _)
    end.
    reflexivity. }
  rewrite Hexec, Hrem. clear Hexec Hrem.
  unfold requestsToProcess, remainingQueue. rewrite take_drop, Hslots.
  revert Hsorted Hperm. generalize (js_sort compare_items (requestQueue s1)).
  intros sorted Hsorted Hperm.
  split; [exact Hsorted|]. split; [exact Hperm|].
  split; [apply item_le_spec|].
  split; [reflexivity|]. split; [reflexivity|].
  split; [exact (proj1 Hex)|]. split; [exact (proj2 Hex)|]. split; [exact Hnext|].
  split; [|split].
  - intros a b Ha Hb Hnb Hba.
    apply list_elem_of_filter in Ha as [Hna Ha].
    rewrite <- Hperm in Hb.
    destruct (sorted_prefix_before sorted a b _ Hsorted Hb Hba Ha)
      as (l1 & l2 & l3 & ->).
    exists (filter (not_memoized s) l1), (filter (not_memoized s) l2),
      (filter (not_memoized s) l3).
    rewrite filter_app, filter_cons_True by (now rewrite Hnb).
    rewrite filter_app, filter_cons_True by exact Hna. reflexivity.
  - intros a Ha Hna. rewrite <- Hperm, <- (take_drop (Z.to_nat (availableSlots s)) sorted) in Ha.
    apply elem_of_app in Ha as [Ha | Ha]; [left | now right].
    apply list_elem_of_filter. split; [now rewrite Hna | exact Ha].
  - intros a b Hab Hba Hna Hnb.
    assert (Hsb : sorted = [b; a]).
    { rewrite Hab in Hperm. symmetry in Hperm.
      apply Permutation_length_2_inv in Hperm as [-> | ->]; [|reflexivity].
      exfalso. apply StronglySorted_inv in Hsorted as [_ Hall].
      apply Forall_cons in Hall as [Hle _]. now apply (before_not_le a b). }
    subst sorted. case_bool_decide as Hone.
    + rewrite Hone. change (Z.to_nat 1) with 1%nat. cbn [take drop].
      rewrite filter_cons_True by (now rewrite Hnb). rewrite filter_nil. done.
    + assert (Hk : ∃ k, Z.to_nat (availableSlots s) = S (S k)).
      { exists (Z.to_nat (availableSlots s) - 2)%nat. lia. }
      destruct Hk as [k ->]. cbn [take drop]. rewrite take_nil, drop_nil.
      rewrite filter_cons_True by (now rewrite Hnb).
      rewrite filter_cons_True by (now rewrite Hna). rewrite filter_nil. done.
Qed.

Lemma dispatch_by_priority_then_age_witness :
  tick_proceeds 2 two_waiting
  ∧ id <$> executed (processQueue 2 two_waiting) = ["X_{}"; "Y_{}"; "B_{}"]
  ∧ id <$> requestQueue (processQueue 2 two_waiting) = ["A_{}"].
Proof.
  assert (Hgo : tick_proceeds 2 two_waiting).
  { unfold tick_proceeds. vm_compute. repeat split; congruence. }
  split; [exact Hgo|].
  pose proof (dispatch_by_priority_then_age 2 two_waiting Hgo) as H.
  destruct H as (_ & _ & _ & _ & _ & Ha & Hb & _).
  split; [exact Ha | exact Hb].
Defined.

(** ** The bound on the active set *)

Lemma dispatch_active now s r :
  (size (activeRequests (dispatch now s r)) ≤ S (size (activeRequests s)))%nat.
Proof.
  unfold dispatch. simpl. case_bool_decide; simpl.
  - etransitivity; [apply subseteq_size|apply Nat.le_succ_diag_r].
    intros x. rewrite elem_of_difference, elem_of_union. tauto.
  - rewrite size_union_alt, size_singleton.
    assert (size (activeRequests s ∖ {[id r]}) ≤ size (activeRequests s))%nat
      by apply subseteq_size, subseteq_difference_l, reflexivity.
    lia.
Qed.

Lemma dispatch_loop_active now l : ∀ s,
  (size (activeRequests (foldl (dispatch now) s l))
   ≤ size (activeRequests s) + length l)%nat.
Proof.
  induction l as [|r l IH]; intros s; simpl; [lia|].
  etransitivity; [apply IH|]. pose proof (dispatch_active now s r). lia.
Qed.

Lemma requestsToProcess_length s :
  Z.of_nat (length (requestsToProcess s)) ≤ Z.max 0 (availableSlots s).
Proof. unfold requestsToProcess. rewrite length_take. lia. Qed.

(** After any part of the loop of a tick the active set is within the
    ceiling, provided it was when the tick began. *)
Lemma processQueue_loop_active now s l :
  (size (activeRequests s) ≤ Z.to_nat MAX_CONCURRENT_REQUESTS)%nat →
  l `prefix_of` requestsToProcess s →
  (size (activeRequests
     (foldl (dispatch now)
        (set_requestQueue (remainingQueue s) (set_isProcessingQueue true s)) l))
   ≤ Z.to_nat MAX_CONCURRENT_REQUESTS)%nat.
Proof.
  intros Hs Hl. etransitivity; [apply dispatch_loop_active|]. simpl.
  apply prefix_length in Hl. pose proof (requestsToProcess_length s) as Hn.
  unfold availableSlots, MAX_CONCURRENT_REQUESTS in *. lia.
Qed.

Lemma processQueue_active now s :
  (size (activeRequests s) ≤ Z.to_nat MAX_CONCURRENT_REQUESTS)%nat →
  (size (activeRequests (processQueue now s)) ≤ Z.to_nat MAX_CONCURRENT_REQUESTS)%nat.
Proof.
  intros Hs. unfold processQueue.
  destruct (isProcessingQueue s || bool_decide (requestQueue s = [])); [done|].
  assert (Hs1 : (size (activeRequests (snd (isCircuitOpen now s)))
                 ≤ Z.to_nat MAX_CONCURRENT_REQUESTS)%nat).
  { now destruct (isCircuitOpen_state now s) as [-> | ->]. }
  destruct (isCircuitOpen now s) as [[|] s1]; simpl in Hs1; [done|].
  destruct (availableSlots s1 <=? 0); [done|].
  cbn [activeRequests set_isProcessingQueue].
  apply (processQueue_loop_active now s1 (requestsToProcess s1)); [done|].
  reflexivity.
Qed.

(** ** The handlers of a race *)

(** The fields that the handlers of a race leave alone, the promise that
    they settle, and what they do to the active set and the breaker; this
    holds whichever bookkeeping operations raise. *)
Lemma onFulfilled_spec fl r v now s :
  let out := snd ((onFulfilled fl r v now >> onFinally fl r) s) in
  requestQueue out = requestQueue s ∧ inflight out = inflight s
  ∧ executed out = executed s ∧ pendingRequests out = pendingRequests s
  ∧ isProcessingQueue out = isProcessingQueue s
  ∧ promises out = settle_promise (promise r) (Resolved v) (promises s)
  ∧ activeRequests out ⊆ activeRequests s
  ∧ (0 ≤ failureCount s → 0 ≤ failureCount out).
Proof.
  unfold onFulfilled, onFinally, recordSuccess, memo_set, active_delete, resolve,
    guard, settle_promise, try_catch, bind, modify, gets, ret, throw.
  simpl.
  destruct (Z.ltb_spec 0 (failureCount s)), (fl BreakerUpdate), (fl MemoInsert),
    (fl ActiveRemove); simpl;
    destruct (promises s !! promise r) as [[| |]|]; simpl;
    repeat split; solve [reflexivity | lia | apply subseteq_difference_l; reflexivity].
Qed.

Lemma onRejected_spec fl r e now s :
  let out := snd ((onRejected fl r e now >> onFinally fl r) s) in
  requestQueue out = requestQueue s ∧ inflight out = inflight s
  ∧ executed out = executed s ∧ pendingRequests out = pendingRequests s
  ∧ isProcessingQueue out = isProcessingQueue s
  ∧ promises out = settle_promise (promise r) (Rejected e) (promises s)
  ∧ activeRequests out ⊆ activeRequests s
  ∧ (0 ≤ failureCount s → 0 ≤ failureCount out).
Proof.
  unfold onRejected, onFinally, recordFailure, memo_set, active_delete, reject,
    guard, settle_promise, try_catch, bind, modify, gets, ret, throw.
  simpl.
  destruct (fl BreakerUpdate), (fl MemoInsert), (fl ActiveRemove); simpl;
    destruct (promises s !! promise r) as [[| |]|]; simpl;
    repeat split; solve [reflexivity | lia | apply subseteq_difference_l; reflexivity].
Qed.

(** The state after the race of the [i]-th request in flight has ended. *)
Lemma settle_spec i o fl now s r start :
  inflight s !! i = Some (r, start) →
  outcome_due o start now = true →
  let out := settle i o fl now s in
  requestQueue out = requestQueue s
  ∧ inflight out = delete i (inflight s)
  ∧ executed out = executed s
  ∧ isProcessingQueue out = isProcessingQueue s
  ∧ promises out = settle_promise (promise r) (outcome_state o) (promises s)
  ∧ activeRequests out ⊆ activeRequests s
  ∧ (0 ≤ failureCount s → 0 ≤ failureCount out)
  ∧ pendingRequests out
    = (if settled_at (promise r) out
       then delete (id r) (pendingRequests s) else pendingRequests s).
Proof.
  intros Hi Hdue. unfold settle. rewrite Hi.
  set (s1 := set_inflight (delete i (inflight s)) s).
  assert (Hgen : ∀ out st,
    requestQueue out = requestQueue s1 ∧ inflight out = inflight s1
    ∧ executed out = executed s1 ∧ pendingRequests out = pendingRequests s1
    ∧ isProcessingQueue out = isProcessingQueue s1
    ∧ promises out = settle_promise (promise r) st (promises s1)
    ∧ activeRequests out ⊆ activeRequests s1
    ∧ (0 ≤ failureCount s1 → 0 ≤ failureCount out) →
    let res := pendingCleanup r out in
    requestQueue res = requestQueue s
    ∧ inflight res = delete i (inflight s)
    ∧ executed res = executed s
    ∧ isProcessingQueue res = isProcessingQueue s
    ∧ promises res = settle_promise (promise r) st (promises s)
    ∧ activeRequests res ⊆ activeRequests s
    ∧ (0 ≤ failureCount s → 0 ≤ failureCount res)
    ∧ pendingRequests res
      = (if settled_at (promise r) res
         then delete (id r) (pendingRequests s) else pendingRequests s)).
  { intros out st (Hq & Hf & He & Hp & Hflag & Hpr & Ha & Hfc).
    unfold pendingCleanup, settled_at.
    destruct (promises out !! promise r) as [ps|] eqn:Hlook.
    - destruct (settled ps) eqn:Hps; simpl; rewrite ?Hlook, ?Hps; auto 10.
      rewrite Hp. auto 10.
    - simpl. rewrite Hlook. auto 10. }
  destruct o as [v|e|]; simpl in Hdue |- *.
  - apply Hgen, onFulfilled_spec.
  - apply Hgen, onRejected_spec.
  - rewrite Hdue. apply Hgen, onRejected_spec.
Qed.

(** ** Counting the requests of a promise *)

Lemma occ_app p l1 l2 : occ p (l1 ++ l2) = (occ p l1 + occ p l2)%nat.
Proof. unfold occ. now rewrite filter_app, length_app. Qed.

Lemma occ_cons p r l :
  occ p (r :: l) = ((if decide (promise r = p) then 1 else 0) + occ p l)%nat.
Proof. unfold occ. rewrite filter_cons. now destruct (decide (promise r = p)). Qed.

Lemma occ_perm p l1 l2 : l1 ≡ₚ l2 → occ p l1 = occ p l2.
Proof. unfold occ. now intros ->. Qed.

Lemma occ_take_drop p n l : (occ p (take n l) + occ p (drop n l))%nat = occ p l.
Proof. now rewrite <- occ_app, take_drop. Qed.

Lemma occ_filter_le p (P : queueItem → Prop) `{∀ x, Decision (P x)} l :
  (occ p (filter P l) ≤ occ p l)%nat.
Proof.
  induction l as [|r l IH]; [done|].
  rewrite filter_cons.
  destruct (decide (P r)); rewrite ?occ_cons; destruct (decide (promise r = p)); lia.
Qed.

Lemma occ_elem r l : r ∈ l → (1 ≤ occ (promise r) l)%nat.
Proof.
  induction 1 as [r l|r r' l _ IH]; rewrite occ_cons.
  - rewrite decide_True by done. lia.
  - lia.
Qed.

Lemma occ_none p l : (∀ r, r ∈ l → promise r ≠ p) → occ p l = 0%nat.
Proof.
  induction l as [|r l IH]; intros Hl; [done|].
  rewrite occ_cons, decide_False by (apply Hl; left).
  rewrite IH; [done|]. intros r' Hr'. apply Hl. now right.
Qed.

Lemma occ_delete p (l : list (queueItem * Z)) i r start :
  l !! i = Some (r, start) →
  occ p (fst <$> l)
  = (occ p (fst <$> delete i l) + (if decide (promise r = p) then 1 else 0))%nat.
Proof.
  revert i. induction l as [|[r' t'] l IH]; intros [|i] Hi; try done.
  - simpl in Hi. injection Hi as -> ->.
    change (delete 0%nat ((r, start) :: l)) with l.
    rewrite fmap_cons, occ_cons. simpl. lia.
  - simpl in Hi.
    change (delete (S i) ((r', t') :: l)) with ((r', t') :: delete i l).
    rewrite !fmap_cons, !occ_cons, (IH i Hi). simpl. lia.
Qed.

Lemma fst_pair_fmap (now : Z) (l : list queueItem) :
  fst <$> ((λ r, (r, now)) <$> l) = l.
Proof.
  induction l as [|r l IH]; [done|]. rewrite !fmap_cons. simpl. now rewrite IH.
Qed.

(** ** The invariant is kept by every event *)

(** [wf] looks at the queue, the races, the promises, the pending map, the
    log of executions, the active set, the flag and the sign of the failure
    count only. *)
Lemma wf_ext s s' :
  wf s →
  requestQueue s' = requestQueue s → inflight s' = inflight s →
  executed s' = executed s → promises s' = promises s →
  pendingRequests s' = pendingRequests s →
  activeRequests s' ⊆ activeRequests s →
  isProcessingQueue s' = isProcessingQueue s →
  0 ≤ failureCount s' →
  wf s'.
Proof.
  intros [Ha Hfl Hfc Hu Hi He Hx] Hq Hf Hex Hp Hpend Hact Hflag Hfc'.
  assert (Hlive : live s' = live s) by (unfold live; now rewrite Hq, Hf).
  split.
  - etransitivity; [apply subseteq_size, Hact | exact Ha].
  - now rewrite Hflag.
  - exact Hfc'.
  - intros p. rewrite Hlive. apply Hu.
  - intros r. rewrite Hlive, Hp, Hpend. apply Hi.
  - intros r. rewrite Hex, Hp. apply He.
  - intros p. unfold settled_at. rewrite Hex, Hf, Hp. apply Hx.
Qed.

Lemma wf_initial c : wf (initial c).
Proof.
  split.
  - change (activeRequests (initial c)) with (∅ : gset string).
    rewrite size_empty. lia.
  - reflexivity.
  - simpl. lia.
  - intros p. unfold live. simpl. unfold occ. simpl. lia.
  - intros r Hr. unfold live in Hr. simpl in Hr. now apply elem_of_nil in Hr.
  - intros r Hr. simpl in Hr. now apply elem_of_nil in Hr.
  - intros p. reflexivity.
Qed.

Lemma wf_isCircuitOpen now s : wf s → wf (snd (isCircuitOpen now s)).
Proof.
  intros Hwf. destruct (isCircuitOpen_state now s) as [-> | ->]; [done|].
  apply (wf_ext s); done.
Qed.

Lemma wf_status now s : wf s → wf (snd (getQueueStatus now s)).
Proof.
  intros Hwf. unfold getQueueStatus.
  pose proof (wf_isCircuitOpen now s Hwf) as H.
  now destruct (isCircuitOpen now s).
Qed.

Lemma wf_sweep now s : wf s → wf (sweep now s).
Proof. intros Hwf. apply (wf_ext s); try done. apply Hwf. Qed.

Lemma wf_call q v pr now s : wf s → wf (snd (queueSubgraphRequest q v pr now s)).
Proof.
  intros [Ha Hfl Hfc Hu Hi He Hx]. unfold queueSubgraphRequest.
  set (k := getRequestId q v).
  destruct (pendingRequests s !! k) as [p0|] eqn:Hk; [done|]. simpl.
  set (p := length (promises s)).
  set (item := QueueItem k q v p pr now).
  assert (Hold : ∀ r, r ∈ live s → promise r ≠ p ∧ id r ≠ k).
  { intros r Hr. destruct (Hi r Hr) as [Hp Hpend]. split.
    - apply lookup_lt_Some in Hp. unfold p. lia.
    - intros Heq. rewrite Heq in Hpend. congruence. }
  assert (Hlive : live (mkDataService (requestQueue s ++ [item])
             (<[k := p]> (pendingRequests s)) (activeRequests s)
             (processedRequests s) (isProcessingQueue s) (failureCount s)
             (lastFailureTime s) (cacheService s) (promises s ++ [Pending])
             (inflight s) (executed s)) ≡ₚ item :: live s).
  { unfold live. simpl. rewrite <- app_assoc. simpl.
    now rewrite <- Permutation_middle. }
  split; simpl; try done.
  - intros p'. rewrite (occ_perm _ _ _ Hlive), occ_cons. simpl.
    destruct (decide (p = p')) as [<-|Hne]; [|apply Hu].
    rewrite occ_none; [done|]. intros r Hr. now apply Hold.
  - intros r Hr. rewrite Hlive in Hr. apply elem_of_cons in Hr as [-> | Hr]; simpl.
    + split; [|apply lookup_insert_eq].
      rewrite lookup_app_r by done. now rewrite Nat.sub_diag.
    + destruct (Hi r Hr) as [Hp Hpend]. destruct (Hold r Hr) as [_ Hid]. split.
      * now rewrite lookup_app_l by (now apply lookup_lt_Some in Hp).
      * now rewrite lookup_insert_ne.
  - intros r Hr. rewrite length_app. simpl. specialize (He r Hr). lia.
  - intros p'. rewrite Hx. f_equal. unfold settled_at. simpl.
    destruct (decide (p' < length (promises s))%nat) as [Hlt|Hge].
    + now rewrite lookup_app_l.
    + rewrite lookup_app_r by lia. rewrite (lookup_ge_None_2 (promises s)) by lia.
      now destruct (p' - length (promises s))%nat as [|[|]].
Qed.

Lemma processQueue_cases now s :
  processQueue now s = s
  ∨ processQueue now s = snd (isCircuitOpen now s)
  ∨ tick_proceeds now s.
Proof.
  unfold processQueue, tick_proceeds.
  destruct (isProcessingQueue s); [now left|].
  case_bool_decide as Hq; [now left|]. simpl.
  destruct (isCircuitOpen now s) as [[|] s1]; simpl; [now right; left|].
  destruct (Z.leb_spec (availableSlots s1) 0); [now right; left|].
  right; right. auto.
Qed.

(** The fields of the state after a tick that gets to the loop. *)
Lemma processQueue_fields now s :
  tick_proceeds now s →
  let s1 := snd (isCircuitOpen now s) in
  let batch := filter (not_memoized s1) (requestsToProcess s1) in
  let out := processQueue now s in
  requestQueue out = remainingQueue s1
  ∧ inflight out = inflight s1 ++ ((λ r, (r, now)) <$> batch)
  ∧ executed out = executed s1 ++ batch
  ∧ promises out = promises s1
  ∧ pendingRequests out = pendingRequests s1
  ∧ processedRequests out = processedRequests s1
  ∧ failureCount out = failureCount s1
  ∧ isProcessingQueue out = false.
Proof.
  intros Hgo s1 batch out. subst out.
  rewrite (processQueue_proceeds now s Hgo). fold s1.
  set (s3 := set_requestQueue (remainingQueue s1) (set_isProcessingQueue true s1)).
  destruct (dispatch_loop_frame now (requestsToProcess s1) s3)
    as (Hq & Hpend & Hmemo & _ & Hfc & _ & _ & Hp).
  pose proof (dispatch_loop_executed now (requestsToProcess s1) s3) as He.
  pose proof (dispatch_loop_inflight now (requestsToProcess s1) s3) as Hf.
  cbn [requestQueue inflight executed promises pendingRequests processedRequests
       failureCount isProcessingQueue set_isProcessingQueue].
  rewrite Hq, Hpend, Hmemo, Hfc, Hp, He, Hf. subst s3 batch. simpl.
  repeat split; reflexivity.
Qed.

Lemma wf_tick now s : wf s → wf (processQueue now s).
Proof.
  intros Hwf. pose proof (processQueue_active now s (wf_active s Hwf)) as Hact.
  destruct (processQueue_cases now s) as [-> | [-> | Hgo]];
    [done | now apply wf_isCircuitOpen |].
  destruct (processQueue_fields now s Hgo) as (Hq & Hf & He & Hp & Hpend & _ & Hfc & Hflag).
  pose proof (wf_isCircuitOpen now s Hwf) as [_ _ Hfc1 Hu Hi Hex Hx].
  set (s1 := snd (isCircuitOpen now s)) in *.
  set (batch := filter (not_memoized s1) (requestsToProcess s1)) in *.
  set (sorted := js_sort compare_items (requestQueue s1)).
  assert (Hperm : sorted ≡ₚ requestQueue s1) by apply js_sort_perm.
  assert (Hbatch : ∀ r, r ∈ batch → r ∈ requestQueue s1).
  { intros r Hr. apply list_elem_of_filter in Hr as [_ Hr].
    rewrite <- Hperm. exact (sublist_subseteq _ _ (sublist_take _ _) r Hr). }
  assert (Hrest : ∀ r, r ∈ remainingQueue s1 → r ∈ requestQueue s1).
  { intros r Hr. rewrite <- Hperm.
    exact (sublist_subseteq _ _ (sublist_drop _ _) r Hr). }
  assert (Hsplit : ∀ p, (occ p (remainingQueue s1) + occ p batch
                         ≤ occ p (requestQueue s1))%nat).
  { intros p. rewrite <- (occ_perm p _ _ Hperm).
    rewrite <- (occ_take_drop p (Z.to_nat (availableSlots s1)) sorted).
    pose proof (occ_filter_le p (not_memoized s1) (requestsToProcess s1)).
    unfold batch, remainingQueue, requestsToProcess in *. fold sorted in H |- *. lia. }
  assert (Hlive : ∀ r, r ∈ live (processQueue now s) → r ∈ live s1).
  { intros r. unfold live. rewrite Hq, Hf, fmap_app, fst_pair_fmap, !elem_of_app.
    intros [Hr | [Hr | Hr]]; auto. }
  split.
  - exact Hact.
  - exact Hflag.
  - now rewrite Hfc.
  - intros p. specialize (Hu p). specialize (Hsplit p). unfold live in *.
    rewrite Hq, Hf, fmap_app, fst_pair_fmap, !occ_app. rewrite occ_app in Hu. lia.
  - intros r Hr. rewrite Hp, Hpend. apply Hi, Hlive, Hr.
  - intros r. rewrite He, Hp, elem_of_app. intros [Hr | Hr]; [now apply Hex|].
    assert (Hin : r ∈ live s1) by (unfold live; apply elem_of_app; auto).
    apply Hi in Hin as [Hin _]. now apply lookup_lt_Some in Hin.
  - intros p. unfold settled_at. rewrite He, Hf, Hp, fmap_app, fst_pair_fmap, !occ_app.
    specialize (Hx p). unfold settled_at in Hx. lia.
Qed.

Lemma settle_cases i o fl now s :
  settle i o fl now s = s
  ∨ ∃ r start, inflight s !! i = Some (r, start) ∧ outcome_due o start now = true.
Proof.
  unfold settle. destruct (inflight s !! i) as [[r start]|] eqn:Hi; [|now left].
  destruct o as [v|e|]; simpl; try (right; eauto; fail).
  destruct (timer_due start now) eqn:Hdue; [right; eauto | now left].
Qed.

Lemma settled_at_insert (p q : nat) (st : pstate) (ps : list pstate) :
  ps !! q = Some Pending →
  match <[q := st]> ps !! p with Some x => settled x | None => false end
  = if decide (p = q) then settled st
    else match ps !! p with Some x => settled x | None => false end.
Proof.
  intros Hq. destruct (decide (p = q)) as [->|Hne].
  - now rewrite list_lookup_insert_eq by (now apply lookup_lt_Some in Hq).
  - now rewrite list_lookup_insert_ne.
Qed.

Lemma outcome_state_settled o : settled (outcome_state o) = true.
Proof. now destruct o. Qed.

Lemma wf_settle i o fl now s : wf s → wf (settle i o fl now s).
Proof.
  intros Hwf.
  destruct (settle_cases i o fl now s) as [-> | (r & start & Hi & Hdue)]; [done|].
  destruct (settle_spec i o fl now s r start Hi Hdue)
    as (Hq & Hf & He & Hflag & Hp & Hact & Hfc & Hpend).
  destruct Hwf as [Ha Hfl Hfc0 Hu Hit Hex Hx].
  set (out := settle i o fl now s) in *.
  assert (Hr : r ∈ live s).
  { unfold live. apply elem_of_app. right.
    apply (list_elem_of_fmap_2 fst _ (r, start)), list_elem_of_lookup. eauto. }
  destruct (Hit r Hr) as [Hrp Hrk].
  unfold settle_promise in Hp. rewrite Hrp in Hp.
  assert (Hset : settled_at (promise r) out = true).
  { unfold settled_at. rewrite Hp, list_lookup_insert_eq
      by (now apply lookup_lt_Some in Hrp). apply outcome_state_settled. }
  rewrite Hset in Hpend.
  assert (Hocc : ∀ p, occ p (live s)
     = (occ p (live out) + (if decide (promise r = p) then 1 else 0))%nat).
  { intros p. unfold live. rewrite Hq, Hf, !occ_app, (occ_delete p _ i r start Hi). lia. }
  assert (Hlive : ∀ r', r' ∈ live out → r' ∈ live s ∧ promise r' ≠ promise r).
  { intros r' Hr'. split.
    - unfold live in *. rewrite Hq, Hf in Hr'. rewrite elem_of_app in Hr' |- *.
      destruct Hr' as [Hr' | Hr']; [now left|]. right.
      apply list_elem_of_fmap in Hr' as (x & -> & Hx').
      apply list_elem_of_fmap_2. now apply (list_subseteq_delete i).
    - intros Heq. pose proof (occ_elem r' _ Hr') as H1.
      specialize (Hocc (promise r')). specialize (Hu (promise r')).
      rewrite decide_True in Hocc by done. lia. }
  split.
  - etransitivity; [apply subseteq_size, Hact | exact Ha].
  - now rewrite Hflag.
  - now apply Hfc.
  - intros p. specialize (Hocc p). specialize (Hu p). lia.
  - intros r' Hr'. destruct (Hlive r' Hr') as [Hin Hne].
    destruct (Hit r' Hin) as [Hp' Hk']. rewrite Hp, Hpend. split.
    + now rewrite list_lookup_insert_ne.
    + rewrite lookup_delete_ne; [done|]. intros Heq. rewrite Heq in Hrk. congruence.
  - intros r' Hr'. rewrite He in Hr'. rewrite Hp, length_insert. now apply Hex.
  - intros p. rewrite He, Hf. specialize (Hx p).
    rewrite (occ_delete p _ i r start Hi) in Hx. unfold settled_at in *.
    rewrite Hp, (settled_at_insert p (promise r) _ _ Hrp), outcome_state_settled.
    destruct (decide (promise r = p)) as [<-|Hne].
    + rewrite decide_True by done. rewrite Hrp in Hx. simpl in Hx. lia.
    + rewrite decide_False by done. lia.
Qed.

Lemma wf_step s e : wf s → wf (step s e).
Proof.
  destruct e; simpl.
  - apply wf_call.
  - apply wf_tick.
  - apply wf_settle.
  - apply wf_status.
  - apply wf_sweep.
Qed.

Lemma wf_run evs : ∀ s, wf s → wf (run s evs).
Proof.
  induction evs as [|e evs IH]; intros s Hwf; [done|].
  apply IH, wf_step, Hwf.
Qed.

Lemma reachable_wf s : reachable_state s → wf s.
Proof. intros (c & evs & ->). apply wf_run, wf_initial. Qed.

Lemma reachable_run s evs : reachable_state s → reachable_state (run s evs).
Proof.
  intros (c & evs0 & ->). exists c, (evs0 ++ evs). unfold run. now rewrite foldl_app.
Qed.

Lemma isCircuitOpen_slots now s :
  availableSlots (snd (isCircuitOpen now s)) = availableSlots s.
Proof. now destruct (isCircuitOpen_state now s) as [-> | ->]. Qed.

Lemma isCircuitOpen_queue now s :
  requestQueue (snd (isCircuitOpen now s)) = requestQueue s.
Proof. now destruct (isCircuitOpen_state now s) as [-> | ->]. Qed.

(** C5: in every state that the service can reach, the active set holds
    at most [MAX_CONCURRENT_REQUESTS] keys; a tick takes at most
    [MAX_CONCURRENT_REQUESTS] minus the size of the active set entries off
    the queue, and the bound holds after each iteration of its loop as
    well. *)
Theorem active_set_bounded (s : DataService) :
  reachable_state s →
  Z.of_nat (size (activeRequests s)) ≤ MAX_CONCURRENT_REQUESTS
  ∧ (∀ now,
       Z.of_nat (length (requestQueue s))
       - Z.of_nat (length (requestQueue (processQueue now s)))
       ≤ MAX_CONCURRENT_REQUESTS - Z.of_nat (size (activeRequests s)))
  ∧ (∀ now,
       Z.of_nat (size (activeRequests (processQueue now s))) ≤ MAX_CONCURRENT_REQUESTS)
  ∧ (∀ now l, l `prefix_of` requestsToProcess s →
       Z.of_nat (size (activeRequests
         (foldl (dispatch now)
            (set_requestQueue (remainingQueue s) (set_isProcessingQueue true s)) l)))
       ≤ MAX_CONCURRENT_REQUESTS).
Proof.
  intros Hreach. pose proof (reachable_wf s Hreach) as Hwf.
  pose proof (wf_active s Hwf) as Ha.
  split; [unfold MAX_CONCURRENT_REQUESTS in *; lia|]. split; [|split].
  - intros now.
    destruct (processQueue_cases now s) as [-> | [-> | Hgo]].
    + unfold MAX_CONCURRENT_REQUESTS in *. lia.
    + rewrite isCircuitOpen_queue. unfold MAX_CONCURRENT_REQUESTS in *. lia.
    + destruct (processQueue_fields now s Hgo) as (-> & _).
      unfold remainingQueue. rewrite length_drop, isCircuitOpen_slots.
      rewrite (Permutation_length (js_sort_perm compare_items _)), isCircuitOpen_queue.
      unfold availableSlots, MAX_CONCURRENT_REQUESTS in *. lia.
  - intros now. pose proof (processQueue_active now s Ha).
    unfold MAX_CONCURRENT_REQUESTS in *. lia.
  - intros now l Hl. pose proof (processQueue_loop_active now s l Ha Hl).
    unfold MAX_CONCURRENT_REQUESTS in *. lia.
Qed.

Lemma active_set_bounded_witness :
  reachable_state two_waiting
  ∧ Z.of_nat (size (activeRequests two_waiting)) ≤ MAX_CONCURRENT_REQUESTS.
Proof.
  assert (H : reachable_state two_waiting).
  { exists empty_store,
      [Call "X" "{}" 1 0; Call "Y" "{}" 1 0; Tick 0;
       Call "A" "{}" 1 0; Call "B" "{}" 2 1].
    reflexivity. }
  split; [exact H|]. exact (proj1 (active_set_bounded two_waiting H)).
Defined.

(** ** Requests that a tick drops *)

Lemma tick_live now s r : r ∈ live (processQueue now s) → r ∈ live s.
Proof.
  destruct (processQueue_cases now s) as [-> | [-> | Hgo]]; [done | |].
  - now destruct (isCircuitOpen_state now s) as [-> | ->].
  - destruct (processQueue_fields now s Hgo) as (Hq & Hf & _).
    unfold live. rewrite Hq, Hf, fmap_app, fst_pair_fmap, !elem_of_app.
    assert (Hperm : js_sort compare_items (requestQueue s) ≡ₚ requestQueue s)
      by apply js_sort_perm.
    destruct (isCircuitOpen_state now s) as [-> | ->]; simpl;
      unfold remainingQueue, requestsToProcess; simpl;
      (intros [Hr | [Hr | Hr]]; [left | now right | left]); rewrite <- Hperm.
    + exact (sublist_subseteq _ _ (sublist_drop _ _) r Hr).
    + apply list_elem_of_filter in Hr as [_ Hr].
      exact (sublist_subseteq _ _ (sublist_take _ _) r Hr).
    + exact (sublist_subseteq _ _ (sublist_drop _ _) r Hr).
    + apply list_elem_of_filter in Hr as [_ Hr].
      exact (sublist_subseteq _ _ (sublist_take _ _) r Hr).
Qed.

Lemma tick_promises now s : promises (processQueue now s) = promises s.
Proof.
  destruct (processQueue_cases now s) as [-> | [-> | Hgo]]; [done | |].
  - now destruct (isCircuitOpen_state now s) as [-> | ->].
  - destruct (processQueue_fields now s Hgo) as (_ & _ & _ & -> & _).
    now destruct (isCircuitOpen_state now s) as [-> | ->].
Qed.

Lemma tick_executed now s :
  ∃ batch, executed (processQueue now s) = executed s ++ batch
           ∧ ∀ r, r ∈ batch → r ∈ requestQueue s.
Proof.
  destruct (processQueue_cases now s) as [-> | [-> | Hgo]].
  - exists []. rewrite app_nil_r. split; [done|]. intros r Hr. now apply elem_of_nil in Hr.
  - exists []. rewrite app_nil_r. split.
    + now destruct (isCircuitOpen_state now s) as [-> | ->].
    + intros r Hr. now apply elem_of_nil in Hr.
  - destruct (processQueue_fields now s Hgo) as (_ & _ & -> & _).
    eexists. split.
    + f_equal. now destruct (isCircuitOpen_state now s) as [-> | ->].
    + intros r Hr. apply list_elem_of_filter in Hr as [_ Hr].
      unfold requestsToProcess in Hr. rewrite isCircuitOpen_queue in Hr.
      apply (sublist_subseteq _ _ (sublist_take _ _)) in Hr.
      now rewrite (js_sort_perm compare_items (requestQueue s)) in Hr.
Qed.

(** Once no request is left for a pending promise, no event brings one
    back, settles the promise or calls [execute] for it. *)
Lemma abandoned_step p s e :
  abandoned p s →
  abandoned p (step s e) ∧ occ p (executed (step s e)) = occ p (executed s).
Proof.
  intros [Hp Hnone]. destruct e as [q v pr now | now | i o fl now | now | now]; simpl.
  - unfold queueSubgraphRequest.
    destruct (pendingRequests s !! getRequestId q v); [done|]. simpl.
    split; [|done]. split; simpl.
    + now rewrite lookup_app_l by (now apply lookup_lt_Some in Hp).
    + intros r. unfold live. simpl. rewrite <- app_assoc, !elem_of_app.
      intros [Hr | [Hr | Hr]].
      * apply Hnone. unfold live. apply elem_of_app. now left.
      * apply list_elem_of_singleton in Hr as ->. simpl.
        apply lookup_lt_Some in Hp. lia.
      * apply Hnone. unfold live. apply elem_of_app. now right.
  - split; [split|].
    + now rewrite tick_promises.
    + intros r Hr. now apply Hnone, (tick_live now).
    + destruct (tick_executed now s) as (batch & -> & Hb).
      rewrite occ_app, (occ_none p batch); [lia|].
      intros r Hr. apply Hnone. unfold live. apply elem_of_app. left. now apply Hb.
  - destruct (settle_cases i o fl now s) as [-> | (r & start & Hi & Hdue)]; [done|].
    destruct (settle_spec i o fl now s r start Hi Hdue)
      as (Hq & Hf & He & _ & Hpr & _).
    assert (Hr : promise r ≠ p).
    { apply Hnone. unfold live. apply elem_of_app. right.
      apply (list_elem_of_fmap_2 fst _ (r, start)), list_elem_of_lookup. eauto. }
    split; [split|].
    + rewrite Hpr. unfold settle_promise.
      destruct (promises s !! promise r) as [[| |]|]; try done.
      now rewrite list_lookup_insert_ne.
    + intros r'. unfold live. rewrite Hq, Hf, elem_of_app. intros [Hr' | Hr'].
      * apply Hnone. unfold live. apply elem_of_app. now left.
      * apply Hnone. unfold live. apply elem_of_app. right.
        apply list_elem_of_fmap in Hr' as (x & -> & Hx').
        apply list_elem_of_fmap_2. now apply (list_subseteq_delete i).
    + now rewrite He.
  - unfold getQueueStatus.
    destruct (isCircuitOpen_state now s) as [Heq | Heq];
      destruct (isCircuitOpen now s) as [b s1]; simpl in *; subst s1; done.
  - done.
Qed.

Lemma abandoned_run p evs : ∀ s,
  abandoned p s →
  abandoned p (run s evs) ∧ occ p (executed (run s evs)) = occ p (executed s).
Proof.
  induction evs as [|e evs IH]; intros s Hp; [done|].
  destruct (abandoned_step p s e Hp) as [Hp' He].
  destruct (IH (step s e) Hp') as [Hp'' He'].
  split; [exact Hp''|]. simpl. now rewrite He', He.
Qed.

(** Whichever bookkeeping operations raise, the handlers of a race that
    ends settle the promise of its request with the outcome of the race. *)
Lemma race_end_settles_promise i o fl now s r start :
  wf s →
  inflight s !! i = Some (r, start) →
  outcome_due o start now = true →
  promises (settle i o fl now s) !! promise r = Some (outcome_state o).
Proof.
  intros Hwf Hi Hdue.
  destruct (settle_spec i o fl now s r start Hi Hdue) as (_ & _ & _ & _ & -> & _).
  assert (Hr : r ∈ live s).
  { unfold live. apply elem_of_app. right.
    apply (list_elem_of_fmap_2 fst _ (r, start)), list_elem_of_lookup. eauto. }
  destruct (wf_items s Hwf r Hr) as [Hp _].
  unfold settle_promise. rewrite Hp.
  apply list_lookup_insert_eq. now apply lookup_lt_Some in Hp.
Qed.

(** C2: a request whose key is in the memo is taken off the queue by a tick
    and dropped: it is neither executed nor resolved nor rejected. Here a
    request fails and its caller asks again; the new request (promise 1) is
    queued, the tick at 1100 removes it, and whatever happens afterwards the
    promise stays pending and [execute] is never called for it. *)
Theorem dropped_request_never_settles :
  (promise <$> requestQueue retry_queued) = [1%nat]
  ∧ is_Some (processedRequests retry_queued !! "{ avs { id } }_{}")
  ∧ processQueue 1100 retry_queued = retry_after_failure
  ∧ requestQueue retry_after_failure = []
  ∧ inflight retry_after_failure = []
  ∧ pendingRequests retry_after_failure !! "{ avs { id } }_{}" = Some 1%nat
  ∧ ∀ evs,
      promises (run retry_after_failure evs) !! 1%nat = Some Pending
      ∧ occ 1 (executed (run retry_after_failure evs)) = 0%nat.
Proof.
  split; [vm_compute; reflexivity|].
  split; [vm_compute; eauto|].
  split; [vm_compute; reflexivity|].
  split; [vm_compute; reflexivity|].
  split; [vm_compute; reflexivity|].
  split; [vm_compute; reflexivity|].
  intros evs.
  assert (Hab : abandoned 1 retry_after_failure).
  { split; [vm_compute; reflexivity|].
    assert (Hlive : live retry_after_failure = []) by (vm_compute; reflexivity).
    intros r Hr. rewrite Hlive in Hr. now apply elem_of_nil in Hr. }
  destruct (abandoned_run 1 evs _ Hab) as [[Hp _] He].
  split; [exact Hp|]. rewrite He. vm_compute. reflexivity.
Qed.

(** C7 as stated fails: the key of B is in the memo, from a request for B
    that has been fulfilled; A (priority 1, enqueued at 0, promise 3) and B
    (priority 2, enqueued at 1, promise 4) are both pending and one slot is
    free. The tick at 2 takes B, the first of the order, off the queue and
    drops it, executing nothing; the tick at 3 dispatches A; and whatever
    happens afterwards [execute] is never called for B, whose promise stays
    pending: B is not dispatched before A. *)
Theorem memoized_entry_is_not_dispatched_first :
  (λ r, (id r, priority r, timestamp r, promise r)) <$> requestQueue B_memoized
  = [("A_{}", 1, 0, 3%nat); ("B_{}", 2, 1, 4%nat)]
  ∧ is_Some (processedRequests B_memoized !! "B_{}")
  ∧ availableSlots B_memoized = 1
  ∧ tick_proceeds 2 B_memoized
  ∧ executed (processQueue 2 B_memoized) = executed B_memoized
  ∧ promise <$> requestQueue (processQueue 2 B_memoized) = [3%nat]
  ∧ promise <$> executed (run B_memoized [Tick 2; Tick 3]) = [0; 1; 2; 3]%nat
  ∧ ∀ evs,
      promises (run B_memoized (Tick 2 :: evs)) !! 4%nat = Some Pending
      ∧ occ 4 (executed (run B_memoized (Tick 2 :: evs))) = 0%nat.
Proof.
  split; [vm_compute; reflexivity|].
  split; [vm_compute; eauto|].
  split; [vm_compute; reflexivity|].
  split; [unfold tick_proceeds; vm_compute; repeat split; congruence|].
  split; [vm_compute; reflexivity|].
  split; [vm_compute; reflexivity|].
  split; [vm_compute; reflexivity|].
  intros evs. change (run B_memoized (Tick 2 :: evs))
    with (run (processQueue 2 B_memoized) evs).
  assert (Hab : abandoned 4 (processQueue 2 B_memoized)).
  { split; [vm_compute; reflexivity|].
    assert (Hlive : promise <$> live (processQueue 2 B_memoized) = [3; 1; 2]%nat)
      by (vm_compute; reflexivity).
    intros r Hr Hp. apply (list_elem_of_fmap_2 promise) in Hr.
    rewrite Hlive, Hp in Hr. vm_compute in Hr.
    repeat (apply elem_of_cons in Hr as [Hr | Hr]; [discriminate|]).
    now apply elem_of_nil in Hr. }
  destruct (abandoned_run 4 evs _ Hab) as [[Hp _] He].
  split; [exact Hp|]. rewrite He. vm_compute. reflexivity.
Qed.

(** ** A pending entry lasts until its promise is settled *)

Lemma tick_pending now s : pendingRequests (processQueue now s) = pendingRequests s.
Proof.
  destruct (processQueue_cases now s) as [-> | [-> | Hgo]]; [done | |].
  - now destruct (isCircuitOpen_state now s) as [-> | ->].
  - destruct (processQueue_fields now s Hgo) as (_ & _ & _ & _ & -> & _).
    now destruct (isCircuitOpen_state now s) as [-> | ->].
Qed.

Lemma settled_step p s e : settled_at p s = true → settled_at p (step s e) = true.
Proof.
  unfold settled_at. intros Hs.
  destruct (promises s !! p) as [st|] eqn:Hp; [|discriminate].
  destruct e as [q v pr now | now | i o fl now | now | now]; simpl.
  - unfold queueSubgraphRequest.
    destruct (pendingRequests s !! getRequestId q v); simpl; [now rewrite Hp|].
    now rewrite lookup_app_l, Hp by (now apply lookup_lt_Some in Hp).
  - now rewrite tick_promises, Hp.
  - destruct (settle_cases i o fl now s) as [-> | (r & start & Hi & Hdue)];
      [now rewrite Hp|].
    destruct (settle_spec i o fl now s r start Hi Hdue) as (_ & _ & _ & _ & -> & _).
    unfold settle_promise.
    destruct (promises s !! promise r) as [[| |]|] eqn:Hr; rewrite ?Hp; try done.
    destruct (decide (p = promise r)) as [->|Hne].
    + rewrite Hr in Hp. injection Hp as <-. discriminate.
    + now rewrite list_lookup_insert_ne, Hp.
  - unfold getQueueStatus.
    destruct (isCircuitOpen_state now s) as [Heq | Heq];
      destruct (isCircuitOpen now s) as [b s1]; simpl in *; subst s1; simpl;
      now rewrite Hp.
  - now rewrite Hp.
Qed.

Lemma pending_step k p s e :
  wf s →
  pendingRequests s !! k = Some p →
  pendingRequests (step s e) !! k = Some p ∨ settled_at p (step s e) = true.
Proof.
  intros Hwf Hk. destruct e as [q v pr now | now | i o fl now | now | now]; simpl.
  - left. unfold queueSubgraphRequest.
    destruct (pendingRequests s !! getRequestId q v) eqn:Hq; [done|]. simpl.
    rewrite lookup_insert_ne; [done|]. intros Heq. rewrite Heq in Hq. congruence.
  - left. now rewrite tick_pending.
  - destruct (settle_cases i o fl now s) as [-> | (r & start & Hi & Hdue)]; [now left|].
    destruct (settle_spec i o fl now s r start Hi Hdue)
      as (_ & _ & _ & _ & _ & _ & _ & Hpend).
    assert (Hr : r ∈ live s).
    { unfold live. apply elem_of_app. right.
      apply (list_elem_of_fmap_2 fst _ (r, start)), list_elem_of_lookup. eauto. }
    destruct (wf_items s Hwf r Hr) as [_ Hrk].
    destruct (settled_at (promise r) (settle i o fl now s)) eqn:Hset.
    + destruct (decide (id r = k)) as [Heq|Hne].
      * right. rewrite Heq, Hk in Hrk. injection Hrk as ->. exact Hset.
      * left. rewrite Hpend. now rewrite lookup_delete_ne.
    + left. now rewrite Hpend.
  - left. unfold getQueueStatus.
    destruct (isCircuitOpen_state now s) as [Heq | Heq];
      destruct (isCircuitOpen now s) as [b s1]; simpl in *; subst s1; done.
  - now left.
Qed.

Lemma pending_run k p evs : ∀ s,
  wf s →
  pendingRequests s !! k = Some p →
  pendingRequests (run s evs) !! k = Some p ∨ settled_at p (run s evs) = true.
Proof.
  induction evs as [|e evs IH]; intros s Hwf Hk; [now left|]. simpl.
  destruct (pending_step k p s e Hwf Hk) as [Hk' | Hs].
  - apply IH; [now apply wf_step | exact Hk'].
  - right. clear IH Hk. revert Hs. generalize (step s e). clear s Hwf.
    induction evs as [|e' evs IH]; intros s Hs; [done|].
    simpl. apply IH. now apply settled_step.
Qed.

(** ** De-duplication *)

Lemma enqueue_all_run calls : ∀ s,
  snd (enqueue_all calls s) = run s (call_event <$> calls).
Proof.
  induction calls as [|[[[q v] pr] now] calls IH]; intros s; [done|].
  rewrite fmap_cons. simpl.
  destruct (queueSubgraphRequest q v pr now s) as [p s1].
  specialize (IH s1). destruct (enqueue_all calls s1) as [ps s2]. exact IH.
Qed.

(** While the key is pending, a call hands out the stored promise and
    changes nothing. *)
Lemma queueSubgraphRequest_pending q v pr now s p :
  pendingRequests s !! getRequestId q v = Some p →
  queueSubgraphRequest q v pr now s = (p, s).
Proof. intros H. unfold queueSubgraphRequest. now rewrite H. Qed.

(** A call for a key that is not pending makes a promise, a queue entry and
    a pending entry. *)
Lemma queueSubgraphRequest_new q v pr now s :
  pendingRequests s !! getRequestId q v = None →
  let p := length (promises s) in
  let out := snd (queueSubgraphRequest q v pr now s) in
  fst (queueSubgraphRequest q v pr now s) = p
  ∧ requestQueue out = requestQueue s ++ [QueueItem (getRequestId q v) q v p pr now]
  ∧ pendingRequests out !! getRequestId q v = Some p
  ∧ promises out !! p = Some Pending.
Proof.
  intros H. unfold queueSubgraphRequest. rewrite H. simpl.
  repeat split; [apply lookup_insert_eq|].
  rewrite lookup_app_r by done. now rewrite Nat.sub_diag.
Qed.

Lemma enqueue_all_pending calls k p : ∀ s,
  (∀ c, c ∈ calls → call_key c = k) →
  pendingRequests s !! k = Some p →
  enqueue_all calls s = (replicate (length calls) p, s).
Proof.
  induction calls as [|[[[q v] pr] now] calls IH]; intros s Hk Hp; [done|].
  assert (Hq : getRequestId q v = k) by (apply (Hk (q, v, pr, now)); left).
  simpl. rewrite (queueSubgraphRequest_pending q v pr now s p) by now rewrite Hq.
  rewrite IH; [done | | done]. intros c Hc. apply Hk. now right.
Qed.

(** In a reachable state [execute] has been called for a promise once if
    its request is in flight or it is settled, and not at all otherwise. *)
Lemma executed_once s p :
  wf s →
  occ p (executed s)
  = (occ p (fst <$> inflight s) + (if settled_at p s then 1 else 0))%nat
  ∧ (occ p (executed s) ≤ 1)%nat
  ∧ (settled_at p s = true → occ p (executed s) = 1%nat).
Proof.
  intros Hwf. pose proof (wf_execs s Hwf p) as Hx.
  pose proof (wf_unique s Hwf p) as Hu. unfold live in Hu. rewrite occ_app in Hu.
  split; [exact Hx|].
  destruct (settled_at p s) eqn:Hs.
  - assert (H0 : occ p (fst <$> inflight s) = 0%nat).
    { apply occ_none. intros r Hr Heq.
      assert (Hin : r ∈ live s) by (unfold live; apply elem_of_app; now right).
      destruct (wf_items s Hwf r Hin) as [Hp _].
      unfold settled_at in Hs. rewrite <- Heq, Hp in Hs. discriminate. }
    split; [lia|]. intros _. lia.
  - split; [lia|]. discriminate.
Qed.

(** C1, as the code has it: calls that share a key and come one after the
    other get one and the same promise, stored as the pending promise of the
    key; if the key was pending already nothing changes, otherwise exactly
    one entry is added to the queue, by the first call; whatever happens
    next, as long as that promise is not settled a further call for the key
    gets the same promise and changes nothing; in every later state
    [execute] has been called for that promise at most once, and exactly
    once if the promise is settled; a request whose key is in the memo when
    the tick takes it is dropped without a call of [execute], any other is
    executed once. *)
Theorem dedup_one_entry_one_execution (s : DataService) (calls : list call) (k : string) :
  reachable_state s →
  calls ≠ [] →
  (∀ c, c ∈ calls → call_key c = k) →
  ∃ p,
    fst (enqueue_all calls s) = replicate (length calls) p
    ∧ pendingRequests (snd (enqueue_all calls s)) !! k = Some p
    ∧ (∀ p0, pendingRequests s !! k = Some p0 →
         p = p0 ∧ snd (enqueue_all calls s) = s)
    ∧ (pendingRequests s !! k = None →
         ∃ item, id item = k ∧ promise item = p
                 ∧ requestQueue (snd (enqueue_all calls s)) = requestQueue s ++ [item])
    ∧ (∀ evs q v pr now,
         let s' := run (snd (enqueue_all calls s)) evs in
         getRequestId q v = k →
         settled_at p s' = false →
         queueSubgraphRequest q v pr now s' = (p, s'))
    ∧ (∀ evs, let s' := run (snd (enqueue_all calls s)) evs in
         (occ p (executed s') ≤ 1)%nat
         ∧ (settled_at p s' = true → occ p (executed s') = 1%nat))
    ∧ (∀ now st r,
         executed (dispatch now st r)
         = executed st ++ (if not_memoized st r then [r] else [])).
Proof.
  intros Hreach Hne Hk.
  assert (Hwf : wf (snd (enqueue_all calls s))).
  { rewrite enqueue_all_run. apply wf_run, reachable_wf, Hreach. }
  assert (Hcore : ∃ p,
    fst (enqueue_all calls s) = replicate (length calls) p
    ∧ pendingRequests (snd (enqueue_all calls s)) !! k = Some p
    ∧ (∀ p0, pendingRequests s !! k = Some p0 →
         p = p0 ∧ snd (enqueue_all calls s) = s)
    ∧ (pendingRequests s !! k = None →
         ∃ item, id item = k ∧ promise item = p
                 ∧ requestQueue (snd (enqueue_all calls s)) = requestQueue s ++ [item])).
  { clear Hwf. destruct calls as [|[[[q v] pr] now] rest]; [done|]. clear Hne.
    assert (Hq : getRequestId q v = k) by (apply (Hk (q, v, pr, now)); left).
    assert (Hrest : ∀ c, c ∈ rest → call_key c = k)
      by (intros c Hc; apply Hk; now right).
    destruct (pendingRequests s !! k) as [p0|] eqn:Hpend.
    - exists p0. rewrite (enqueue_all_pending _ k p0 s Hk Hpend). simpl.
      split; [done|]. split; [done|]. split; [intros ? [= <-]; done | done].
    - rewrite <- Hq in Hpend.
      destruct (queueSubgraphRequest_new q v pr now s Hpend) as (Hp & Hqueue & Hnew & _).
      exists (length (promises s)). simpl.
      destruct (queueSubgraphRequest q v pr now s) as [p s1]. simpl in Hp, Hqueue, Hnew.
      subst p. rewrite Hq in Hnew.
      rewrite (enqueue_all_pending rest k _ s1 Hrest Hnew). simpl.
      split; [done|]. split; [done|]. split; [rewrite Hq in Hpend; congruence|].
      intros _. eexists. split; [|split; [|exact Hqueue]]; [exact Hq | reflexivity]. }
  destruct Hcore as (p & H1 & H2 & H3 & H4). exists p.
  split; [exact H1|]. split; [exact H2|]. split; [exact H3|]. split; [exact H4|].
  split; [|split].
  - intros evs q v pr now s' Hq Hns.
    apply queueSubgraphRequest_pending. rewrite Hq.
    destruct (pending_run k p evs _ Hwf H2) as [Hp | Hs]; [exact Hp|].
    subst s'. congruence.
  - intros evs s'. pose proof (wf_run evs _ Hwf) as Hwf'.
    now destruct (executed_once s' p Hwf') as (_ & ? & ?).
  - intros. apply dispatch_executed.
Qed.

Lemma dedup_one_entry_one_execution_witness :
  reachable_state after_timeout
  ∧ two_callers ≠ []
  ∧ (∀ c, c ∈ two_callers → call_key c = "{ operators { id } }_{}")
  ∧ ∃ p, fst (enqueue_all two_callers after_timeout)
         = replicate (length two_callers) p.
Proof.
  assert (H1 : reachable_state after_timeout).
  { exists empty_store,
      [Call "{ operators { id } }" "{}" 1 0; Tick 100;
       Settle 0 TimedOut no_faults 250100].
    reflexivity. }
  assert (H2 : two_callers ≠ []) by discriminate.
  assert (H3 : ∀ c, c ∈ two_callers → call_key c = "{ operators { id } }_{}").
  { intros c Hc. unfold two_callers in Hc.
    apply elem_of_cons in Hc as [-> | Hc]; [vm_compute; reflexivity|].
    apply list_elem_of_singleton in Hc as ->. vm_compute. reflexivity. }
  split; [exact H1|]. split; [exact H2|]. split; [exact H3|].
  destruct (dedup_one_entry_one_execution after_timeout two_callers _ H1 H2 H3)
    as (p & Hp & _).
  exists p. exact Hp.
Defined.

(** C1 as stated fails: after a request has timed out its key is in the
    memo; two callers then ask for it at once and share promise 1 and one
    queue entry; the tick takes the entry off the queue, and from then on
    no execution ever calls [execute] for it or settles the promise. *)
Lemma dedup_memoized_key_never_executes :
  fst (enqueue_all two_callers after_timeout) = [1; 1]%nat
  ∧ (promise <$> requestQueue (snd (enqueue_all two_callers after_timeout))) = [1%nat]
  ∧ requestQueue after_timeout_retried = []
  ∧ ¬ ∃ evs,
        occ 1 (executed (run after_timeout_retried evs)) = 1%nat
        ∨ settled_at 1 (run after_timeout_retried evs) = true.
Proof.
  split; [vm_compute; reflexivity|].
  split; [vm_compute; reflexivity|].
  split; [vm_compute; reflexivity|].
  intros (evs & Hevs).
  assert (Hab : abandoned 1 after_timeout_retried).
  { split; [vm_compute; reflexivity|].
    assert (Hlive : live after_timeout_retried = []) by (vm_compute; reflexivity).
    intros r Hr. rewrite Hlive in Hr. now apply elem_of_nil in Hr. }
  destruct (abandoned_run 1 evs _ Hab) as [[Hp _] He].
  assert (H0 : occ 1 (executed after_timeout_retried) = 0%nat) by (vm_compute; reflexivity).
  destruct Hevs as [Hone | Hset].
  - rewrite He, H0 in Hone. inversion Hone.
  - unfold settled_at in Hset. rewrite Hp in Hset. inversion Hset.
Qed.

(** ** The cache *)


(** What [RedisCacheService.get] makes of the answer of the store. *)
Lemma RedisCacheService_get_store now key s v :
  store_get now (cacheService s) key = Ret v →
  RedisCacheService_get now key s = (Ret (js_or v JNull), s).
Proof.
  intros Hv. unfold RedisCacheService_get, try_catch. now rewrite Hv.
Qed.

(** [get] never answers a falsy value other than [null]. *)
Lemma RedisCacheService_get_truthy now key s v :
  fst (RedisCacheService_get now key s) = Ret v → v = JNull ∨ truthy v = true.
Proof.
  unfold RedisCacheService_get, try_catch, throw, js_or.
  destruct (store_get now (cacheService s) key) as [d|e]; simpl; [|discriminate].
  destruct (truthy d) eqn:Hd; intros [= <-]; auto.
Qed.

Lemma truthy_not_null v : truthy v = true → not_null v = true.
Proof. intros Hv. unfold not_null. apply bool_decide_eq_true. now intros ->. Qed.

Lemma cachedQuery_unfold cacheKey queryFn ttl t1 t2 :
  cachedQuery cacheKey queryFn ttl t1 t2
  = try_catch
      (let! cached := lift (RedisCacheService_get t1 cacheKey) in
       if not_null cached then ret cached
       else queryAndStore cacheKey queryFn ttl t2)
      (staleFallback cacheKey t2).
Proof. reflexivity. Qed.

(** A hit: the cached value is returned and nothing else happens. *)
Lemma cachedQuery_hit cacheKey queryFn ttl t1 t2 s n v :
  RedisCacheService_get t1 cacheKey s = (Ret v, s) →
  not_null v = true →
  cachedQuery cacheKey queryFn ttl t1 t2 (s, n) = (Ret v, (s, n)).
Proof.
  intros Hget Hv. rewrite cachedQuery_unfold.
  unfold try_catch, bind, lift. rewrite Hget, Hv. reflexivity.
Qed.

(** A miss: [queryFn] is called. *)
Lemma cachedQuery_miss cacheKey queryFn ttl t1 t2 s n :
  RedisCacheService_get t1 cacheKey s = (Ret JNull, s) →
  cachedQuery cacheKey queryFn ttl t1 t2 (s, n)
  = try_catch (queryAndStore cacheKey queryFn ttl t2) (staleFallback cacheKey t2) (s, n).
Proof.
  intros Hget. rewrite cachedQuery_unfold.
  unfold try_catch, bind, lift. rewrite Hget. reflexivity.
Qed.






(** C8, as the code has it: while the store answers, for a key, a value
    that is truthy (an entry that has not expired), [cachedQuery] returns
    that value and leaves the service and the count of calls of [queryFn]
    as they were; so do two calls in a row. *)
Theorem fresh_truthy_entry_is_served_from_cache (s : DataService) (key : string)
    (v : jsval) (queryFn queryFn' : M DataService jsval)
    (ttl ttl' t1 t2 t1' t2' : Z) (n : nat) :
  store_get t1 (cacheService s) key = Ret v →
  store_get t1' (cacheService s) key = Ret v →
  truthy v = true →
  cachedQuery key queryFn ttl t1 t2 (s, n) = (Ret v, (s, n))
  ∧ cachedQuery key queryFn' ttl' t1' t2'
      (snd (cachedQuery key queryFn ttl t1 t2 (s, n))) = (Ret v, (s, n)).
Proof.
  intros He He' Hv.
  assert (Hhit : ∀ t qf l t', store_get t (cacheService s) key = Ret v →
            cachedQuery key qf l t t' (s, n) = (Ret v, (s, n))).
  { intros t qf l t' Hst. apply cachedQuery_hit; [|now apply truthy_not_null].
    rewrite (RedisCacheService_get_store t key s v Hst). unfold js_or. now rewrite Hv. }
  rewrite (Hhit t1 queryFn ttl t2 He). simpl. split; [done|]. now apply Hhit.
Qed.

Lemma fresh_truthy_entry_is_served_from_cache_witness :
  store_get 10 object_entry "ops" = Ret (JObj 1)
  ∧ store_get 30 object_entry "ops" = Ret (JObj 1)
  ∧ truthy (JObj 1) = true
  ∧ cachedQuery "ops" failing_query 300 10 20 (initial object_entry, 0%nat)
    = (Ret (JObj 1), (initial object_entry, 0%nat)).
Proof.
  assert (H1 : store_get 10 (cacheService (initial object_entry)) "ops" = Ret (JObj 1))
    by (vm_compute; reflexivity).
  assert (H2 : store_get 30 (cacheService (initial object_entry)) "ops" = Ret (JObj 1))
    by (vm_compute; reflexivity).
  assert (H3 : truthy (JObj 1) = true) by reflexivity.
  split; [exact H1|]. split; [exact H2|]. split; [exact H3|].
  exact (proj1 (fresh_truthy_entry_is_served_from_cache (initial object_entry) "ops"
    (JObj 1) failing_query zero_query 300 300 10 20 30 40 0 H1 H2 H3)).
Defined.

(** C8 as stated fails: the key "count" holds the number 0, not expired;
    two calls of [cachedQuery] in a row both call [queryFn]. *)
Lemma fresh_falsy_entry_queries_twice :
  store_get 10 (cacheService zero_cached) "count" = Ret (JNum 0)
  ∧ store_get 30
      (cacheService (fst (snd (cachedQuery "count" zero_query 300 10 20 (zero_cached, 0%nat)))))
      "count" = Ret (JNum 0)
  ∧ snd (snd (cachedQuery "count" zero_query 300 10 20 (zero_cached, 0%nat))) = 1%nat
  ∧ snd (snd (cachedQuery "count" zero_query 300 30 40
         (snd (cachedQuery "count" zero_query 300 10 20 (zero_cached, 0%nat))))) = 2%nat.
Proof. repeat split; vm_compute; reflexivity. Qed.

(** A miss stays a miss as time passes, while the store is not written. *)
Lemma RedisCacheService_get_miss_later t1 t2 key s s' :
  RedisCacheService_get t1 key s = (Ret JNull, s) →
  cacheService s' = cacheService s →
  t1 ≤ t2 →
  fst (RedisCacheService_get t2 key s') = Ret JNull.
Proof.
  unfold RedisCacheService_get, try_catch, throw, store_get, js_or.
  intros Hget -> Hle. destruct (reachable (cacheService s)); [|discriminate].
  destruct (entries (cacheService s) !! key) as [[v exp]|]; [|done].
  destruct (Z.ltb_spec t2 exp); [|done].
  destruct (Z.ltb_spec t1 exp); [|lia].
  simpl in *. destruct (truthy v); [|done]. now injection Hget as ->.
Qed.

(** When [queryFn] has been called and fails, and the store has not been
    written meanwhile, the fallback finds what the first read found,
    nothing, and the failure of [queryFn] is raised as it is. *)
Lemma stale_fallback_never_serves (s s' : DataService) (key : string)
    (queryFn : M DataService jsval) (ttl t1 t2 : Z) (n : nat) (e : jsval) :
  RedisCacheService_get t1 key s = (Ret JNull, s) →
  queryFn s = (Throw e, s') →
  cacheService s' = cacheService s →
  t1 ≤ t2 →
  fst (cachedQuery key queryFn ttl t1 t2 (s, n)) = Throw e.
Proof.
  intros Hget Hq Hc Hle. rewrite (cachedQuery_miss _ _ _ _ _ _ _ Hget).
  unfold try_catch, queryAndStore, bind, invoke. rewrite Hq.
  unfold staleFallback, bind, try_catch, lift, total, ret, throw.
  assert (Hc1 : cacheService (snd (isCircuitOpen t2 s')) = cacheService s).
  { now destruct (isCircuitOpen_state t2 s') as [-> | ->]. }
  destruct (isCircuitOpen t2 s') as [[|] s1]; [|done]. simpl in Hc1.
  pose proof (RedisCacheService_get_miss_later t1 t2 key s s1 Hget Hc1 Hle) as Hmiss.
  destruct (RedisCacheService_get t2 key s1) as [[d|e'] s2]; simpl in Hmiss; [|done].
  injection Hmiss as ->. reflexivity.
Qed.

(** When [queryFn] has been called and fails, [cachedQuery] either raises
    that very failure or, the breaker being open, returns the value, not
    [null], that the second read of the cache answers; nothing else is put
    in its place. *)
Lemma failure_raised_or_cached_value (s s' : DataService) (key : string)
    (queryFn : M DataService jsval) (ttl t1 t2 : Z) (n : nat) (e : jsval) :
  RedisCacheService_get t1 key s = (Ret JNull, s) →
  queryFn s = (Throw e, s') →
  fst (cachedQuery key queryFn ttl t1 t2 (s, n)) = Throw e
  ∨ ∃ v, fst (cachedQuery key queryFn ttl t1 t2 (s, n)) = Ret v
         ∧ fst (isCircuitOpen t2 s') = true
         ∧ fst (RedisCacheService_get t2 key s') = Ret v
         ∧ v ≠ JNull.
Proof.
  intros Hget Hq. rewrite (cachedQuery_miss _ _ _ _ _ _ _ Hget).
  unfold try_catch, queryAndStore, bind, invoke. rewrite Hq.
  unfold staleFallback, bind, try_catch, lift, total, ret, throw.
  pose proof (isCircuitOpen_true_pure t2 s') as Hpure.
  destruct (isCircuitOpen t2 s') as [[|] s1]; [|now left]. simpl in Hpure.
  rewrite (Hpure eq_refl).
  destruct (RedisCacheService_get t2 key s') as [[d|e'] s2]; [|now left].
  unfold not_null. case_bool_decide as Hd; [|now left].
  right. exists d. simpl. auto.
Qed.

(** C4: the breaker is open, the store holds an entry for "k" that expired
    at 500; [cachedQuery] at 1000 misses, [queryFn] fails, the fallback at
    2000 reads the store with the same [get] and finds nothing: the failure
    is raised, the expired value is not returned. *)
Theorem expired_entry_is_not_served :
  entries (cacheService degraded) !! "k" = Some (JObj 7, 500)
  ∧ fst (isCircuitOpen 2000 degraded) = true
  ∧ fst (cachedQuery "k" failing_query 300 1000 2000 (degraded, 0%nat))
    = Throw upstream_error
  ∧ fst (cachedQuery "k" failing_query 300 1000 2000 (degraded, 0%nat))
    ≠ Ret (JObj 7).
Proof. repeat split; vm_compute; (reflexivity || discriminate). Qed.

(** * Further properties of the request management *)

(** ** The requests in flight and the active set *)

Lemma occ_zero_not_elem p l : occ p l = 0%nat → p ∉ promise <$> l.
Proof.
  intros H0 Hin. apply list_elem_of_fmap in Hin as (r & -> & Hr).
  pose proof (occ_elem r l Hr). lia.
Qed.

Lemma occ_NoDup l : (∀ p, (occ p l ≤ 1)%nat) → NoDup (promise <$> l).
Proof.
  induction l as [|r l IH]; intros Hl; [constructor|].
  rewrite fmap_cons. constructor.
  - apply occ_zero_not_elem. specialize (Hl (promise r)).
    rewrite occ_cons, decide_True in Hl by done. lia.
  - apply IH. intros p. specialize (Hl p). rewrite occ_cons in Hl. lia.
Qed.

Lemma NoDup_fmap_elem_inj {A B} (f : A → B) (l : list A) x y :
  NoDup (f <$> l) → x ∈ l → y ∈ l → f x = f y → x = y.
Proof.
  induction l as [|a l IH]; intros Hnd Hx Hy Hf; [now apply elem_of_nil in Hx|].
  rewrite fmap_cons in Hnd. apply NoDup_cons in Hnd as [Ha Hnd].
  apply elem_of_cons in Hx as [-> | Hx]; apply elem_of_cons in Hy as [-> | Hy].
  - done.
  - exfalso. apply Ha. rewrite Hf. now apply list_elem_of_fmap_2.
  - exfalso. apply Ha. rewrite <- Hf. now apply list_elem_of_fmap_2.
  - now apply IH.
Qed.

(** The requests that wait or are in flight have pairwise distinct keys. *)
Lemma live_ids_NoDup s : wf s → NoDup (id <$> live s).
Proof.
  intros Hwf.
  assert (Hp : NoDup (promise <$> live s)) by apply occ_NoDup, Hwf.
  apply NoDup_fmap_2_strong; [|now apply NoDup_fmap_1 in Hp].
  intros x y Hx Hy Hid. apply (NoDup_fmap_elem_inj promise (live s)); try done.
  destruct (wf_items s Hwf x Hx) as [_ Hkx].
  destruct (wf_items s Hwf y Hy) as [_ Hky].
  rewrite Hid in Hkx. congruence.
Qed.

(** What the handlers of a race do to the active set. *)
Lemma onFulfilled_active fl r v now s :
  activeRequests (snd ((onFulfilled fl r v now >> onFinally fl r) s))
  = if fl ActiveRemove then activeRequests s else activeRequests s ∖ {[id r]}.
Proof.
  unfold onFulfilled, onFinally, recordSuccess, memo_set, active_delete, resolve,
    guard, try_catch, bind, modify, gets, ret, throw.
  simpl.
  destruct (Z.ltb_spec 0 (failureCount s)), (fl BreakerUpdate), (fl MemoInsert),
    (fl ActiveRemove); simpl;
    destruct (promises s !! promise r) as [[| |]|]; reflexivity.
Qed.

Lemma onRejected_active fl r e now s :
  activeRequests (snd ((onRejected fl r e now >> onFinally fl r) s))
  = if fl ActiveRemove then activeRequests s else activeRequests s ∖ {[id r]}.
Proof.
  unfold onRejected, onFinally, recordFailure, memo_set, active_delete, reject,
    guard, try_catch, bind, modify, gets, ret, throw.
  simpl.
  destruct (fl BreakerUpdate), (fl MemoInsert), (fl ActiveRemove); simpl;
    destruct (promises s !! promise r) as [[| |]|]; reflexivity.
Qed.

Lemma pendingCleanup_active r s :
  activeRequests (pendingCleanup r s) = activeRequests s.
Proof.
  unfold pendingCleanup. destruct (promises s !! promise r) as [st|]; [|done].
  now destruct (settled st).
Qed.

Lemma settle_active i o fl now s r start :
  inflight s !! i = Some (r, start) →
  outcome_due o start now = true →
  activeRequests (settle i o fl now s)
  = if fl ActiveRemove then activeRequests s else activeRequests s ∖ {[id r]}.
Proof.
  intros Hi Hdue. unfold settle. rewrite Hi.
  destruct o as [v|e|]; simpl in Hdue |- *; rewrite ?Hdue, pendingCleanup_active.
  - now rewrite onFulfilled_active.
  - now rewrite onRejected_active.
  - now rewrite onRejected_active.
Qed.

Lemma dispatch_flying now s r :
  flying_ids (dispatch now s r)
  = flying_ids s ++ (if not_memoized s r then [id r] else []).
Proof.
  unfold flying_ids. rewrite dispatch_inflight, !fmap_app.
  now destruct (not_memoized s r).
Qed.

Lemma dispatch_active_set now s r :
  activeRequests (dispatch now s r)
  = if not_memoized s r then {[id r]} ∪ activeRequests s
    else ({[id r]} ∪ activeRequests s) ∖ {[id r]}.
Proof.
  unfold dispatch, not_memoized. simpl.
  destruct (processedRequests s !! id r) as [m|] eqn:Hm.
  - rewrite bool_decide_true by eauto. now rewrite bool_decide_false by done.
  - rewrite bool_decide_false by (intros [? ?]; done).
    now rewrite bool_decide_true by done.
Qed.


Lemma dispatch_exact now s r :
  id r ∉ flying_ids s → exact s → exact (dispatch now s r).
Proof.
  unfold exact. intros Hr He. rewrite dispatch_flying, dispatch_active_set, He.
  apply set_eq. intros k. destruct (not_memoized s r).
  - rewrite list_to_set_app_L, !elem_of_union, elem_of_singleton,
      !elem_of_list_to_set, list_elem_of_singleton. tauto.
  - rewrite app_nil_r, elem_of_difference, elem_of_union, elem_of_singleton,
      !elem_of_list_to_set. split; [tauto|]. intros Hk. split; [tauto|]. now intros ->.
Qed.

Section DispatchLoop.
Variable P : DataService → Prop.
Variable now : Z.
Hypothesis P_dispatch : ∀ s r, id r ∉ flying_ids s → P s → P (dispatch now s r).

Lemma dispatch_loop_keeps l : ∀ s,
  NoDup (id <$> l) →
  (∀ r, r ∈ l → id r ∉ flying_ids s) →
  P s → P (foldl (dispatch now) s l).
Proof.
  induction l as [|r l IH]; intros s Hnd Hfresh HP; [done|].
  rewrite fmap_cons in Hnd. apply NoDup_cons in Hnd as [Hr Hnd]. simpl.
  apply IH; [done | | apply P_dispatch; [apply Hfresh; left | done]].
  intros r' Hr'. rewrite dispatch_flying, elem_of_app. intros [Hin | Hin].
  - revert Hin. apply Hfresh. now right.
  - destruct (not_memoized s r); [|now apply elem_of_nil in Hin].
    apply list_elem_of_singleton in Hin. apply Hr. rewrite <- Hin.
    now apply list_elem_of_fmap_2.
Qed.
End DispatchLoop.

(** A property of the races and the active set alone that [dispatch] and
    the end of a race keep is kept by every event. *)
Lemma tick_keeps (P : DataService → Prop) now s :
  (∀ s s', inflight s' = inflight s → activeRequests s' = activeRequests s → P s → P s') →
  (∀ s r, id r ∉ flying_ids s → P s → P (dispatch now s r)) →
  wf s → P s → P (processQueue now s).
Proof.
  intros Hext Hd Hwf HP.
  destruct (processQueue_cases now s) as [-> | [-> | Hgo]]; [done | |].
  - apply (Hext s); [| |done]; now destruct (isCircuitOpen_state now s) as [-> | ->].
  - rewrite (processQueue_proceeds now s Hgo).
    pose proof (wf_isCircuitOpen now s Hwf) as Hwf1.
    set (s1 := snd (isCircuitOpen now s)) in *.
    assert (HP1 : P s1).
    { apply (Hext s); [| |done]; subst s1;
        now destruct (isCircuitOpen_state now s) as [-> | ->]. }
    pose proof (live_ids_NoDup s1 Hwf1) as Hnd.
    unfold live in Hnd. rewrite fmap_app in Hnd.
    apply NoDup_app in Hnd as (Hq & Hdisj & _).
    assert (Hperm : js_sort compare_items (requestQueue s1) ≡ₚ requestQueue s1)
      by apply js_sort_perm.
    set (s3 := set_requestQueue (remainingQueue s1) (set_isProcessingQueue true s1)).
    eapply (Hext (foldl (dispatch now) s3 (requestsToProcess s1))); [done | done |].
    apply dispatch_loop_keeps; [exact Hd | | |].
    + eapply sublist_NoDup; [|apply fmap_sublist, sublist_take].
      now rewrite Hperm.
    + intros r Hr. apply Hdisj. apply list_elem_of_fmap_2. rewrite <- Hperm.
      exact (sublist_subseteq _ _ (sublist_take _ _) r Hr).
    + now apply (Hext s1).
Qed.

Lemma delete_flying (l : list (queueItem * Z)) i r start :
  l !! i = Some (r, start) →
  ∃ l1 l2, id <$> (fst <$> l) = l1 ++ id r :: l2
           ∧ id <$> (fst <$> delete i l) = l1 ++ l2.
Proof.
  intros Hi. exists (id <$> (fst <$> take i l)), (id <$> (fst <$> drop (S i) l)).
  rewrite delete_take_drop. rewrite <- (take_drop_middle l i (r, start) Hi) at 1.
  now rewrite !fmap_app, !fmap_cons.
Qed.


Lemma exact_step s e : wf s → delete_succeeds e → exact s → exact (step s e).
Proof.
  intros Hwf Hok He. destruct e as [q v pr now | now | i o fl now | now | now]; simpl.
  - unfold queueSubgraphRequest.
    now destruct (pendingRequests s !! getRequestId q v).
  - apply tick_keeps; try done.
    + unfold exact, flying_ids. now intros s0 s' -> ->.
    + apply dispatch_exact.
  - destruct (settle_cases i o fl now s) as [-> | (r & start & Hi & Hdue)]; [done|].
    destruct (settle_spec i o fl now s r start Hi Hdue) as (_ & Hf & _).
    pose proof (settle_active i o fl now s r start Hi Hdue) as Ha.
    simpl in Hok. rewrite Hok in Ha.
    pose proof (live_ids_NoDup s Hwf) as Hnd.
    unfold live in Hnd. rewrite fmap_app in Hnd. apply NoDup_app in Hnd as (_ & _ & Hnd).
    destruct (delete_flying (inflight s) i r start Hi) as (l1 & l2 & H1 & H2).
    rewrite H1 in Hnd. apply NoDup_app in Hnd as (_ & Hl1 & Hnd).
    apply NoDup_cons in Hnd as [Hl2 _].
    unfold exact in *. unfold flying_ids in *. rewrite Hf, H2, Ha, He, H1.
    apply set_eq. intros k.
    rewrite elem_of_difference, !elem_of_list_to_set, !elem_of_app, elem_of_cons,
      elem_of_singleton.
    split; [tauto|]. intros Hk. split; [tauto|]. intros ->.
    destruct Hk as [Hk | Hk]; [|done]. apply (Hl1 (id r) Hk). now left.
  - unfold getQueueStatus.
    destruct (isCircuitOpen_state now s) as [Heq | Heq];
      destruct (isCircuitOpen now s) as [b s1]; simpl in *; subst s1; done.
  - done.
Qed.


Lemma exact_run evs : ∀ s,
  Forall delete_succeeds evs → wf s → exact s → exact (run s evs).
Proof.
  induction evs as [|e evs IH]; intros s Hok Hwf He; [done|].
  apply Forall_cons in Hok as [Hok Hoks].
  apply IH; [done | now apply wf_step | now apply exact_step].
Qed.

Lemma reachable_two_waiting : reachable_state two_waiting.
Proof.
  exists empty_store,
    [Call "X" "{}" 1 0; Call "Y" "{}" 1 0; Tick 0;
     Call "A" "{}" 1 0; Call "B" "{}" 2 1].
  reflexivity.
Defined.



(** X2: as long as no removal from the active set raises, the active set
    is exactly the set of the keys of the requests in flight: its size is
    the number of races in flight, and no key that waits in the queue is
    active. *)
Theorem active_set_is_the_set_in_flight (c : cacheStore) (evs : list event) :
  Forall delete_succeeds evs →
  activeRequests (run (initial c) evs) = list_to_set (flying_ids (run (initial c) evs))
  ∧ size (activeRequests (run (initial c) evs)) = length (inflight (run (initial c) evs))
  ∧ ∀ r, r ∈ requestQueue (run (initial c) evs) →
         id r ∉ activeRequests (run (initial c) evs).
Proof.
  intros Hok. set (s := run (initial c) evs).
  assert (Hwf : wf s) by apply wf_run, wf_initial.
  assert (He : exact s).
  { apply exact_run; [done | apply wf_initial | reflexivity]. }
  pose proof (live_ids_NoDup s Hwf) as Hnd. unfold live in Hnd.
  rewrite fmap_app in Hnd. apply NoDup_app in Hnd as (_ & Hdisj & Hnd).
  split; [exact He|]. split.
  - rewrite He, size_list_to_set by done. unfold flying_ids. now rewrite !length_fmap.
  - intros r Hr. rewrite He, elem_of_list_to_set.
    apply Hdisj. now apply list_elem_of_fmap_2.
Qed.

Lemma active_set_is_the_set_in_flight_witness :
  Forall delete_succeeds
    [Call "X" "{}" 1 0; Tick 0; Settle 0 (ExecResolved (JObj 0)) no_faults 5]
  ∧ size (activeRequests (run (initial empty_store)
      [Call "X" "{}" 1 0; Tick 0; Settle 0 (ExecResolved (JObj 0)) no_faults 5]))
    = length (inflight (run (initial empty_store)
      [Call "X" "{}" 1 0; Tick 0; Settle 0 (ExecResolved (JObj 0)) no_faults 5])).
Proof.
  assert (H : Forall delete_succeeds
    [Call "X" "{}" 1 0; Tick 0; Settle 0 (ExecResolved (JObj 0)) no_faults 5]).
  { repeat constructor. }
  split; [exact H|].
  exact (proj1 (proj2 (active_set_is_the_set_in_flight empty_store _ H))).
Defined.

(** ** The pending map *)

Lemma pending_unsettled_step s e :
  wf s → pending_unsettled s → pending_unsettled (step s e).
Proof.
  intros Hwf HJ. destruct e as [q v pr now | now | i o fl now | now | now]; simpl.
  - unfold queueSubgraphRequest.
    destruct (pendingRequests s !! getRequestId q v) eqn:Hq; [done|]. simpl.
    intros k p. simpl. rewrite lookup_insert. case_decide as Hk.
    + intros [= <-]. split.
      * rewrite lookup_app_r by done. now rewrite Nat.sub_diag.
      * intros k'. rewrite lookup_insert. case_decide; [congruence|].
        intros Hk'. destruct (HJ k' _ Hk') as [Hp _].
        apply lookup_lt_Some in Hp. lia.
    + intros Hp. destruct (HJ k p Hp) as [Hpend Hinj]. split.
      * now rewrite lookup_app_l by (now apply lookup_lt_Some in Hpend).
      * intros k'. rewrite lookup_insert. case_decide; [|apply Hinj].
        intros [= <-]. apply lookup_lt_Some in Hpend. lia.
  - intros k p. rewrite tick_pending, tick_promises. apply HJ.
  - destruct (settle_cases i o fl now s) as [-> | (r & start & Hi & Hdue)]; [done|].
    destruct (settle_spec i o fl now s r start Hi Hdue)
      as (_ & _ & _ & _ & Hpr & _ & _ & Hpend).
    assert (Hr : r ∈ live s).
    { unfold live. apply elem_of_app. right.
      apply (list_elem_of_fmap_2 fst _ (r, start)), list_elem_of_lookup. eauto. }
    destruct (wf_items s Hwf r Hr) as [Hrp Hrk].
    unfold settle_promise in Hpr. rewrite Hrp in Hpr.
    assert (Hset : settled_at (promise r) (settle i o fl now s) = true).
    { unfold settled_at. rewrite Hpr, list_lookup_insert_eq
        by (now apply lookup_lt_Some in Hrp). apply outcome_state_settled. }
    rewrite Hset in Hpend. intros k p. rewrite Hpend, Hpr.
    rewrite lookup_delete. case_decide as Hk; [done|].
    intros Hp. destruct (HJ k p Hp) as [Hpp Hinj].
    assert (Hne : p ≠ promise r).
    { intros ->. apply Hk. now apply Hinj. }
    split; [now rewrite list_lookup_insert_ne|].
    intros k'. rewrite lookup_delete. case_decide; [done | apply Hinj].
  - unfold getQueueStatus.
    destruct (isCircuitOpen_state now s) as [Heq | Heq];
      destruct (isCircuitOpen now s) as [b s1]; simpl in *; subst s1; done.
  - done.
Qed.

Lemma pending_unsettled_run evs : ∀ s,
  wf s → pending_unsettled s → pending_unsettled (run s evs).
Proof.
  induction evs as [|e evs IH]; intros s Hwf HJ; [done|].
  apply IH; [now apply wf_step | now apply pending_unsettled_step].
Qed.

(** X3: in every state that the service can reach, the promises stored in
    [pendingRequests] are all unsettled and belong to one key each; hence
    the promise that [queueSubgraphRequest] hands out, stored or new, is
    never one that has already been resolved or rejected. *)
Theorem dedup_never_hands_out_a_settled_promise (s : DataService) :
  reachable_state s →
  (∀ k p, pendingRequests s !! k = Some p → promises s !! p = Some Pending)
  ∧ (∀ k k' p, pendingRequests s !! k = Some p →
       pendingRequests s !! k' = Some p → k = k')
  ∧ ∀ q v pr now,
      promises (snd (queueSubgraphRequest q v pr now s))
        !! fst (queueSubgraphRequest q v pr now s) = Some Pending.
Proof.
  intros Hreach.
  assert (HJ : ∀ evs', pending_unsettled (run s evs')).
  { intros evs'. destruct Hreach as (c & evs & ->).
    apply pending_unsettled_run, pending_unsettled_run;
      [apply wf_run, wf_initial | apply wf_initial | done]. }
  split; [|split].
  - intros k p Hk. now destruct (HJ [] k p Hk).
  - intros k k' p Hk Hk'. destruct (HJ [] k p Hk) as [_ Hinj]. symmetry. now apply Hinj.
  - intros q v pr now. specialize (HJ [Call q v pr now]). simpl in HJ.
    destruct (pendingRequests s !! getRequestId q v) as [p|] eqn:Hq.
    + rewrite (queueSubgraphRequest_pending q v pr now s p Hq) in HJ |- *.
      now destruct (HJ _ p Hq).
    + destruct (queueSubgraphRequest_new q v pr now s Hq) as (-> & _ & _ & Hp).
      exact Hp.
Qed.

Lemma dedup_never_hands_out_a_settled_promise_witness :
  reachable_state two_waiting
  ∧ promises (snd (queueSubgraphRequest "A" "{}" 1 7 two_waiting))
      !! fst (queueSubgraphRequest "A" "{}" 1 7 two_waiting) = Some Pending.
Proof.
  split; [exact reachable_two_waiting|].
  exact (proj2 (proj2
    (dedup_never_hands_out_a_settled_promise two_waiting reachable_two_waiting))
    "A" "{}" 1 7).
Defined.

(** ** The end of a race, when nothing raises *)

Lemma pendingCleanup_breaker r s :
  failureCount (pendingCleanup r s) = failureCount s
  ∧ lastFailureTime (pendingCleanup r s) = lastFailureTime s
  ∧ executed (pendingCleanup r s) = executed s.
Proof.
  unfold pendingCleanup. destruct (promises s !! promise r) as [st|]; [|done].
  now destruct (settled st).
Qed.

(** Whichever bookkeeping operations raise, a race that ends in a rejection
    or in the timeout does not lower [failureCount], and [lastFailureTime]
    is left as it was or set to the time of the failure. *)
Lemma onRejected_breaker fl r e now s :
  let out := snd ((onRejected fl r e now >> onFinally fl r) s) in
  failureCount s ≤ failureCount out
  ∧ (lastFailureTime out = lastFailureTime s ∨ lastFailureTime out = now).
Proof.
  unfold onRejected, onFinally, recordFailure, memo_set, active_delete, reject,
    guard, try_catch, bind, modify, gets, ret, throw.
  simpl.
  destruct (fl BreakerUpdate), (fl MemoInsert), (fl ActiveRemove); simpl;
    destruct (promises s !! promise r) as [[| |]|]; simpl;
    (split; [lia | auto]).
Qed.

Lemma settle_failure_breaker i o fl now s :
  fulfilled o = false →
  let out := settle i o fl now s in
  executed out = executed s
  ∧ failureCount s ≤ failureCount out
  ∧ (lastFailureTime out = lastFailureTime s ∨ lastFailureTime out = now).
Proof.
  intros Ho. unfold settle.
  destruct (inflight s !! i) as [[r start]|]; [|simpl; split; [done | split; [lia | auto]]].
  assert (Hrej : ∀ e,
    let out := pendingCleanup r
      (snd ((onRejected fl r e now >> onFinally fl r)
              (set_inflight (delete i (inflight s)) s))) in
    executed out = executed s
    ∧ failureCount s ≤ failureCount out
    ∧ (lastFailureTime out = lastFailureTime s ∨ lastFailureTime out = now)).
  { intros e.
    pose proof (onRejected_spec fl r e now (set_inflight (delete i (inflight s)) s))
      as (_ & _ & Hex & _).
    pose proof (onRejected_breaker fl r e now (set_inflight (delete i (inflight s)) s))
      as (Hfc & Hlast).
    cbv zeta.
    destruct (pendingCleanup_breaker r
      (snd ((onRejected fl r e now >> onFinally fl r)
              (set_inflight (delete i (inflight s)) s)))) as (-> & -> & ->).
    split; [exact Hex|]. split; [exact Hfc | exact Hlast]. }
  destruct o as [v|e|]; [discriminate Ho | apply Hrej |].
  destruct (timer_due start now); [apply Hrej|].
  simpl. split; [done | split; [lia | auto]].
Qed.

(** While the breaker is open, events that record no success and come no
    later than [RECOVERY_TIMEOUT] after [since], a time not after the last
    failure, dispatch nothing and leave the breaker open. *)
Lemma open_breaker_step since s e :
  FAILURE_THRESHOLD ≤ failureCount s → since ≤ lastFailureTime s →
  no_success_within since e →
  executed (step s e) = executed s
  ∧ FAILURE_THRESHOLD ≤ failureCount (step s e)
  ∧ since ≤ lastFailureTime (step s e).
Proof.
  intros Hfc Hlast He.
  destruct e as [q v pr t | t | i o fl t | t | t]; simpl in *.
  - unfold queueSubgraphRequest.
    now destruct (pendingRequests s !! getRequestId q v).
  - rewrite processQueue_open; [done|]. apply isCircuitOpen_true. lia.
  - destruct He as [Ho Ht].
    destruct (settle_failure_breaker i o fl t s Ho) as (-> & Hle & [-> | ->]);
      (split; [done | split; lia]).
  - unfold getQueueStatus.
    assert (Hopen : fst (isCircuitOpen t s) = true) by (apply isCircuitOpen_true; lia).
    pose proof (isCircuitOpen_true_pure t s Hopen) as Hpure.
    destruct (isCircuitOpen t s) as [b s1]. simpl in *. now subst s1.
  - done.
Qed.

Lemma open_breaker_run since evs : ∀ s,
  FAILURE_THRESHOLD ≤ failureCount s → since ≤ lastFailureTime s →
  Forall (no_success_within since) evs →
  executed (run s evs) = executed s
  ∧ FAILURE_THRESHOLD ≤ failureCount (run s evs)
  ∧ since ≤ lastFailureTime (run s evs).
Proof.
  induction evs as [|e evs IH]; intros s Hfc Hlast Hall; [done|].
  apply Forall_cons in Hall as [He Hall].
  destruct (open_breaker_step since s e Hfc Hlast He) as (Hex & Hfc' & Hlast').
  destruct (IH (step s e) Hfc' Hlast' Hall) as (Hex' & Hfc'' & Hlast'').
  simpl. rewrite Hex', Hex. done.
Qed.

(** X4: when the race of a request in flight ends and no bookkeeping raises,
    the promise of the request is settled with the outcome, the outcome is
    put in the memo under the key with the time, the key leaves the active
    set and the pending map, and the breaker is told: a fulfilment puts
    [failureCount] to 0; a rejection, whatever the error, and the local
    timeout add one and stamp [lastFailureTime]. When that makes the count
    reach [FAILURE_THRESHOLD], the breaker is open for as long as no success
    is recorded: after any events that come no later than
    [RECOVERY_TIMEOUT] milliseconds after the failure and among which no
    race ends in a fulfilment (which would put the count back to 0 and
    close the breaker at once), nothing has been dispatched, and a tick no
    later than [RECOVERY_TIMEOUT] after the failure leaves the state as it
    is. *)
Theorem race_end_bookkeeping (s : DataService) (i : nat) (r : queueItem)
    (start now : Z) (o : raceOutcome) :
  reachable_state s →
  inflight s !! i = Some (r, start) →
  outcome_due o start now = true →
  let out := settle i o no_faults now s in
  promises out !! promise r = Some (outcome_state o)
  ∧ processedRequests out = <[id r := (outcome_value o, now)]> (processedRequests s)
  ∧ pendingRequests out = delete (id r) (pendingRequests s)
  ∧ activeRequests out = activeRequests s ∖ {[id r]}
  ∧ inflight out = delete i (inflight s)
  ∧ failureCount out = (if fulfilled o then 0 else failureCount s + 1)
  ∧ lastFailureTime out = (if fulfilled o then lastFailureTime s else now)
  ∧ (fulfilled o = false → FAILURE_THRESHOLD ≤ failureCount s + 1 →
       ∀ evs, Forall (no_success_within now) evs →
         executed (run out evs) = executed out
         ∧ ∀ now', now' - now ≤ RECOVERY_TIMEOUT →
             processQueue now' (run out evs) = run out evs).
Proof.
  intros Hreach Hi Hdue out. pose proof (reachable_wf s Hreach) as Hwf.
  assert (Hr : r ∈ live s).
  { unfold live. apply elem_of_app. right.
    apply (list_elem_of_fmap_2 fst _ (r, start)), list_elem_of_lookup. eauto. }
  destruct (wf_items s Hwf r Hr) as [Hrp _].
  pose proof (wf_failures s Hwf) as Hfc.
  assert (Hlt : (promise r < length (promises s))%nat) by (now apply lookup_lt_Some in Hrp).
  assert (Hrej : ∀ e,
    let res := pendingCleanup r
      (snd ((onRejected no_faults r e now >> onFinally no_faults r)
              (set_inflight (delete i (inflight s)) s))) in
    promises res !! promise r = Some (Rejected e)
    ∧ processedRequests res = <[id r := (e, now)]> (processedRequests s)
    ∧ pendingRequests res = delete (id r) (pendingRequests s)
    ∧ activeRequests res = activeRequests s ∖ {[id r]}
    ∧ inflight res = delete i (inflight s)
    ∧ failureCount res = failureCount s + 1
    ∧ lastFailureTime res = now).
  { intros e. unfold onRejected, onFinally, recordFailure, memo_set, active_delete,
      reject, guard, no_faults, try_catch, bind, modify, gets, ret, throw, pendingCleanup.
    simpl. rewrite Hrp. simpl. rewrite list_lookup_insert_eq by done. simpl.
    rewrite list_lookup_insert_eq by done. auto 10. }
  assert (Hopen : ∀ res, failureCount res = failureCount s + 1 → lastFailureTime res = now →
    FAILURE_THRESHOLD ≤ failureCount s + 1 →
    ∀ evs, Forall (no_success_within now) evs →
      executed (run res evs) = executed res
      ∧ ∀ now', now' - now ≤ RECOVERY_TIMEOUT →
          processQueue now' (run res evs) = run res evs).
  { intros res H1 H2 H3 evs Hevs.
    destruct (open_breaker_run now evs res) as (Hex & Hcount & Hlast);
      [lia | lia | exact Hevs |].
    split; [exact Hex|]. intros now' H4.
    apply processQueue_open, isCircuitOpen_true. lia. }
  subst out. unfold settle. rewrite Hi.
  destruct o as [v|e|]; simpl in Hdue; cbn [outcome_state outcome_value fulfilled].
  - unfold onFulfilled, onFinally, recordSuccess, memo_set, active_delete,
      resolve, guard, no_faults, try_catch, bind, modify, gets, ret, throw, pendingCleanup.
    simpl. destruct (Z.ltb_spec 0 (failureCount s)); simpl; rewrite Hrp; simpl;
      rewrite list_lookup_insert_eq by done; simpl;
      rewrite list_lookup_insert_eq by done;
      (repeat split; try reflexivity; try discriminate; lia).
  - specialize (Hrej e). cbv zeta in Hrej.
    destruct Hrej as (H1 & H2 & H3 & H4 & H5 & H6 & H7).
    split; [exact H1|]. split; [exact H2|]. split; [exact H3|]. split; [exact H4|].
    split; [exact H5|]. split; [exact H6|]. split; [exact H7|].
    intros _. now apply Hopen.
  - rewrite Hdue. specialize (Hrej (JErr "Request timeout")). cbv zeta in Hrej.
    destruct Hrej as (H1 & H2 & H3 & H4 & H5 & H6 & H7).
    split; [exact H1|]. split; [exact H2|]. split; [exact H3|]. split; [exact H4|].
    split; [exact H5|]. split; [exact H6|]. split; [exact H7|].
    intros _. now apply Hopen.
Qed.

Lemma race_end_bookkeeping_witness :
  reachable_state one_in_flight
  ∧ inflight one_in_flight !! 0%nat
    = Some (QueueItem "{ operators { id } }_{}" "{ operators { id } }" "{}" 0 1 0, 0)
  ∧ outcome_due (ExecRejected (JErr "Subgraph API error: 404")) 0 700 = true
  ∧ failureCount (settle 0 (ExecRejected (JErr "Subgraph API error: 404")) no_faults 700
                    one_in_flight) = 1.
Proof.
  assert (H1 : reachable_state one_in_flight).
  { exists empty_store, [Call "{ operators { id } }" "{}" 1 0; Tick 0]. reflexivity. }
  assert (H2 : inflight one_in_flight !! 0%nat
    = Some (QueueItem "{ operators { id } }_{}" "{ operators { id } }" "{}" 0 1 0, 0))
    by (vm_compute; reflexivity).
  assert (H3 : outcome_due (ExecRejected (JErr "Subgraph API error: 404")) 0 700 = true)
    by reflexivity.
  split; [exact H1|]. split; [exact H2|]. split; [exact H3|].
  destruct (race_end_bookkeeping one_in_flight 0 _ 0 700 _ H1 H2 H3)
    as (_ & _ & _ & _ & _ & H & _).
  exact H.
Defined.

(** X5: failures recorded before a success do not add to those after it:
    with fewer than [FAILURE_THRESHOLD] failures since the last recorded
    success the breaker is closed at any time, and asking does not change
    the state. *)
Theorem few_failures_keep_the_breaker_closed (s : DataService) (ts : list Z) (now : Z) :
  0 ≤ failureCount s →
  Z.of_nat (length ts) < FAILURE_THRESHOLD →
  let s' := recordFailures ts (snd (recordSuccess no_faults s)) in
  failureCount s' = Z.of_nat (length ts)
  ∧ isCircuitOpen now s' = (false, s').
Proof.
  intros Hfc Hlen s'.
  assert (Hc : failureCount s' = Z.of_nat (length ts)).
  { subst s'. rewrite recordFailures_count, recordSuccess_count by done. lia. }
  split; [exact Hc|]. unfold isCircuitOpen. rewrite Hc.
  now destruct (Z.ltb_spec (Z.of_nat (length ts)) FAILURE_THRESHOLD); [|lia].
Qed.

Lemma few_failures_keep_the_breaker_closed_witness :
  0 ≤ failureCount tripped
  ∧ Z.of_nat (length [10; 20; 30; 40]) < FAILURE_THRESHOLD
  ∧ fst (isCircuitOpen 50
           (recordFailures [10; 20; 30; 40] (snd (recordSuccess no_faults tripped))))
    = false.
Proof.
  assert (H1 : 0 ≤ failureCount tripped) by (simpl; lia).
  assert (H2 : Z.of_nat (length [10; 20; 30; 40]) < FAILURE_THRESHOLD)
    by (unfold FAILURE_THRESHOLD; simpl; lia).
  split; [exact H1|]. split; [exact H2|].
  destruct (few_failures_keep_the_breaker_closed tripped [10; 20; 30; 40] 50 H1 H2)
    as [_ H].
  now rewrite H.
Defined.

(** ** The sweep of the memo *)

(** X6: the sweep removes from the memo exactly the entries that are older
    than [EXPIRY_DURATION] (an entry that is exactly that old stays) and
    changes nothing else; a request whose entry has been removed is
    executed by the loop of the tick instead of being dropped. *)
Theorem sweep_expires_the_memo (s : DataService) (now : Z) :
  (∀ k v t, processedRequests (sweep now s) !! k = Some (v, t)
            ↔ processedRequests s !! k = Some (v, t) ∧ now - t ≤ EXPIRY_DURATION)
  ∧ requestQueue (sweep now s) = requestQueue s
  ∧ pendingRequests (sweep now s) = pendingRequests s
  ∧ activeRequests (sweep now s) = activeRequests s
  ∧ promises (sweep now s) = promises s
  ∧ inflight (sweep now s) = inflight s
  ∧ failureCount (sweep now s) = failureCount s
  ∧ ∀ r v t tick,
      processedRequests s !! id r = Some (v, t) →
      EXPIRY_DURATION < now - t →
      executed (dispatch tick s r) = executed s
      ∧ executed (dispatch tick (sweep now s) r) = executed s ++ [r]
      ∧ inflight (dispatch tick (sweep now s) r) = inflight s ++ [(r, tick)].
Proof.
  assert (Hlook : ∀ k v t, processedRequests (sweep now s) !! k = Some (v, t)
            ↔ processedRequests s !! k = Some (v, t) ∧ now - t ≤ EXPIRY_DURATION).
  { intros k v t. unfold sweep. simpl. rewrite map_lookup_filter_Some. simpl.
    split; intros [Hk Ht]; (split; [exact Hk | lia]). }
  split; [exact Hlook|]. repeat (split; [reflexivity|]).
  intros r v t tick Hr Hold.
  assert (Hgone : processedRequests (sweep now s) !! id r = None).
  { destruct (processedRequests (sweep now s) !! id r) as [[v' t']|] eqn:Hl; [|done].
    apply Hlook in Hl as [Hl Hle]. rewrite Hr in Hl. injection Hl as <- <-. lia. }
  assert (H1 : not_memoized s r = false).
  { unfold not_memoized. rewrite Hr. now apply bool_decide_eq_false. }
  assert (H2 : not_memoized (sweep now s) r = true).
  { unfold not_memoized. rewrite Hgone. now apply bool_decide_eq_true. }
  rewrite !dispatch_executed, dispatch_inflight, H1, H2. now rewrite app_nil_r.
Qed.

(** * Further properties of the cache-aside wrapper *)

(** X7: when the store does not answer, [cachedQuery] raises the error of
    [RedisCacheService.get] ('Failed to retrieve cache') without calling
    [queryFn]: an outage of the cache is not a miss. The service is left as
    it was, up to the lazy reset of the breaker by [isCircuitOpen]. *)
Theorem cache_outage_fails_without_query (s : DataService) (key : string)
    (queryFn : M DataService jsval) (ttl t1 t2 : Z) (n : nat) :
  reachable (cacheService s) = false →
  cachedQuery key queryFn ttl t1 t2 (s, n)
  = (Throw cache_get_error, (snd (isCircuitOpen t2 s), n)).
Proof.
  intros Hdown. rewrite cachedQuery_unfold.
  assert (Hget : ∀ t s', cacheService s' = cacheService s →
            RedisCacheService_get t key s' = (Throw cache_get_error, s')).
  { intros t s' Hc. unfold RedisCacheService_get, try_catch, store_get, throw.
    now rewrite Hc, Hdown. }
  unfold try_catch at 1. unfold bind at 1. unfold lift at 1.
  rewrite (Hget t1 s eq_refl).
  unfold staleFallback, bind, try_catch, lift, total, ret, throw.
  assert (Hc1 : cacheService (snd (isCircuitOpen t2 s)) = cacheService s).
  { now destruct (isCircuitOpen_state t2 s) as [-> | ->]. }
  destruct (isCircuitOpen t2 s) as [[|] s1]; simpl in *; [|reflexivity].
  now rewrite (Hget t2 s1 Hc1).
Qed.

Lemma cache_outage_fails_without_query_witness :
  reachable (cacheService (initial down_store)) = false
  ∧ cachedQuery "k" object_query 300 10 20 (initial down_store, 0%nat)
    = (Throw cache_get_error, (initial down_store, 0%nat)).
Proof.
  assert (H : reachable (cacheService (initial down_store)) = false) by reflexivity.
  split; [exact H|].
  exact (cache_outage_fails_without_query (initial down_store) "k" object_query
           300 10 20 0 H).
Defined.

Lemma RedisCacheService_set_up now key data ttl s :
  reachable (cacheService s) = true →
  RedisCacheService_set now key data ttl s
  = (Ret tt,
     set_cacheService
       (CacheStore (<[key := (data, now + effective_ttl (cacheService s) ttl * 1000)]>
                      (entries (cacheService s)))
          (reachable (cacheService s)) (REDIS_TTL (cacheService s))) s).
Proof.
  intros Hup. unfold RedisCacheService_set, try_catch, store_set, effective_ttl.
  now rewrite Hup.
Qed.

(** X8: write-through. After a miss, when [queryFn] answers a truthy value
    and the store is up, [cachedQuery] returns that value, having called
    [queryFn] once, and has stored it: until the time to live has run out
    ([ttl] seconds, or the configured [REDIS_TTL] when [ttl] is 0) any
    further [cachedQuery] for the key returns the value from the cache and
    calls no [queryFn]. *)
Theorem miss_then_write_through (s s' : DataService) (key : string) (v : jsval)
    (queryFn : M DataService jsval) (ttl t1 t2 : Z) (n : nat) :
  RedisCacheService_get t1 key s = (Ret JNull, s) →
  queryFn s = (Ret v, s') →
  truthy v = true →
  reachable (cacheService s') = true →
  let r := cachedQuery key queryFn ttl t1 t2 (s, n) in
  fst r = Ret v
  ∧ snd (snd r) = S n
  ∧ ∀ queryFn' ttl' t3 t4,
      t3 < t2 + effective_ttl (cacheService s') ttl * 1000 →
      cachedQuery key queryFn' ttl' t3 t4 (snd r) = (Ret v, snd r).
Proof.
  intros Hget Hq Hv Hup r. subst r.
  rewrite (cachedQuery_miss _ _ _ _ _ _ _ Hget).
  unfold try_catch, queryAndStore, bind, invoke. rewrite Hq.
  assert (Hnn : bool_decide (v ≠ JNull) && bool_decide (v ≠ JUndefined) = true).
  { apply andb_true_intro. split; apply bool_decide_eq_true; intros ->; discriminate. }
  rewrite Hnn. unfold lift. rewrite (RedisCacheService_set_up t2 key v ttl s' Hup).
  unfold ret. simpl. split; [done|]. split; [done|].
  intros queryFn' ttl' t3 t4 Ht.
  apply cachedQuery_hit; [|now apply truthy_not_null].
  rewrite (RedisCacheService_get_store t3 key _ v).
  - unfold js_or. now rewrite Hv.
  - unfold store_get. simpl. rewrite Hup, lookup_insert_eq.
    now rewrite (proj2 (Z.ltb_lt _ _) Ht).
Qed.

Lemma miss_then_write_through_witness :
  RedisCacheService_get 10 "k" (initial empty_store) = (Ret JNull, initial empty_store)
  ∧ object_query (initial empty_store) = (Ret (JObj 5), initial empty_store)
  ∧ truthy (JObj 5) = true
  ∧ reachable (cacheService (initial empty_store)) = true
  ∧ fst (cachedQuery "k" object_query 0 10 20 (initial empty_store, 0%nat))
    = Ret (JObj 5).
Proof.
  assert (H1 : RedisCacheService_get 10 "k" (initial empty_store)
               = (Ret JNull, initial empty_store)) by (vm_compute; reflexivity).
  assert (H2 : object_query (initial empty_store) = (Ret (JObj 5), initial empty_store))
    by reflexivity.
  assert (H3 : truthy (JObj 5) = true) by reflexivity.
  assert (H4 : reachable (cacheService (initial empty_store)) = true) by reflexivity.
  split; [exact H1|]. split; [exact H2|]. split; [exact H3|]. split; [exact H4|].
  exact (proj1 (miss_then_write_through (initial empty_store) _ "k" (JObj 5)
                  object_query 0 10 20 0 H1 H2 H3 H4)).
Defined.

(** X9: after a miss, a [queryFn] that answers [null] or [undefined] has its
    answer returned, and nothing is written to the cache. *)
Theorem null_result_is_not_cached (s s' : DataService) (key : string) (v : jsval)
    (queryFn : M DataService jsval) (ttl t1 t2 : Z) (n : nat) :
  RedisCacheService_get t1 key s = (Ret JNull, s) →
  queryFn s = (Ret v, s') →
  v = JNull ∨ v = JUndefined →
  cachedQuery key queryFn ttl t1 t2 (s, n) = (Ret v, (s', S n)).
Proof.
  intros Hget Hq Hv. rewrite (cachedQuery_miss _ _ _ _ _ _ _ Hget).
  unfold try_catch, queryAndStore, bind, invoke. rewrite Hq.
  now destruct Hv as [-> | ->].
Qed.

Lemma null_result_is_not_cached_witness :
  RedisCacheService_get 10 "k" (initial empty_store) = (Ret JNull, initial empty_store)
  ∧ (ret JNull : M DataService jsval) (initial empty_store)
    = (Ret JNull, initial empty_store)
  ∧ (JNull = JNull ∨ JNull = JUndefined)
  ∧ cachedQuery "k" (ret JNull) 300 10 20 (initial empty_store, 0%nat)
    = (Ret JNull, (initial empty_store, 1%nat)).
Proof.
  assert (H1 : RedisCacheService_get 10 "k" (initial empty_store)
               = (Ret JNull, initial empty_store)) by (vm_compute; reflexivity).
  assert (H2 : (ret JNull : M DataService jsval) (initial empty_store)
               = (Ret JNull, initial empty_store)) by reflexivity.
  assert (H3 : JNull = JNull ∨ JNull = JUndefined) by (left; reflexivity).
  split; [exact H1|]. split; [exact H2|]. split; [exact H3|].
  exact (null_result_is_not_cached (initial empty_store) _ "k" JNull (ret JNull)
           300 10 20 0 H1 H2 H3).
Defined.

(** X10: a write to the cache that fails is not swallowed. After a miss,
    when [queryFn] answers a value that is to be cached but the store does
    not take it, and the breaker is closed, [cachedQuery] raises the error
    of [RedisCacheService.set] ('Failed to set cache') instead of returning
    the value that [queryFn] has fetched. *)
Theorem failed_cache_write_fails_the_query (s s' : DataService) (key : string)
    (v : jsval) (queryFn : M DataService jsval) (ttl t1 t2 : Z) (n : nat) :
  RedisCacheService_get t1 key s = (Ret JNull, s) →
  queryFn s = (Ret v, s') →
  v ≠ JNull → v ≠ JUndefined →
  reachable (cacheService s') = false →
  fst (isCircuitOpen t2 s') = false →
  fst (cachedQuery key queryFn ttl t1 t2 (s, n)) = Throw cache_set_error
  ∧ snd (snd (cachedQuery key queryFn ttl t1 t2 (s, n))) = S n.
Proof.
  intros Hget Hq Hn Hu Hdown Hclosed. rewrite (cachedQuery_miss _ _ _ _ _ _ _ Hget).
  unfold try_catch, queryAndStore, bind, invoke. rewrite Hq.
  rewrite !bool_decide_true by done. simpl.
  unfold lift, RedisCacheService_set, try_catch, store_set, throw. rewrite Hdown.
  unfold staleFallback, bind, lift, total, ret, throw.
  destruct (isCircuitOpen t2 s') as [b s1]. simpl in Hclosed. subst b. done.
Qed.

Lemma failed_cache_write_fails_the_query_witness :
  RedisCacheService_get 10 "k" (initial empty_store) = (Ret JNull, initial empty_store)
  ∧ query_then_outage (initial empty_store)
    = (Ret (JObj 5), set_cacheService down_store (initial empty_store))
  ∧ JObj 5 ≠ JNull ∧ JObj 5 ≠ JUndefined
  ∧ reachable (cacheService (set_cacheService down_store (initial empty_store))) = false
  ∧ fst (isCircuitOpen 20 (set_cacheService down_store (initial empty_store))) = false
  ∧ fst (cachedQuery "k" query_then_outage 300 10 20 (initial empty_store, 0%nat))
    = Throw cache_set_error.
Proof.
  assert (H1 : RedisCacheService_get 10 "k" (initial empty_store)
               = (Ret JNull, initial empty_store)) by (vm_compute; reflexivity).
  assert (H2 : query_then_outage (initial empty_store)
    = (Ret (JObj 5), set_cacheService down_store (initial empty_store))) by reflexivity.
  assert (H3 : JObj 5 ≠ JNull) by discriminate.
  assert (H4 : JObj 5 ≠ JUndefined) by discriminate.
  assert (H5 : reachable (cacheService (set_cacheService down_store (initial empty_store)))
               = false) by reflexivity.
  assert (H6 : fst (isCircuitOpen 20 (set_cacheService down_store (initial empty_store)))
               = false) by reflexivity.
  split; [exact H1|]. split; [exact H2|]. split; [exact H3|]. split; [exact H4|].
  split; [exact H5|]. split; [exact H6|].
  exact (proj1 (failed_cache_write_fails_the_query (initial empty_store) _ "k" (JObj 5)
                  query_then_outage 300 10 20 0 H1 H2 H3 H4 H5 H6)).
Defined.

(** * Further properties of the request identifiers *)

Lemma collapse_spaces_run b a c c' s :
  is_space c = true → is_space c' = true →
  collapse_spaces b (a ++ String c (String c' s))%string
  = collapse_spaces b (a ++ String c s)%string.
Proof.
  intros Hc Hc'. revert b. induction a as [|x a IH]; intros b; simpl.
  - rewrite Hc, Hc'. now destruct b.
  - destruct (is_space x); [destruct b|]; now rewrite IH.
Qed.

Lemma collapse_spaces_kind b a c c' s :
  is_space c = true → is_space c' = true →
  collapse_spaces b (a ++ String c s)%string
  = collapse_spaces b (a ++ String c' s)%string.
Proof.
  intros Hc Hc'. revert b. induction a as [|x a IH]; intros b; simpl.
  - now rewrite Hc, Hc'.
  - destruct (is_space x); [destruct b|]; now rewrite IH.
Qed.

Lemma trim_start_collapse s :
  trim_start (collapse_spaces true s) = trim_start (collapse_spaces false s).
Proof.
  destruct s as [|c s]; [done|]. simpl. now destruct (is_space c).
Qed.

Lemma trim_end_blank z : trim_end (z ++ " ")%string = trim_end z.
Proof.
  induction z as [|c z IH]; [done|]. simpl. now rewrite IH.
Qed.

Lemma trim_blank y : trim (y ++ " ")%string = trim y.
Proof.
  unfold trim. induction y as [|c y IH]; [done|]. simpl.
  destruct (is_space c); [exact IH|].
  change (String c (y ++ " ")%string) with (String c y ++ " ")%string.
  apply trim_end_blank.
Qed.

Lemma collapse_spaces_snoc b s c :
  is_space c = true →
  collapse_spaces b (s ++ String c "")%string = collapse_spaces b s
  ∨ collapse_spaces b (s ++ String c "")%string = (collapse_spaces b s ++ " ")%string.
Proof.
  intros Hc. revert b. induction s as [|x s IH]; intros b; simpl.
  - rewrite Hc. destruct b; [now left | now right].
  - destruct (is_space x); [destruct b|].
    + apply IH.
    + destruct (IH true) as [-> | ->]; [now left | now right].
    + destruct (IH false) as [-> | ->]; [now left | now right].
Qed.

Lemma tidy_collapse b s : tidy b (collapse_spaces b s) = true.
Proof.
  revert b. induction s as [|c s IH]; intros b; [done|]. simpl.
  destruct (is_space c) eqn:Hc.
  - destruct b; [apply IH|]. simpl. apply IH.
  - simpl. rewrite Hc. apply IH.
Qed.

Lemma collapse_tidy b s : tidy b s = true → collapse_spaces b s = s.
Proof.
  revert b. induction s as [|c s IH]; intros b Ht; [done|]. simpl in *.
  destruct (is_space c).
  - apply andb_prop in Ht as [Ht Hs]. apply andb_prop in Ht as [Hc Hb].
    apply Ascii.eqb_eq in Hc as ->. destruct b; [discriminate|]. now rewrite IH.
  - now rewrite IH.
Qed.

Lemma tidy_weaken b s : tidy b s = true → tidy false s = true.
Proof.
  destruct s as [|c s]; [done|]. simpl. destruct (is_space c); [|done].
  intros Ht. apply andb_prop in Ht as [Ht Hs]. apply andb_prop in Ht as [Hc Hb].
  now rewrite Hc, Hs.
Qed.

Lemma tidy_trim_start b s : tidy b s = true → tidy false (trim_start s) = true.
Proof.
  revert b. induction s as [|c s IH]; intros b Ht; [done|]. simpl in *.
  destruct (is_space c) eqn:Hc.
  - apply andb_prop in Ht as [_ Hs]. now apply (IH true).
  - simpl. now rewrite Hc.
Qed.

Lemma tidy_trim_end b s : tidy b s = true → tidy b (trim_end s) = true.
Proof.
  revert b. induction s as [|c s IH]; intros b Ht; [done|]. simpl in *.
  destruct (is_space c) eqn:Hc.
  - apply andb_prop in Ht as [Hcb Hs]. specialize (IH true Hs).
    destruct (trim_end s) as [|c' r]; [done|]. simpl. rewrite Hc, Hcb. exact IH.
  - specialize (IH false Ht).
    destruct (trim_end s) as [|c' r]; simpl; rewrite Hc; [done | exact IH].
Qed.

Lemma trim_end_idem s : trim_end (trim_end s) = trim_end s.
Proof.
  induction s as [|c s IH]; [done|]. simpl.
  destruct (trim_end s) as [|c' r] eqn:Hr.
  - destruct (is_space c) eqn:Hc; [done|]. simpl. now rewrite Hc.
  - simpl in IH |- *. now rewrite IH.
Qed.

Lemma trim_start_trim_end s :
  trim_start s = s → trim_start (trim_end s) = trim_end s.
Proof.
  destruct s as [|c s]; [done|]. simpl. destruct (is_space c) eqn:Hc.
  - intros Heq. exfalso.
    assert (Hlen : ∀ z, (String.length (trim_start z) ≤ String.length z)%nat).
    { induction z as [|x z IHz]; [done|]. simpl. destruct (is_space x); simpl; lia. }
    specialize (Hlen s). rewrite Heq in Hlen. simpl in Hlen. lia.
  - intros _. destruct (trim_end s); simpl; now rewrite Hc.
Qed.

Lemma trim_start_idem s : trim_start (trim_start s) = trim_start s.
Proof.
  induction s as [|c s IH]; [done|]. simpl.
  destruct (is_space c) eqn:Hc; [exact IH|]. simpl. now rewrite Hc.
Qed.

Lemma trim_idem s : trim (trim s) = trim s.
Proof.
  unfold trim. rewrite (trim_start_trim_end (trim_start s)) by apply trim_start_idem.
  apply trim_end_idem.
Qed.

(** X11: the request id does not depend on how much white space the query
    text has, nor of which kind: a white space character next to another
    one, at the start or at the end of the text can be dropped, any white
    space character can be replaced by another, and the normalised text of
    a query is left as it is when it is normalised again. *)
Theorem request_id_ignores_the_layout (a s v : string) (c c' : ascii) :
  is_space c = true → is_space c' = true →
  getRequestId (a ++ String c (String c' s))%string v
  = getRequestId (a ++ String c s)%string v
  ∧ getRequestId (a ++ String c s)%string v = getRequestId (a ++ String c' s)%string v
  ∧ getRequestId (String c s) v = getRequestId s v
  ∧ getRequestId (s ++ String c "")%string v = getRequestId s v
  ∧ getRequestId (normalize s) v = getRequestId s v
  ∧ tidy false (normalize s) = true.
Proof.
  intros Hc Hc'. unfold getRequestId.
  split; [now rewrite (collapse_spaces_run false a c c' s Hc Hc')|].
  split; [now rewrite (collapse_spaces_kind false a c c' s Hc Hc')|].
  assert (Htidy : tidy false (normalize s) = true).
  { unfold normalize, trim. apply tidy_trim_end.
    eapply tidy_trim_start, (tidy_collapse false). }
  split; [|split; [|split; [|exact Htidy]]].
  - f_equal. unfold trim. simpl. rewrite Hc. simpl. now rewrite trim_start_collapse.
  - f_equal. destruct (collapse_spaces_snoc false s c Hc) as [-> | ->]; [done|].
    apply trim_blank.
  - f_equal. fold (normalize s). rewrite (collapse_tidy false _ Htidy).
    unfold normalize. apply trim_idem.
Qed.

Lemma request_id_ignores_the_layout_witness :
  is_space " " = true ∧ is_space "010" = true
  ∧ getRequestId ("query" ++ String " " (String "010" "{ operators { id } }"))%string "{}"
    = getRequestId ("query" ++ String " " "{ operators { id } }")%string "{}".
Proof.
  assert (H1 : is_space " " = true) by reflexivity.
  assert (H2 : is_space "010" = true) by reflexivity.
  split; [exact H1|]. split; [exact H2|].
  exact (proj1 (request_id_ignores_the_layout "query" "{ operators { id } }" "{}"
                  " " "010" H1 H2)).
Defined.

(** * Further properties: the executor and the confidence score *)

(** X12: [executeSubgraphQuery] returns data only from a response without
    [errors]; a response that carries [errors] is raised as a 500, like a
    network failure, and its data is dropped. The exception raised always
    has status 408, a 4xx status or 500: the code ETIMEDOUT gives 408
    whatever the status, a 4xx status of the upstream is passed on, and
    every other status (any 5xx among them) becomes 500. *)
Theorem executor_error_mapping (o : postOutcome) :
  (∀ d, executeSubgraphQuery o = inl d →
        ∃ errors j, o = Responded errors j d ∧ truthy errors = false)
  ∧ (∀ ex, executeSubgraphQuery o = inr ex →
        he_status ex = 408 ∨ 400 ≤ he_status ex < 500 ∨ he_status ex = 500)
  ∧ (∀ errors j d, o = Responded errors j d → truthy errors = true →
        executeSubgraphQuery o
        = inr (mkHttpException
                 ("Failed to fetch data from subgraph: GraphQL errors: " +:+ j) 500))
  ∧ (∀ e, o = Failed e → err_code e = Some "ETIMEDOUT" →
        ∃ ex, executeSubgraphQuery o = inr ex ∧ he_status ex = 408)
  ∧ (∀ e st, o = Failed e → err_code e ≠ Some "ETIMEDOUT" → err_status e = Some st →
        ∃ ex, executeSubgraphQuery o = inr ex
              ∧ he_status ex = (if (400 <=? st) && (st <? 500) then st else 500)).
Proof.
  assert (Hmap : ∀ e, he_status (mapTransportError e) = 408
                      ∨ 400 ≤ he_status (mapTransportError e) < 500
                      ∨ he_status (mapTransportError e) = 500).
  { intros e. unfold mapTransportError. case_bool_decide; [now left|].
    destruct (err_status e) as [st|]; [|now right; right].
    destruct (Z.leb_spec 400 st), (Z.ltb_spec st 500); simpl; auto. }
  split; [|split; [|split; [|split]]].
  - intros d. destruct o as [errors j data|e]; simpl; [|discriminate].
    destruct (truthy errors) eqn:Ht; [discriminate|]. intros [= <-]. eauto.
  - intros ex. destruct o as [errors j data|e]; simpl.
    + destruct (truthy errors); [|discriminate]. intros [= <-]. apply Hmap.
    + intros [= <-]. apply Hmap.
  - intros errors j d -> Ht. simpl. rewrite Ht. reflexivity.
  - intros e -> Hc. simpl. eexists. split; [reflexivity|].
    unfold mapTransportError. now rewrite bool_decide_true.
  - intros e st -> Hc Hst. simpl. eexists. split; [reflexivity|].
    unfold mapTransportError. rewrite bool_decide_false by done. rewrite Hst.
    now destruct ((400 <=? st) && (st <? 500)).
Qed.

(** X13: the confidence score lies between 50 and 95, and does not go down
    when there are more data points, a longer time span, or one more of the
    two quality flags. *)
Theorem confidence_score_bounds_and_monotone (d d' t t' : Z) (a a' b b' : bool) :
  d ≤ d' → t ≤ t' → (a = true → a' = true) → (b = true → b' = true) →
  50 ≤ calculateConfidenceScore d t a b ≤ 95
  ∧ calculateConfidenceScore d t a b ≤ calculateConfidenceScore d' t' a' b'.
Proof.
  intros Hd Ht Ha Hb. unfold calculateConfidenceScore. cbv zeta.
  set (x := if 100 <=? d then _ else _).
  set (x' := if 100 <=? d' then _ else _).
  assert (Hx : 50 ≤ x ≤ 70 ∧ 50 ≤ x' ≤ 70 ∧ x ≤ x').
  { subst x x'.
    destruct (Z.leb_spec 100 d), (Z.leb_spec 50 d), (Z.leb_spec 20 d), (Z.leb_spec 10 d);
      try lia;
      destruct (Z.leb_spec 100 d'), (Z.leb_spec 50 d'), (Z.leb_spec 20 d'),
        (Z.leb_spec 10 d'); lia. }
  clearbody x x'.
  set (y := if 90 <=? t then _ else _).
  set (y' := if 90 <=? t' then _ else _).
  assert (Hy : 50 ≤ y ≤ 85 ∧ 50 ≤ y' ≤ 85 ∧ y ≤ y').
  { subst y y'.
    destruct (Z.leb_spec 90 t), (Z.leb_spec 30 t), (Z.leb_spec 7 t); try lia;
      destruct (Z.leb_spec 90 t'), (Z.leb_spec 30 t'), (Z.leb_spec 7 t'); lia. }
  clearbody y y'.
  destruct a, a', b, b';
    try (specialize (Ha eq_refl)); try (specialize (Hb eq_refl)); try discriminate;
    lia.
Qed.

Lemma confidence_score_bounds_and_monotone_witness :
  3 ≤ 12 ∧ 90 ≤ 360 ∧ (false = true → false = true) ∧ (true = true → true = true)
  ∧ calculateConfidenceScore 3 90 false true ≤ calculateConfidenceScore 12 360 false true.
Proof.
  assert (H1 : 3 ≤ 12) by lia.
  assert (H2 : 90 ≤ 360) by lia.
  assert (H3 : false = true → false = true) by (intros H; exact H).
  assert (H4 : true = true → true = true) by (intros H; exact H).
  split; [exact H1|]. split; [exact H2|]. split; [exact H3|]. split; [exact H4|].
  exact (proj2 (confidence_score_bounds_and_monotone 3 12 90 360 false false true true
                  H1 H2 H3 H4)).
Defined.

(** * Further properties: the cache keys *)

Lemma key_le_trans a b c : key_le a b → key_le b c → key_le a c.
Proof.
  unfold key_le, String.leb. revert b c.
  induction a as [|x a IH]; intros [|y b] [|z c]; simpl; try done.
  unfold Ascii.compare.
  destruct (N.compare_spec (N_of_ascii x) (N_of_ascii y)) as [Hxy|Hxy|Hxy];
    destruct (N.compare_spec (N_of_ascii y) (N_of_ascii z)) as [Hyz|Hyz|Hyz];
    destruct (N.compare_spec (N_of_ascii x) (N_of_ascii z)) as [Hxz|Hxz|Hxz];
    try done; try lia.
  apply IH.
Qed.

Lemma key_le_total a b : key_le a b ∨ key_le b a.
Proof. apply String.leb_total. Qed.

#[local] Instance key_le_antisym : AntiSymm (=) key_le.
Proof. intros a b. apply String.leb_antisym. Qed.

Lemma insert_key_perm k l : insert_key k l ≡ₚ k :: l.
Proof.
  induction l as [|y l IH]; simpl; [done|].
  destruct (String.leb k y); [done|]. rewrite IH. apply Permutation_swap.
Qed.

Lemma sort_keys_perm l : sort_keys l ≡ₚ l.
Proof.
  induction l as [|k l IH]; simpl; [done|]. rewrite insert_key_perm. now rewrite IH.
Qed.

Lemma insert_key_sorted k l :
  StronglySorted key_le l → StronglySorted key_le (insert_key k l).
Proof.
  induction 1 as [|y l Hs IH Hall]; simpl.
  - repeat constructor.
  - destruct (String.leb k y) eqn:Hky.
    + constructor; [now constructor|]. constructor; [exact Hky|].
      eapply Forall_impl; [exact Hall|]. intros z Hz. now apply (key_le_trans k y z).
    + assert (Hyk : key_le y k).
      { destruct (key_le_total k y) as [H|H]; [unfold key_le in H; congruence | done]. }
      constructor; [exact IH|]. rewrite insert_key_perm. now constructor.
Qed.

Lemma sort_keys_sorted l : StronglySorted key_le (sort_keys l).
Proof.
  induction l as [|k l IH]; simpl; [constructor | now apply insert_key_sorted].
Qed.

Lemma get_param_elem key v params :
  NoDup (fst <$> params) →
  get_param key params = Some v ↔ (key, v) ∈ params.
Proof.
  induction params as [|[k w] rest IH]; intros Hnd; simpl.
  - split; [discriminate|]. intros H. now apply elem_of_nil in H.
  - rewrite fmap_cons in Hnd. apply NoDup_cons in Hnd as [Hk Hnd].
    rewrite elem_of_cons. destruct (String.eqb_spec k key) as [->|Hne].
    + split.
      * intros [= ->]. now left.
      * intros [[= ->] | Hin]; [done|]. exfalso. apply Hk.
        now apply (list_elem_of_fmap_2 fst _ (key, v)).
    + rewrite (IH Hnd). split; [now right|]. intros [[= -> ->] | Hin]; [done | done].
Qed.

Lemma get_param_perm key params params' :
  NoDup (fst <$> params) → params ≡ₚ params' →
  get_param key params = get_param key params'.
Proof.
  intros Hnd Hperm.
  assert (Hnd' : NoDup (fst <$> params')) by now rewrite <- Hperm.
  destruct (get_param key params) as [v|] eqn:H1.
  - symmetry. apply (get_param_elem _ _ _ Hnd'). rewrite <- Hperm.
    now apply (get_param_elem _ _ _ Hnd).
  - destruct (get_param key params') as [v'|] eqn:H2; [|done].
    apply (get_param_elem _ _ _ Hnd') in H2. rewrite <- Hperm in H2.
    apply (get_param_elem _ _ _ Hnd) in H2. congruence.
Qed.

(** X14: the cache key of a method does not depend on the order in which
    the parameters were put into the parameter object: two objects with the
    same properties, created in different orders, get the same key. *)
Theorem cache_key_ignores_parameter_order (json_string : string → string)
    (method : string) (params params' : list (string * option string)) :
  NoDup (fst <$> params) →
  params ≡ₚ params' →
  getCacheKey json_string method params = getCacheKey json_string method params'.
Proof.
  intros Hnd Hperm. unfold getCacheKey, stringify_sorted.
  assert (Hkeys : sort_keys (fst <$> params) = sort_keys (fst <$> params')).
  { apply (StronglySorted_unique key_le); try apply sort_keys_sorted.
    rewrite !sort_keys_perm. now rewrite Hperm. }
  rewrite Hkeys.
  assert (Hext : ∀ l : list string,
    omap (λ k, match get_param k params with
               | Some (Some v) => Some (json_string k +:+ ":" +:+ v)
               | _ => None
               end) l
    = omap (λ k, match get_param k params' with
                 | Some (Some v) => Some (json_string k +:+ ":" +:+ v)
                 | _ => None
                 end) l).
  { intros l. apply list_omap_ext, Forall2_same_length_lookup_2; [done|].
    intros i x y Hx Hy. rewrite Hx in Hy. injection Hy as <-.
    now rewrite (get_param_perm x params params'). }
  now rewrite Hext.
Qed.

Lemma cache_key_ignores_parameter_order_witness :
  NoDup (fst <$> [("limit", Some "100"); ("fromTimestamp", Some "1700000000")])
  ∧ [("limit", Some "100"); ("fromTimestamp", Some "1700000000")]
    ≡ₚ [("fromTimestamp", Some "1700000000"); ("limit", Some "100")]
  ∧ getCacheKey (λ k, k) "allAVSAddresses"
      [("limit", Some "100"); ("fromTimestamp", Some "1700000000")]
    = getCacheKey (λ k, k) "allAVSAddresses"
      [("fromTimestamp", Some "1700000000"); ("limit", Some "100")].
Proof.
  assert (H1 : NoDup (fst <$> [("limit", Some "100");
                               ("fromTimestamp", Some "1700000000")])).
  { apply NoDup_cons. split; [|apply NoDup_singleton].
    intros H. apply list_elem_of_singleton in H. discriminate. }
  assert (H2 : [("limit", Some "100"); ("fromTimestamp", Some "1700000000")]
    ≡ₚ [("fromTimestamp", Some "1700000000"); ("limit", Some "100")])
    by apply Permutation_swap.
  split; [exact H1|]. split; [exact H2|].
  exact (cache_key_ignores_parameter_order (λ k, k) "allAVSAddresses" _ _ H1 H2).
Defined.

(** * Further properties: the correlation matrix *)

Section CorrelationMatrixFacts.
Context {V : Type}.
Variable zero one : V.
Variable correlation : nat → nat → V.

Lemma square_set_cell n i j x (m : list (list V)) :
  square n m → square n (set_cell i j x m).
Proof.
  intros [Hlen Hrows]. unfold set_cell. split; [now rewrite length_alter|].
  apply Forall_alter; [done|]. intros row Hrow ?. now rewrite length_insert.
Qed.

Lemma cell_set_cell n i j x a b (m : list (list V)) :
  square n m → (i < n)%nat → (j < n)%nat →
  cell a b (set_cell i j x m)
  = if decide (a = i ∧ b = j) then Some x else cell a b m.
Proof.
  intros [Hlen Hrows] Hi Hj. unfold cell, set_cell.
  destruct (decide (a = i)) as [->|Hne].
  - rewrite list_lookup_alter_eq.
    destruct (m !! i) as [row|] eqn:Hrow; simpl.
    + assert (Hr : length row = n).
      { eapply Forall_lookup_1 in Hrows; [exact Hrows | exact Hrow]. }
      destruct (decide (b = j)) as [->|Hb].
      * rewrite decide_True by done. apply list_lookup_insert_eq. lia.
      * rewrite decide_False by tauto. now apply list_lookup_insert_ne.
    + apply lookup_ge_None in Hrow. lia.
  - rewrite list_lookup_alter_ne by done. now rewrite decide_False by tauto.
Qed.

Lemma square_zero_matrix n : square n (zero_matrix zero n).
Proof.
  unfold zero_matrix. split; [apply length_replicate|].
  apply Forall_replicate, length_replicate.
Qed.

Lemma cell_zero_matrix n a b :
  (a < n)%nat → (b < n)%nat → cell a b (zero_matrix zero n) = Some zero.
Proof.
  intros Ha Hb. unfold cell, zero_matrix.
  rewrite lookup_replicate_2 by done. simpl. now apply lookup_replicate_2.
Qed.

(** The loop over the diagonal, run for the indices of [l]. *)
Lemma diagonal_loop n l : ∀ m : list (list V),
  square n m → Forall (λ i, (i < n)%nat) l →
  square n (foldl (λ m i, set_cell i i one m) m l)
  ∧ ∀ a b, cell a b (foldl (λ m i, set_cell i i one m) m l)
           = if decide (a = b ∧ a ∈ l) then Some one else cell a b m.
Proof.
  induction l as [|i l IH]; intros m Hsq Hl; simpl.
  - split; [done|]. intros a b. rewrite decide_False; [done|].
    intros [_ H]. now apply elem_of_nil in H.
  - apply Forall_cons in Hl as [Hi Hl].
    destruct (IH (set_cell i i one m) (square_set_cell n i i one m Hsq) Hl) as [Hsq' Hc].
    split; [exact Hsq'|]. intros a b. rewrite Hc, (cell_set_cell n) by done.
    destruct (decide (a = b ∧ a ∈ l)) as [[-> Hin]|Hno].
    + rewrite decide_True; [done|]. split; [done | now right].
    + destruct (decide (a = i ∧ b = i)) as [[-> ->]|Hno'].
      * rewrite decide_True; [done|]. split; [done | now left].
      * rewrite decide_False; [done|]. intros [-> Hin].
        apply elem_of_cons in Hin as [-> | Hin]; tauto.
Qed.

(** The inner loop of the row [i], run for the columns of [l]. *)
Lemma row_loop n i l : ∀ m : list (list V),
  square n m → (i < n)%nat → Forall (λ j, (j < n)%nat) l →
  let out := foldl (λ m j, set_cell j i (correlation i j)
                             (set_cell i j (correlation i j) m)) m l in
  square n out
  ∧ ∀ a b, cell a b out
           = if decide (a = i ∧ b ∈ l) then Some (correlation i b)
             else if decide (b = i ∧ a ∈ l) then Some (correlation i a)
             else cell a b m.
Proof.
  induction l as [|j l IH]; intros m Hsq Hi Hl; simpl.
  - split; [done|]. intros a b.
    rewrite !decide_False; [done | |]; intros [_ H]; now apply elem_of_nil in H.
  - apply Forall_cons in Hl as [Hj Hl].
    pose proof (square_set_cell n i j (correlation i j) m Hsq) as Hsq1.
    pose proof (square_set_cell n j i (correlation i j) _ Hsq1) as Hsq2.
    destruct (IH _ Hsq2 Hi Hl) as [Hsq' Hc].
    split; [exact Hsq'|]. intros a b. rewrite Hc.
    rewrite (cell_set_cell n j i) by done. rewrite (cell_set_cell n i j) by done.
    destruct (decide (a = i ∧ b ∈ l)) as [[-> Hin]|H1].
    + rewrite decide_True; [done|]. split; [done | now right].
    + destruct (decide (b = i ∧ a ∈ l)) as [[-> Hin]|H2].
      * destruct (decide (a = i ∧ i ∈ j :: l)) as [[-> _]|H3]; [done|].
        rewrite decide_True; [done|]. split; [done | now right].
      * destruct (decide (a = j ∧ b = i)) as [[-> ->]|H3].
        -- destruct (decide (j = i ∧ i ∈ j :: l)) as [[-> _]|H4]; [done|].
           rewrite decide_True; [done|]. split; [done | now left].
        -- destruct (decide (a = i ∧ b = j)) as [[-> ->]|H4].
           ++ rewrite decide_True; [done|]. split; [done | now left].
           ++ rewrite !decide_False; [done | |].
              ** intros [-> Hin]. apply elem_of_cons in Hin as [-> | Hin]; tauto.
              ** intros [-> Hin]. apply elem_of_cons in Hin as [-> | Hin]; tauto.
Qed.

Lemma fill_row_spec n i (m : list (list V)) :
  square n m → (i < n)%nat →
  square n (fill_row correlation n i m)
  ∧ ∀ a b, (a < n)%nat → (b < n)%nat →
      cell a b (fill_row correlation n i m)
      = if decide (a = i ∧ i < b)%nat then Some (correlation i b)
        else if decide (b = i ∧ i < a)%nat then Some (correlation i a)
        else cell a b m.
Proof.
  intros Hsq Hi. unfold fill_row.
  assert (Hl : Forall (λ j, (j < n)%nat) (seq (i + 1) (n - (i + 1)))).
  { apply Forall_forall. intros j Hj. apply elem_of_seq in Hj. lia. }
  destruct (row_loop n i _ m Hsq Hi Hl) as [Hsq' Hc].
  split; [exact Hsq'|]. intros a b Ha Hb. rewrite Hc.
  assert (Hin : ∀ x, (x < n)%nat → x ∈ seq (i + 1) (n - (i + 1)) ↔ (i < x)%nat).
  { intros x Hx. rewrite elem_of_seq. lia. }
  destruct (decide (a = i ∧ (i < b)%nat)) as [[-> Hlt]|H1].
  - rewrite decide_True; [done|]. split; [done | now apply Hin].
  - rewrite decide_False by (rewrite (Hin b Hb); tauto).
    destruct (decide (b = i ∧ (i < a)%nat)) as [[-> Hlt]|H2].
    + rewrite decide_True; [done|]. split; [done | now apply Hin].
    + now rewrite decide_False by (rewrite (Hin a Ha); tauto).
Qed.

(** The loop over the pairs, run for the rows of [l]. *)
Lemma pairs_loop n l : ∀ m : list (list V),
  square n m → Forall (λ i, (i < n)%nat) l →
  square n (foldl (λ m i, fill_row correlation n i m) m l)
  ∧ ∀ a b, (a < n)%nat → (b < n)%nat →
      cell a b (foldl (λ m i, fill_row correlation n i m) m l)
      = if decide (a < b ∧ a ∈ l)%nat then Some (correlation a b)
        else if decide (b < a ∧ b ∈ l)%nat then Some (correlation b a)
        else cell a b m.
Proof.
  induction l as [|i l IH]; intros m Hsq Hl; simpl.
  - split; [done|]. intros a b _ _.
    rewrite !decide_False; [done | |]; intros [_ H]; now apply elem_of_nil in H.
  - apply Forall_cons in Hl as [Hi Hl].
    destruct (fill_row_spec n i m Hsq Hi) as [Hsq1 Hc1].
    destruct (IH _ Hsq1 Hl) as [Hsq' Hc].
    split; [exact Hsq'|]. intros a b Ha Hb. rewrite (Hc a b Ha Hb), (Hc1 a b Ha Hb).
    destruct (decide ((a < b)%nat ∧ a ∈ l)) as [[Hlt Hin]|H1].
    + rewrite decide_True; [done|]. split; [done | now right].
    + destruct (decide ((b < a)%nat ∧ b ∈ l)) as [[Hlt Hin]|H2].
      * rewrite decide_False by lia. rewrite decide_True; [done|].
        split; [done | now right].
      * destruct (decide (a = i ∧ (i < b)%nat)) as [[-> Hlt]|H3].
        -- rewrite decide_True; [done|]. split; [done | now left].
        -- destruct (decide (b = i ∧ (i < a)%nat)) as [[-> Hlt]|H4].
           ++ rewrite decide_False by lia. rewrite decide_True; [done|].
              split; [done | now left].
           ++ rewrite !decide_False; [done | |].
              ** intros [Hlt Hin]. apply elem_of_cons in Hin as [-> | Hin]; tauto.
              ** intros [Hlt Hin]. apply elem_of_cons in Hin as [-> | Hin]; tauto.
Qed.

(** X15: the correlation matrix of [size] addresses has [size] rows of
    [size] entries; its diagonal is 1 and the entry of two different
    indices is the correlation computed for the pair with the smaller index
    first, so the matrix is symmetric: each pair is computed once and
    written to both places. *)
Theorem correlation_matrix_is_symmetric (size a b : nat) :
  (a < size)%nat → (b < size)%nat →
  square size (getCorrelationMatrix zero one correlation size)
  ∧ cell a b (getCorrelationMatrix zero one correlation size)
    = Some (if decide (a = b) then one else correlation (a `min` b) (a `max` b))
  ∧ cell a b (getCorrelationMatrix zero one correlation size)
    = cell b a (getCorrelationMatrix zero one correlation size).
Proof.
  intros Ha Hb.
  assert (Hseq : Forall (λ i, (i < size)%nat) (seq 0 size)).
  { apply Forall_forall. intros i Hi. apply elem_of_seq in Hi. lia. }
  destruct (diagonal_loop size (seq 0 size) _ (square_zero_matrix size) Hseq)
    as [Hsq1 Hc1].
  destruct (pairs_loop size (seq 0 size) _ Hsq1 Hseq) as [Hsq2 Hc2].
  assert (Hcell : ∀ x y, (x < size)%nat → (y < size)%nat →
    cell x y (getCorrelationMatrix zero one correlation size)
    = Some (if decide (x = y) then one else correlation (x `min` y) (x `max` y))).
  { intros x y Hx Hy. unfold getCorrelationMatrix, fill_pairs, fill_diagonal.
    rewrite (Hc2 x y Hx Hy), Hc1, (cell_zero_matrix size x y Hx Hy).
    assert (Hin : ∀ z, (z < size)%nat → z ∈ seq 0 size).
    { intros z Hz. apply elem_of_seq. lia. }
    destruct (decide ((x < y)%nat ∧ x ∈ seq 0 size)) as [[Hlt _]|H1].
    - rewrite decide_False by lia.
      now rewrite (Nat.min_l x y), (Nat.max_r x y) by lia.
    - destruct (decide ((y < x)%nat ∧ y ∈ seq 0 size)) as [[Hlt _]|H2].
      + rewrite decide_False by lia.
        now rewrite (Nat.min_r x y), (Nat.max_l x y) by lia.
      + assert (x = y) as ->.
        { destruct (Nat.lt_trichotomy x y) as [Hlt|[Heq|Hlt]]; [|exact Heq|].
          - exfalso. apply H1. split; [exact Hlt | now apply Hin].
          - exfalso. apply H2. split; [exact Hlt | now apply Hin]. }
        rewrite decide_True by (split; [done | now apply Hin]).
        now rewrite decide_True. }
  split; [exact Hsq2|]. split; [now apply Hcell|].
  rewrite (Hcell a b Ha Hb), (Hcell b a Hb Ha). f_equal.
  destruct (decide (a = b)) as [->|Hne]; [now rewrite decide_True|].
  rewrite decide_False by congruence. now rewrite Nat.min_comm, Nat.max_comm.
Qed.
End CorrelationMatrixFacts.

Lemma correlation_matrix_is_symmetric_witness :
  (0 < 3)%nat ∧ (2 < 3)%nat
  ∧ cell 0 2 (getCorrelationMatrix 0 1 (λ i j, 10 * Z.of_nat i + Z.of_nat j) 3)
    = cell 2 0 (getCorrelationMatrix 0 1 (λ i j, 10 * Z.of_nat i + Z.of_nat j) 3).
Proof.
  assert (H1 : (0 < 3)%nat) by lia.
  assert (H2 : (2 < 3)%nat) by lia.
  split; [exact H1|]. split; [exact H2|].
  exact (proj2 (proj2 (correlation_matrix_is_symmetric 0 1
           (λ i j, 10 * Z.of_nat i + Z.of_nat j) 3 0 2 H1 H2))).
Defined.

(** * Further properties: counting correlations *)

Lemma scan_eventsB_spec timestampA eventsB n :
  scan_eventsB timestampA eventsB n
  = if decide (Exists (λ timestampB, within_window timestampA timestampB = true) eventsB)
    then n + 1 else n.
Proof.
  induction eventsB as [|b rest IH]; cbn [scan_eventsB].
  - destruct (decide _) as [H|H]; [inversion H | done].
  - destruct (within_window timestampA b) eqn:Hw.
    + destruct (decide (Exists _ (b :: rest))) as [H|H]; [done|].
      exfalso. apply H. now left.
    + rewrite IH.
      destruct (decide (Exists _ rest)) as [Hex|Hno];
        destruct (decide (Exists _ (b :: rest))) as [H|H]; try done.
      * exfalso. apply H. now right.
      * inversion H; subst; [congruence | tauto].
Qed.

Lemma simultaneous_loop eventsB eventsA : ∀ n,
  foldl (λ simultaneous timestampA, scan_eventsB timestampA eventsB simultaneous)
    n eventsA
  = n + Z.of_nat (length (filter
      (λ timestampA, Exists (λ timestampB, within_window timestampA timestampB = true) eventsB)
      eventsA)).
Proof.
  induction eventsA as [|a rest IH]; intros n; cbn [foldl].
  - rewrite filter_nil. cbn [length]. lia.
  - rewrite IH, scan_eventsB_spec, filter_cons.
    destruct (decide (Exists _ eventsB)); cbn [length]; lia.
Qed.

(** X16: the counter of simultaneous events counts each event of the first
    list at most once: it is the number of events of the first list that
    have an event of the second list within 48 hours, so it lies between 0
    and the length of the first list, hence never above the divisor
    [max(eventsA.length, eventsB.length)]; an event whose timestamp does not
    parse is never counted. *)
Theorem simultaneous_events_counted_once (eventsA eventsB : list (option Z)) :
  simultaneousEvents eventsA eventsB
  = Z.of_nat (length (filter
      (λ timestampA, Exists (λ timestampB, within_window timestampA timestampB = true) eventsB)
      eventsA))
  ∧ 0 ≤ simultaneousEvents eventsA eventsB ≤ Z.of_nat (length eventsA)
  ∧ simultaneousEvents eventsA eventsB
    ≤ Z.of_nat (length eventsA) `max` Z.of_nat (length eventsB)
  ∧ simultaneousEvents (None :: eventsA) eventsB = simultaneousEvents eventsA eventsB
  ∧ simultaneousEvents eventsA (None :: eventsB) = simultaneousEvents eventsA eventsB.
Proof.
  unfold simultaneousEvents. rewrite !simultaneous_loop.
  pose proof (length_filter
    (λ timestampA, Exists (λ timestampB, within_window timestampA timestampB = true) eventsB)
    eventsA) as Hle.
  split; [lia|]. split; [lia|]. split; [lia|]. split.
  - rewrite filter_cons, decide_False; [done|].
    intros H. apply Exists_exists in H as (b & _ & Hb). simpl in Hb. discriminate.
  - do 3 f_equal. apply list_filter_iff. intros a. rewrite Exists_cons.
    split; [|tauto]. intros [H|H]; [|exact H].
    destruct a; simpl in H; discriminate.
Qed.

Lemma overlap_intersection (A B : gset string) :
  list_to_set (C := gset string) (filter (λ op, op ∈ B) (elements A)) = A ∩ B.
Proof.
  apply set_eq. intros x.
  rewrite elem_of_list_to_set, list_elem_of_filter, elem_of_elements.
  rewrite elem_of_intersection. tauto.
Qed.

Lemma overlap_union (A B : gset string) :
  list_to_set (C := gset string) (elements A ++ elements B) = A ∪ B.
Proof.
  apply set_eq. intros x.
  rewrite elem_of_list_to_set, elem_of_app, !elem_of_elements.
  now rewrite elem_of_union.
Qed.

(** X17: the operator overlap does not depend on the order of its two
    arguments; it is the constant 0.1 exactly when one side has no
    operator, and otherwise a quotient whose divisor is positive and whose
    dividend is at most the divisor, the two being equal exactly when both
    sides have the same operators. *)
Theorem operator_overlap_is_a_symmetric_ratio (adoptionA adoptionB : list string) :
  calculateOperatorOverlapCorrelation adoptionA adoptionB
  = calculateOperatorOverlapCorrelation adoptionB adoptionA
  ∧ (calculateOperatorOverlapCorrelation adoptionA adoptionB = LowCorrelation
     ↔ adoptionA = [] ∨ adoptionB = [])
  ∧ ∀ n d, calculateOperatorOverlapCorrelation adoptionA adoptionB = Quotient n d →
      (0 < d)%nat ∧ (n ≤ d)%nat
      ∧ (n = d ↔ ∀ op, op ∈ adoptionA ↔ op ∈ adoptionB).
Proof.
  unfold calculateOperatorOverlapCorrelation. cbv zeta.
  rewrite !overlap_intersection, !overlap_union.
  assert (Hempty : ∀ l : list string,
    size (list_to_set (C := gset string) l) = 0%nat ↔ l = []).
  { intros l. rewrite size_empty_iff. split.
    - intros H. destruct l as [|x l]; [done|]. exfalso.
      apply (not_elem_of_empty (C := gset string) x). rewrite <- H.
      apply elem_of_list_to_set. now left.
    - intros ->. reflexivity. }
  pose proof (Hempty adoptionA) as HA. pose proof (Hempty adoptionB) as HB.
  clear Hempty.
  assert (Hmem : ∀ (l : list string) op,
    op ∈ list_to_set (C := gset string) l ↔ op ∈ l).
  { intros l op. apply elem_of_list_to_set. }
  pose proof (Hmem adoptionA) as HmA. pose proof (Hmem adoptionB) as HmB.
  clear Hmem.
  generalize dependent (list_to_set (C := gset string) adoptionA).
  generalize dependent (list_to_set (C := gset string) adoptionB).
  intros B HB HmB A HA HmA.
  split; [|split].
  - rewrite (comm_L (∩) B A), (comm_L (∪) B A).
    destruct (bool_decide (size A = 0%nat ∨ size B = 0%nat)) eqn:E1;
      destruct (bool_decide (size B = 0%nat ∨ size A = 0%nat)) eqn:E2; try reflexivity.
    + apply bool_decide_eq_true in E1. apply bool_decide_eq_false in E2. tauto.
    + apply bool_decide_eq_false in E1. apply bool_decide_eq_true in E2. tauto.
  - destruct (bool_decide (size A = 0%nat ∨ size B = 0%nat)) eqn:E1.
    + apply bool_decide_eq_true in E1. split; [tauto | done].
    + apply bool_decide_eq_false in E1. split; [intros H; inversion H | tauto].
  - intros n d Hq.
    destruct (bool_decide (size A = 0%nat ∨ size B = 0%nat)) eqn:E1;
      [inversion Hq|].
    apply bool_decide_eq_false in E1. inversion Hq; subst n d. clear Hq.
    assert (Hsub : A ∩ B ⊆ A ∪ B).
    { intros x Hx. apply elem_of_intersection in Hx as [Hx _].
      apply elem_of_union. now left. }
    pose proof (subseteq_size _ _ Hsub) as Hle.
    assert (HAu : A ⊆ A ∪ B).
    { intros x Hx. apply elem_of_union. now left. }
    pose proof (subseteq_size _ _ HAu) as HleA.
    split; [lia|]. split; [exact Hle|]. split.
    + intros Heq op.
      assert (Hall : ∀ x, x ∈ A ∪ B → x ∈ A ∩ B).
      { intros x Hx. destruct (decide (x ∈ A ∩ B)) as [|Hn]; [done|]. exfalso.
        assert (Hss : A ∩ B ⊂ A ∪ B).
        { split; [exact Hsub|]. intros Hc. apply Hn, Hc, Hx. }
        apply subset_size in Hss. lia. }
      rewrite <- HmA, <- HmB. split; intros Hop.
      * assert (Hu : op ∈ A ∪ B) by (apply elem_of_union; now left).
        apply Hall, elem_of_intersection in Hu. tauto.
      * assert (Hu : op ∈ A ∪ B) by (apply elem_of_union; now right).
        apply Hall, elem_of_intersection in Hu. tauto.
    + intros Hall.
      assert (HAB : A ∩ B = A ∪ B).
      { apply set_eq. intros x. rewrite elem_of_intersection, elem_of_union.
        specialize (Hall x). rewrite <- HmA, <- HmB in Hall. tauto. }
      now rewrite HAB.
Qed.
